(** * chord-sight: SF2 synthesizer core (PitchCalculator, EnvelopeCalculator,
      SampleManager, SoundEngine, SF2Parser), shallow embedding.

    Numbers of the TypeScript code are modelled as follows:
    - integers read from the binary bank (offsets, sizes, generator amounts,
      MIDI notes, velocities) as [Z];
    - times of the AudioContext clock and Date.now() timestamps as [Q]
      (exact rationals, so that the engine stays executable);
    - the floating point results of [Math.pow] in PitchCalculator and
      EnvelopeCalculator as real numbers [R] ([Rpower 2 x] is [2^x]). *)

From Stdlib Require Import String Ascii.
From Stdlib Require Import ZArith QArith Qminmax Reals Lra Lia Bool List.
Import ListNotations.
Open Scope Z_scope.

(* ------------------------------------------------------------------ *)
(** ** sf2.types.ts: data model *)

Record Range := mkRange { low : Z; high : Z }.

(** GeneratorMap: the six generators the engine interprets. *)
Record GeneratorMap := mkGens {
  gen_keyRange : option Range;      (* 43 *)
  gen_velRange : option Range;      (* 44 *)
  gen_sampleID : option Z;          (* 53 *)
  gen_pan : option Z;               (* 17 *)
  gen_fineTune : option Z;          (* 52 *)
  gen_releaseVolEnv : option Z      (* 38 *)
}.

Definition emptyGens : GeneratorMap :=
  mkGens None None None None None None.

Record Zone := mkZone {
  keyRange : Range;
  velRange : Range;
  generators : GeneratorMap;
  sampleId : option Z;
  instrumentId : option Z
}.

(** SampleHeader as stored in a Sample record ([end] is a keyword of Rocq,
    hence [end_]). *)
Record SampleHeader := mkHeader {
  start : Z;
  end_ : Z;
  startLoop : Z;
  endLoop : Z;
  sampleRate : Z;
  originalPitch : Z;
  pitchCorrection : Z
}.

(** Strings of the bank (names) are kept as their character codes. *)
Record Sample := mkSample {
  name : list Z;
  data : list Z;          (* Int16Array *)
  header : SampleHeader
}.

(* ------------------------------------------------------------------ *)
(** ** PitchCalculator.ts *)

Module PitchCalculator.
Local Open Scope R_scope.

(** [adjustForSampleRate]: [sampleRate === contextRate] returns the rate
    unchanged, otherwise multiplies by [sampleRate / contextRate]. *)
Definition adjustForSampleRate (playbackRate sampleRate contextRate : R) : R :=
  if Req_EM_T sampleRate contextRate then playbackRate
  else playbackRate * (sampleRate / contextRate).

(** [calculatePlaybackRate]; [contextRate] is [this.audioContext.sampleRate]. *)
Definition calculatePlaybackRate (contextRate : R) (midiNote : Z)
    (sample : Sample) (zone : Zone) : R :=
  let originalPitch := IZR (originalPitch (header sample)) in
  let pitchCorrection := IZR (pitchCorrection (header sample)) in
  let fineTune :=
    match gen_fineTune (generators zone) with Some f => IZR f | None => 0 end in
  let semitoneDiff := IZR midiNote - originalPitch in
  let totalCents := semitoneDiff * 100 + pitchCorrection + fineTune in
  let playbackRate := Rpower 2 (totalCents / 1200) in
  adjustForSampleRate playbackRate (IZR (sampleRate (header sample))) contextRate.

(** [midiToFrequency]: A4 (MIDI 69) is 440 Hz. *)
Definition midiToFrequency (midiNote : R) : R := 440 * Rpower 2 ((midiNote - 69) / 12).

(** [playbackRateToFrequency] (its [sampleRate] argument is unused). *)
Definition playbackRateToFrequency (playbackRate originalPitch sampleRate : R) : R :=
  let originalFreq := midiToFrequency originalPitch in
  originalFreq * playbackRate.

(** [Math.log2], on the positive arguments it receives here. *)
Definition mathLog2 (x : R) : R := ln x / ln 2.

(** [validatePitchAccuracy]: the cent error of the played frequency against
    the note's frequency is within 5 cents. *)
Definition validatePitchAccuracy (contextRate : R) (midiNote : Z) (sample : Sample)
    (zone : Zone) : bool :=
  let playbackRate := calculatePlaybackRate contextRate midiNote sample zone in
  let targetFreq := midiToFrequency (IZR midiNote) in
  let actualFreq :=
    playbackRateToFrequency playbackRate (IZR (originalPitch (header sample)))
      (IZR (sampleRate (header sample))) in
  let centError := 1200 * mathLog2 (actualFreq / targetFreq) in
  if Rle_dec (Rabs centError) 5 then true else false.

(** The formula of the spec (section 4.2), over integer cents. *)
Definition spec_rate (outputRate : R) (note : Z) (sample : Sample) (zone : Zone) : R :=
  let fineTuneCents :=
    match gen_fineTune (generators zone) with Some f => f | None => 0%Z end in
  let totalCents :=
    ((note - originalPitch (header sample)) * 100
     + pitchCorrection (header sample) + fineTuneCents)%Z in
  Rpower 2 (IZR totalCents / 1200) * (IZR (sampleRate (header sample)) / outputRate).

End PitchCalculator.

(* ------------------------------------------------------------------ *)
(** ** EnvelopeCalculator.ts *)

Module EnvelopeCalculator.
Local Open Scope R_scope.

Definition timecentsToSeconds (timecents : R) : R := Rpower 2 (timecents / 1200).

(** [calculateReleaseTime]; [None] is [undefined]. *)
Definition calculateReleaseTime (releaseVolEnv : option R) : R :=
  match releaseVolEnv with
  | None => 0.2
  | Some tc =>
      let releaseTime := timecentsToSeconds tc in
      if Rlt_dec releaseTime 0.01 then 0.01
      else if Rlt_dec 10 releaseTime then 10
      else releaseTime
  end.


(** [calculateAttackTime]: default 1 ms, clamped to [0.001, 5]. *)
Definition calculateAttackTime (attackVolEnv : option R) : R :=
  match attackVolEnv with
  | None => 0.001
  | Some tc =>
      let attackTime := timecentsToSeconds tc in
      if Rlt_dec attackTime 0.001 then 0.001
      else if Rlt_dec 5 attackTime then 5
      else attackTime
  end.

(** [calculateHoldTime]: default 0, clamped to [0, 5]. *)
Definition calculateHoldTime (holdVolEnv : option R) : R :=
  match holdVolEnv with
  | None => 0
  | Some tc =>
      let holdTime := timecentsToSeconds tc in
      if Rlt_dec holdTime 0 then 0
      else if Rlt_dec 5 holdTime then 5
      else holdTime
  end.

(** [calculateDecayTime]: default 100 ms, clamped to [0.001, 10]. *)
Definition calculateDecayTime (decayVolEnv : option R) : R :=
  match decayVolEnv with
  | None => 0.1
  | Some tc =>
      let decayTime := timecentsToSeconds tc in
      if Rlt_dec decayTime 0.001 then 0.001
      else if Rlt_dec 10 decayTime then 10
      else decayTime
  end.

End EnvelopeCalculator.

(* ------------------------------------------------------------------ *)
Record Version := mkVersion { major : Z; minor : Z }.

(** SF2Info (INFO list); optional fields are [option]. *)
Record SF2Info := mkInfo {
  version : Version;
  soundEngine : list Z;
  bankName : list Z;
  romName : option (list Z);
  romVersion : option Version;
  creationDate : option (list Z);
  engineers : option (list Z);
  product : option (list Z);
  copyright : option (list Z);
  comments : option (list Z);
  software : option (list Z)
}.

Record Preset := mkPreset {
  presetName : list Z;
  preset : Z;
  bank : Z;
  library : Z;
  genre : Z;
  morphology : Z;
  presetZones : list Zone
}.

Record Instrument := mkInstrument {
  instrumentName : list Z;
  instrumentZones : list Zone
}.

Record SF2Data := mkSF2 {
  info : SF2Info;
  samples : list Sample;
  presets : list Preset;
  instruments : list Instrument
}.

(* ------------------------------------------------------------------ *)
(** ** SampleManager.ts: LRU cache of decoded sample buffers *)

Module SampleManager.
Local Open Scope Z_scope.

Record CacheEntry := mkEntry {
  buffer : list Q;        (* AudioBuffer, channel 0 *)
  lastAccessed : Z;       (* Date.now() *)
  size : Z                (* bytes *)
}.

(** A JS [Map<number, CacheEntry>]: an association list in insertion order.
    [set] on a present key replaces the value in place, on a new key appends;
    [delete] removes the key. *)
Fixpoint map_get {V} (k : Z) (m : list (Z * V)) : option V :=
  match m with
  | [] => None
  | (k', v) :: r => if Z.eqb k k' then Some v else map_get k r
  end.

Fixpoint map_set {V} (k : Z) (v : V) (m : list (Z * V)) : list (Z * V) :=
  match m with
  | [] => [(k, v)]
  | (k', v') :: r => if Z.eqb k k' then (k', v) :: r else (k', v') :: map_set k v r
  end.

Definition map_delete {V} (k : Z) (m : list (Z * V)) : list (Z * V) :=
  filter (fun kv => negb (Z.eqb k (fst kv))) m.

Record State := mkState {
  sf2Data : SF2Data;
  cache : list (Z * CacheEntry);
  maxCacheSize : Z;
  totalMemoryUsage : Z
}.

(** [constructor]: [config.maxCacheSize || 150] ([undefined] and [0] give 150). *)
Definition init (sf2 : SF2Data) (maxCacheSizeCfg : option Z) : State :=
  mkState sf2 []
    (match maxCacheSizeCfg with
     | Some m => if Z.eqb m 0 then 150 else m
     | None => 150
     end) 0.

Definition withCache (st : State) (c : list (Z * CacheEntry)) (mem : Z) : State :=
  mkState (sf2Data st) c (maxCacheSize st) mem.

(** [getSampleData] *)
Definition getSampleData (sampleId : Z) (st : State) : option Sample :=
  if (sampleId <? 0) || (sampleId >=? Z.of_nat (length (samples (sf2Data st))))
  then None
  else nth_error (samples (sf2Data st)) (Z.to_nat sampleId).

(** [createAudioBuffer]: Int16 to float ([x / 32768]). [createBuffer(1,
    length, sampleRate)] of the Web Audio API throws (NotSupportedError) for
    a zero length or a sample rate outside [3000, 768000]. *)
Definition createAudioBuffer (sample : Sample) : option (list Q) :=
  let rate := sampleRate (header sample) in
  if (length (data sample) =? 0)%nat || (rate <? 3000) || (768000 <? rate)
  then None
  else Some (map (fun x => inject_Z x / inject_Z 32768)%Q (data sample)).

(** The scan of [evictLRU]: the first entry with the strictly smallest
    [lastAccessed]; [None] as [oldestTime] is [Infinity]. *)
Fixpoint findOldest (c : list (Z * CacheEntry)) (oldest : option (Z * Z))
    : option (Z * Z) :=
  match c with
  | [] => oldest
  | (id, entry) :: r =>
      let oldest' :=
        match oldest with
        | None => Some (id, lastAccessed entry)
        | Some (_, oldestTime) =>
            if lastAccessed entry <? oldestTime
            then Some (id, lastAccessed entry) else oldest
        end in
      findOldest r oldest'
  end.

(** [evictLRU] *)
Definition evictLRU (st : State) : State :=
  match findOldest (cache st) None with
  | None => st
  | Some (oldestId, _) =>
      match map_get oldestId (cache st) with
      | Some entry =>
          withCache st (map_delete oldestId (cache st))
            (totalMemoryUsage st - size entry)
      | None => st
      end
  end.

(** [while (this.cache.size >= this.maxCacheSize) this.evictLRU();]
    Each round removes one entry of a non-empty cache, so when
    [maxCacheSize >= 1] the loop stops after at most [length cache] rounds:
    the fuel [S (length cache)] given by [addToCache] is never exhausted
    (see [evictLoop_below]). *)
Fixpoint evictLoop (fuel : nat) (st : State) : State :=
  match fuel with
  | O => st
  | S f =>
      if Z.of_nat (length (cache st)) >=? maxCacheSize st
      then evictLoop f (evictLRU st)
      else st
  end.

(** [addToCache] *)
Definition addToCache (sampleId : Z) (buf : list Q) (now : Z) (st : State) : State :=
  let sz := Z.of_nat (length buf) * 1 * 4 in
  let st1 := evictLoop (S (length (cache st))) st in
  withCache st1 (map_set sampleId (mkEntry buf now sz) (cache st1))
    (totalMemoryUsage st1 + sz).

(** [loadSample] split at its [await]: [loadBegin] is the synchronous part
    (cache hit, or lookup and conversion of the sample); on a miss it yields
    the buffer whose insertion [addToCache] happens when the call resumes. *)
Inductive LoadStep :=
  | Hit (buf : list Q)
  | Miss (buf : list Q)
  | Fail.

Definition loadBegin (sampleId : Z) (now : Z) (st : State) : LoadStep * State :=
  match map_get sampleId (cache st) with
  | Some cached =>
      (Hit (buffer cached),
       withCache st (map_set sampleId (mkEntry (buffer cached) now (size cached)) (cache st))
         (totalMemoryUsage st))
  | None =>
      match getSampleData sampleId st with
      | None => (Fail, st)
      | Some sample =>
          match createAudioBuffer sample with
          | None => (Fail, st)
          | Some buf => (Miss buf, st)
          end
      end
  end.

Definition loadEnd (sampleId : Z) (step : LoadStep) (now : Z) (st : State)
    : option (list Q) * State :=
  match step with
  | Hit buf => (Some buf, st)
  | Miss buf => (Some buf, addToCache sampleId buf now st)
  | Fail => (None, st)
  end.

(** [loadSample] run to completion without interleaving. *)
Definition loadSample (sampleId : Z) (now : Z) (st : State) : option (list Q) * State :=
  let '(step, st1) := loadBegin sampleId now st in
  loadEnd sampleId step now st1.

(** [getSample] (synchronous) *)
Definition getSample (sampleId : Z) (now : Z) (st : State) : option (list Q) * State :=
  match map_get sampleId (cache st) with
  | Some cached =>
      (Some (buffer cached),
       withCache st (map_set sampleId (mkEntry (buffer cached) now (size cached)) (cache st))
         (totalMemoryUsage st))
  | None => (None, st)
  end.

(** [clearCache] *)
Definition clearCache (st : State) : State := withCache st [] 0.

(** Operations on the cache. Concurrent loads ([preloadSamples] runs its
    [loadSample] calls under [Promise.all]) interleave at the [await]: a call
    that missed may resume after another call inserted the same id, so
    [Resume] runs [addToCache] for any valid id, present or not. *)
Inductive CacheOp :=
  | Load (sampleId : Z) (now : Z)
  | Get (sampleId : Z) (now : Z)
  | Resume (sampleId : Z) (now : Z)
  | Clear.

Definition cacheStep (op : CacheOp) (st : State) : State :=
  match op with
  | Load id now => snd (loadSample id now st)
  | Get id now => snd (getSample id now st)
  | Resume id now =>
      match getSampleData id st with
      | Some sample =>
          match createAudioBuffer sample with
          | Some buf => addToCache id buf now st
          | None => st
          end
      | None => st
      end
  | Clear => clearCache st
  end.

Fixpoint runCache (ops : list CacheOp) (st : State) : State :=
  match ops with
  | [] => st
  | op :: rest => runCache rest (cacheStep op st)
  end.

(** [getCacheStats().size] *)
Definition cacheSize (st : State) : Z := Z.of_nat (length (cache st)).

(** [preloadSamples]: [Promise.all(ids.map(loadSample))]. Every call runs its
    synchronous part (up to its [await]) in order, then the calls resume in
    order; a failed call rejects the promise but the others still resume.
    The result is [true] when every load succeeded. *)
Fixpoint loadBeginAll (ids : list Z) (now : Z) (st : State) : list LoadStep * State :=
  match ids with
  | [] => ([], st)
  | id :: rest =>
      let '(step, st1) := loadBegin id now st in
      let '(steps, st2) := loadBeginAll rest now st1 in
      (step :: steps, st2)
  end.

Fixpoint loadEndAll (ids : list Z) (steps : list LoadStep) (now : Z) (st : State)
    : bool * State :=
  match ids, steps with
  | id :: rest, step :: steps' =>
      let '(res, st1) := loadEnd id step now st in
      let '(ok, st2) := loadEndAll rest steps' now st1 in
      (match res with Some _ => ok | None => false end, st2)
  | _, _ => (true, st)
  end.

Definition preloadSamples (sampleIds : list Z) (now : Z) (st : State) : bool * State :=
  let '(steps, st1) := loadBeginAll sampleIds now st in
  loadEndAll sampleIds steps now st1.

(** [Set.add] on the id set of [preloadForMIDIRange] (insertion order). *)
Definition idSetAdd (x : Z) (s : list Z) : list Z :=
  if existsb (Z.eqb x) s then s else s ++ [x].

(** The ids collected by [preloadForMIDIRange]: the sample of every zone of
    the first preset whose key range meets [midiStart, midiEnd]. *)
Definition preloadIds (sf2 : SF2Data) (midiStart midiEnd : Z) : list Z :=
  match presets sf2 with
  | [] => []
  | preset :: _ =>
      fold_left (fun ids zone =>
        let keyRange := keyRange zone in
        if (low keyRange <=? midiEnd) && (midiStart <=? high keyRange)
        then match sampleId zone with
             | Some id => idSetAdd id ids
             | None => ids
             end
        else ids) (presetZones preset) []
  end.

(** [preloadForMIDIRange] *)
Definition preloadForMIDIRange (midiStart midiEnd : Z) (now : Z) (st : State) : bool * State :=
  preloadSamples (preloadIds (sf2Data st) midiStart midiEnd) now st.

(** [getMemoryUsage] (MB) *)
Definition getMemoryUsage (st : State) : Q := (inject_Z (totalMemoryUsage st) / inject_Z (1024 * 1024))%Q.

(** The sum of the [size] of the cache entries. *)
Definition cachedBytes (c : list (Z * CacheEntry)) : Z := fold_right (fun kv acc => size (snd kv) + acc) 0 c.

(** Keys of the cache, and the cache invariant: capacity at least 1,
    distinct keys, size within capacity. *)
Definition keys (c : list (Z * CacheEntry)) : list Z := map fst c.

Definition CacheInv (st : State) : Prop :=
  1 <= maxCacheSize st /\ NoDup (keys (cache st)) /\ cacheSize st <= maxCacheSize st.

End SampleManager.

(* ------------------------------------------------------------------ *)
(** ** SoundEngine.ts (with StereoManager.playStereoPair) *)

Module SoundEngine.

(** Times handed to the Web Audio API. [AfterRelease t rv extra] is
    [t + calculateReleaseTime(rv) + extra], kept symbolic because the release
    time is a real number (see [Time_R]). *)
Inductive Time :=
  | At (t : Q)
  | AfterRelease (t : Q) (releaseVolEnv : option Z) (extra : Q).

Definition Time_R (w : Time) : R :=
  match w with
  | At t => Q2R t
  | AfterRelease t rv extra =>
      (Q2R t + EnvelopeCalculator.calculateReleaseTime (option_map IZR rv) + Q2R extra)%R
  end.

(** A voice: the JS object, whose identity ([indexOf] compares references)
    is [vref]; its two sources, gain node and merger are named by [vref] in
    the calls made on the audio graph. *)
Record Voice := mkVoice {
  vref : nat;
  midiNote : Z;
  velocity : Z;
  startTime : Q;
  releaseTime : option Time;
  isReleasing : bool;
  zones : list Zone
}.

(** Calls made on the audio graph, in order. [StopLeft r None] is [stop()]. *)
Inductive Effect :=
  | StartPair (voice : nat) (gain : Q) (t : Q)
  | CancelScheduledValues (voice : nat) (t : Time)
  | SetValueAtTime (voice : nat) (value : Q) (t : Time)
  | LinearRampToValueAtTime (voice : nat) (value : Q) (t : Time)
  | ExponentialRampToValueAtTime (voice : nat) (value : Q) (t : Time)
  | StopLeft (voice : nat) (t : option Time)
  | StopRight (voice : nat) (t : option Time)
  | Disconnect (voice : nat).

(** What an event reads from its environment: [audioContext.currentTime],
    the current value of each voice's [gainNode.gain], and [Date.now()]. *)
Record Clock := mkClock {
  currentTime : Q;
  gainValue : nat -> Q;
  dateNow : Z
}.

Record Engine := mkEngine {
  sampleManager : SampleManager.State;
  sf2Data : SF2Data;
  voices : list (Z * list Voice);       (* Map<number, Voice[]> *)
  sustainPedal : bool;
  sustainedNotes : list Z;              (* Set<number>, insertion order *)
  maxPolyphony : Z;
  nextRef : nat;                        (* next fresh voice object *)
  log : list Effect
}.

Definition setVoices (st : Engine) (m : list (Z * list Voice)) : Engine :=
  mkEngine (sampleManager st) (sf2Data st) m (sustainPedal st) (sustainedNotes st)
    (maxPolyphony st) (nextRef st) (log st).
Definition setSustained (st : Engine) (s : list Z) : Engine :=
  mkEngine (sampleManager st) (sf2Data st) (voices st) (sustainPedal st) s
    (maxPolyphony st) (nextRef st) (log st).
Definition setPedal (st : Engine) (b : bool) : Engine :=
  mkEngine (sampleManager st) (sf2Data st) (voices st) b (sustainedNotes st)
    (maxPolyphony st) (nextRef st) (log st).
Definition emit (st : Engine) (e : list Effect) : Engine :=
  mkEngine (sampleManager st) (sf2Data st) (voices st) (sustainPedal st) (sustainedNotes st)
    (maxPolyphony st) (nextRef st) (log st ++ e).

(** [Set.add] and [Set.delete] *)
Definition set_add (x : Z) (s : list Z) : list Z :=
  if existsb (Z.eqb x) s then s else s ++ [x].
Definition set_delete (x : Z) (s : list Z) : list Z :=
  filter (fun y => negb (Z.eqb x y)) s.

(** [constructor]: [config.maxPolyphony || 64]. *)
Definition init (sm : SampleManager.State) (sf2 : SF2Data) (maxPolyphonyCfg : option Z)
    : Engine :=
  mkEngine sm sf2 [] false []
    (match maxPolyphonyCfg with
     | Some m => if Z.eqb m 0 then 64 else m
     | None => 64
     end) 0 [].

(** [selectZones]: the zones of the first preset whose key and velocity
    ranges contain the note and the velocity. *)
Definition zoneMatches (midiNote velocity : Z) (zone : Zone) : bool :=
  (low (keyRange zone) <=? midiNote) && (midiNote <=? high (keyRange zone)) &&
  (low (velRange zone) <=? velocity) && (velocity <=? high (velRange zone)).

Definition selectZones (sf2 : SF2Data) (midiNote velocity : Z) : list Zone :=
  match presets sf2 with
  | [] => []
  | preset :: _ => filter (zoneMatches midiNote velocity) (presetZones preset)
  end.

(** StereoManager: [zones.find((z) => z.generators.pan === p)] *)
Definition findPan (p : Z) (zones : list Zone) : option Zone :=
  find (fun z => match gen_pan (generators z) with Some q => Z.eqb q p | None => false end)
    zones.

(** [StereoManager.hasStereoPair] *)
Definition hasStereoPair (zones : list Zone) : bool :=
  let hasLeft := existsb (fun z => match gen_pan (generators z) with Some q => Z.eqb q (-500) | None => false end) zones in
  let hasRight := existsb (fun z => match gen_pan (generators z) with Some q => Z.eqb q 500 | None => false end) zones in
  hasLeft && hasRight.

(** [StereoManager.playStereoPair]. Both [loadSample] calls of [Promise.all]
    run their synchronous part (left, then right) before either resumes;
    both resume (left first) even when the other one failed. [None] is a
    thrown error. *)
Definition playStereoPair (clk : Clock) (r : nat) (midiNote velocity : Z)
    (zones : list Zone) (sm : SampleManager.State)
    : option Voice * SampleManager.State * list Effect :=
  match findPan (-500) zones, findPan 500 zones with
  | Some leftZone, Some rightZone =>
      match sampleId leftZone, sampleId rightZone with
      | Some l, Some rr =>
          let '(stepL, sm1) := SampleManager.loadBegin l (dateNow clk) sm in
          let '(stepR, sm2) := SampleManager.loadBegin rr (dateNow clk) sm1 in
          let '(bufL, sm3) := SampleManager.loadEnd l stepL (dateNow clk) sm2 in
          let '(bufR, sm4) := SampleManager.loadEnd rr stepR (dateNow clk) sm3 in
          match bufL, bufR with
          | Some _, Some _ =>
              match SampleManager.getSampleData l sm4 with
              | Some _ =>
                  let gain := ((inject_Z velocity / 127) ^ 2)%Q in
                  (Some (mkVoice r midiNote velocity (currentTime clk) None false zones),
                   sm4, [StartPair r gain (currentTime clk)])
              | None => (None, sm4, [])
              end
          | _, _ => (None, sm4, [])
          end
      | _, _ => (None, sm, [])
      end
  | _, _ => (None, sm, [])
  end.

Definition allVoices (m : list (Z * list Voice)) : list Voice := concat (map snd m).

(** [checkPolyphonyLimit]'s count, and [getStats().activeVoices] *)
Definition totalVoices (m : list (Z * list Voice)) : Z := Z.of_nat (length (allVoices m)).

(** The 20 ms fade of a voice replaced by a new strike of its note. *)
Definition fadeOut (now : Q) (gv : nat -> Q) (v : Voice) : list Effect :=
  let r := vref v in
  [CancelScheduledValues r (At now);
   SetValueAtTime r (gv r) (At now);
   LinearRampToValueAtTime r 0 (At (now + (2 # 100)));
   StopLeft r (Some (At (now + (2 # 100))));
   StopRight r (Some (At (now + (2 # 100))))].

(** The priority of [stealOldestVoice] (smaller is stolen first). *)
Definition priority (now : Q) (v : Voice) : Q :=
  let p0 := 0%Q in
  let p1 := if isReleasing v then (p0 - 1000)%Q else p0 in
  let p2 := (p1 - inject_Z (velocity v))%Q in
  let age := (now - startTime v)%Q in
  (p2 + age * 10)%Q.

(** The scan of [stealOldestVoice]: strict [<] against the lowest priority
    so far ([None] is [Infinity]), over the map in order. *)
Fixpoint scanVoices (now : Q) (vs : list Voice) (best : option (Q * Voice))
    : option (Q * Voice) :=
  match vs with
  | [] => best
  | v :: rest =>
      let p := priority now v in
      let best' :=
        match best with
        | None => Some (p, v)
        | Some (lowestPriority, _) =>
            if negb (Qle_bool lowestPriority p) then Some (p, v) else best
        end in
      scanVoices now rest best'
  end.

Fixpoint scanRegistry (now : Q) (m : list (Z * list Voice)) (best : option (Q * Voice))
    : option (Q * Voice) :=
  match m with
  | [] => best
  | (_, vs) :: rest => scanRegistry now rest (scanVoices now vs best)
  end.

(** [voices.indexOf(voice)] and [splice(index, 1)] *)
Fixpoint removeFirst (r : nat) (vs : list Voice) : option (list Voice) :=
  match vs with
  | [] => None
  | v :: rest =>
      if Nat.eqb (vref v) r then Some rest
      else option_map (cons v) (removeFirst r rest)
  end.

(** The loop of [removeVoice]: the first entry holding the voice loses it;
    an entry left empty is deleted and its note is returned. *)
Fixpoint removeVoiceFrom (r : nat) (m : list (Z * list Voice))
    : list (Z * list Voice) * option Z :=
  match m with
  | [] => ([], None)
  | (note, vs) :: rest =>
      match removeFirst r vs with
      | Some [] => (rest, Some note)
      | Some vs' => ((note, vs') :: rest, None)
      | None =>
          let '(rest', d) := removeVoiceFrom r rest in ((note, vs) :: rest', d)
      end
  end.

(** [removeVoice] *)
Definition removeVoice (r : nat) (st : Engine) : Engine :=
  let st1 := emit st [Disconnect r] in
  let '(m', d) := removeVoiceFrom r (voices st1) in
  let st2 := setVoices st1 m' in
  match d with
  | Some note => setSustained st2 (set_delete note (sustainedNotes st2))
  | None => st2
  end.

(** [stealOldestVoice] *)
Definition stealOldestVoice (now : Q) (st : Engine) : Engine :=
  match scanRegistry now (voices st) None with
  | None => st
  | Some (_, targetVoice) =>
      let r := vref targetVoice in
      removeVoice r (emit st [StopLeft r None; StopRight r None])
  end.

(** [checkPolyphonyLimit] *)
Definition checkPolyphonyLimit (now : Q) (st : Engine) : Engine :=
  if totalVoices (voices st) >=? maxPolyphony st then stealOldestVoice now st else st.

(** [if (!this.voices.has(n)) this.voices.set(n, []); this.voices.get(n)!.push(v)] *)
Definition pushVoice (note : Z) (v : Voice) (m : list (Z * list Voice)) : list (Z * list Voice) :=
  match SampleManager.map_get note m with
  | Some vs => SampleManager.map_set note (vs ++ [v]) m
  | None => SampleManager.map_set note [v] m
  end.

(** [noteOn], run to completion. *)
Definition noteOn (clk : Clock) (note velocity : Z) (st : Engine) : Engine :=
  if (note <? 21) || (108 <? note) then st
  else if (velocity <? 0) || (127 <? velocity) then st
  else
    let zones := selectZones (sf2Data st) note velocity in
    match zones with
    | [] => st
    | _ =>
        let st1 :=
          match SampleManager.map_get note (voices st) with
          | Some existing => emit st (concat (map (fadeOut (currentTime clk) (gainValue clk)) existing))
          | None => st
          end in
        let st2 := checkPolyphonyLimit (currentTime clk) st1 in
        let '(res, sm', eff) :=
          playStereoPair clk (nextRef st2) note velocity zones (sampleManager st2) in
        match res with
        | Some voice =>
            mkEngine sm' (sf2Data st2) (pushVoice note voice (voices st2)) (sustainPedal st2)
              (set_delete note (sustainedNotes st2)) (maxPolyphony st2) (S (nextRef st2))
              (log st2 ++ eff)
        | None =>
            mkEngine sm' (sf2Data st2) (voices st2) (sustainPedal st2)
              (sustainedNotes st2) (maxPolyphony st2) (nextRef st2) (log st2 ++ eff)
        end
    end.

(** [getReleaseTime]: the release generator of the voice's first zone. *)
Definition releaseVolEnvOf (v : Voice) : option Z :=
  match zones v with
  | [] => None
  | z :: _ => gen_releaseVolEnv (generators z)
  end.

(** The body of the loop of [releaseNote] for one voice. *)
Definition releaseVoice (now : Q) (gv : nat -> Q) (v : Voice) : Voice * list Effect :=
  if isReleasing v then (v, [])
  else
    let r := vref v in
    let rv := releaseVolEnvOf v in
    let currentGain := gv r in
    let targetGain := (1 # 10000)%Q in
    let ramp :=
      if Qle_bool currentGain targetGain
      then [SetValueAtTime r currentGain (At now);
            LinearRampToValueAtTime r 0 (At (now + (1 # 100)))]
      else [SetValueAtTime r currentGain (At now);
            ExponentialRampToValueAtTime r targetGain (AfterRelease now rv 0)] in
    (mkVoice r (midiNote v) (velocity v) (startTime v) (Some (AfterRelease now rv 0))
       true (zones v),
     [CancelScheduledValues r (At now)] ++ ramp ++
     [StopLeft r (Some (AfterRelease now rv (1 # 10)));
      StopRight r (Some (AfterRelease now rv (1 # 10)))]).

Fixpoint releaseVoices (now : Q) (gv : nat -> Q) (vs : list Voice) : list Voice * list Effect :=
  match vs with
  | [] => ([], [])
  | v :: rest =>
      let '(v', e) := releaseVoice now gv v in
      let '(rest', e') := releaseVoices now gv rest in
      (v' :: rest', e ++ e')
  end.

(** [releaseNote] *)
Definition releaseNote (clk : Clock) (note : Z) (st : Engine) : Engine :=
  match SampleManager.map_get note (voices st) with
  | None | Some [] => st
  | Some noteVoices =>
      let '(vs', eff) := releaseVoices (currentTime clk) (gainValue clk) noteVoices in
      emit (setVoices st (SampleManager.map_set note vs' (voices st))) eff
  end.

(** [noteOff] *)
Definition noteOff (clk : Clock) (note : Z) (st : Engine) : Engine :=
  match SampleManager.map_get note (voices st) with
  | None | Some [] => st
  | Some _ =>
      if sustainPedal st then setSustained st (set_add note (sustainedNotes st))
      else releaseNote clk note st
  end.

(** [setSustainPedal] *)
Definition setSustainPedal (clk : Clock) (isDown : bool) (st : Engine) : Engine :=
  let st1 := setPedal st isDown in
  if isDown then st1
  else
    let st2 := fold_left (fun acc note => releaseNote clk note acc) (sustainedNotes st1) st1 in
    setSustained st2 [].

(** [allNotesOff] *)
Definition allNotesOff (clk : Clock) (st : Engine) : Engine :=
  let st1 := fold_left (fun acc note => releaseNote clk note acc) (map fst (voices st)) st in
  setSustained st1 [].

(** [panic] *)
Definition panic (st : Engine) : Engine :=
  let st1 := emit st (concat (map (fun v => [StopLeft (vref v) None; StopRight (vref v) None])
                                  (allVoices (voices st)))) in
  setSustained (setVoices st1 []) [].

(** [getStats]: activeVoices, sustainedNotes, sustainPedalDown, maxPolyphony *)
Definition getStats (st : Engine) : Z * Z * bool * Z :=
  (totalVoices (voices st), Z.of_nat (length (sustainedNotes st)), sustainPedal st,
   maxPolyphony st).

(** [setVolume]: the value given to [masterGain.gain]. *)
Definition setVolume (volume : R) : R := (Rmax 0 (Rmin 100 volume) / 100)%R.

(** Events reaching the engine; [Ended r] is the [onended] callback of the
    voice object [r] ([removeVoice]). *)
Inductive EngineOp :=
  | NoteOn (clk : Clock) (note velocity : Z)
  | NoteOff (clk : Clock) (note : Z)
  | Pedal (clk : Clock) (isDown : bool)
  | Ended (r : nat)
  | AllNotesOff (clk : Clock)
  | Panic.

Definition engineStep (op : EngineOp) (st : Engine) : Engine :=
  match op with
  | NoteOn clk n v => noteOn clk n v st
  | NoteOff clk n => noteOff clk n st
  | Pedal clk b => setSustainPedal clk b st
  | Ended r => removeVoice r st
  | AllNotesOff clk => allNotesOff clk st
  | Panic => panic st
  end.

Fixpoint runEngine (ops : list EngineOp) (st : Engine) : Engine :=
  match ops with
  | [] => st
  | op :: rest => runEngine rest (engineStep op st)
  end.

(** The polyphony invariant: limit at least 1, voice count within it. *)
Definition PolyInv (st : Engine) : Prop :=
  1 <= maxPolyphony st /\ totalVoices (voices st) <= maxPolyphony st.

(** The voice map as [noteOn] and [removeVoice] keep it: distinct notes,
    each with a non-empty voice list; and the sustained notes, distinct,
    all notes of the map ([removeVoice] drops a note from [sustainedNotes]
    when its last voice goes). *)
Definition VoiceMapOK (m : list (Z * list Voice)) : Prop :=
  NoDup (map fst m) /\ (forall k vs, In (k, vs) m -> vs <> []).

Definition SustInv (st : Engine) : Prop :=
  VoiceMapOK (voices st) /\ NoDup (sustainedNotes st) /\
  incl (sustainedNotes st) (map fst (voices st)).

End SoundEngine.

(* ------------------------------------------------------------------ *)
(** ** SF2Parser.ts: the bank parser, over the bytes of the ArrayBuffer *)

Module SF2Parser.

(** What the parser can throw: the RangeError of a DataView read or of the
    Int16Array constructor out of bounds, the TypeError of a property read
    on [undefined], and the parser's own [Error]s. The texts of the first
    two are the engine's (V8's here). *)
Inductive Exn :=
  | RangeError (msg : string)
  | TypeError (msg : string)
  | Error (msg : string).

Definition message (e : Exn) : string :=
  match e with RangeError m | TypeError m | Error m => m end.

(** A [console.warn] of the sample loop of [parsePDTA]. *)
Record Warning := mkWarning {
  warnIndex : Z; warnName : list Z; warnStart : Z; warnEnd : Z; warnMax : Z
}.

Inductive Result (A : Type) := Ok (a : A) | Throw (e : Exn).
Arguments Ok {A} a.
Arguments Throw {A} e.

(** The parser's effects: an exception, and the warnings printed so far. *)
Definition M (A : Type) : Type := list Warning -> Result A * list Warning.

Definition ret {A} (a : A) : M A := fun w => (Ok a, w).
Definition bind {A B} (m : M A) (k : A -> M B) : M B :=
  fun w => match m w with
           | (Ok a, w') => k a w'
           | (Throw e, w') => (Throw e, w')
           end.
Definition raise {A} (e : Exn) : M A := fun w => (Throw e, w).
Definition warn (x : Warning) : M unit := fun w => (Ok tt, w ++ [x]).

Notation "x <- m ;; k" := (bind m (fun x => k))
  (at level 61, m at next level, right associativity).

(** A computation that prints no warning: its result does not depend on
    the warnings printed before it, and it adds none. *)
Definition Pure {A} (m : M A) : Prop := forall w, m w = (fst (m []), w).

(** [for (let i = start; ...; i++)] with its trip count. *)
Fixpoint forRange {A} (n : nat) (i : Z) (body : Z -> M A) : M (list A) :=
  match n with
  | O => ret []
  | S n' => x <- body i ;; xs <- forRange n' (i + 1) body ;; ret (x :: xs)
  end.

(** Character codes of a string literal, and back (codes below 256). *)
Fixpoint codes (s : string) : list Z :=
  match s with
  | EmptyString => []
  | String c s' => Z.of_nat (nat_of_ascii c) :: codes s'
  end.

Definition string_of_codes (l : list Z) : string :=
  fold_right (fun c s => String (ascii_of_nat (Z.to_nat c)) s) EmptyString l.

Definition codes_eqb (l1 l2 : list Z) : bool :=
  if list_eq_dec Z.eq_dec l1 l2 then true else false.

(** Decimal digits of a non-negative number ([`${i}`]). *)
Fixpoint decimalAux (fuel : nat) (n : Z) (acc : list Z) : list Z :=
  match fuel with
  | O => acc
  | S f =>
      let acc' := (48 + n mod 10) :: acc in
      if n <? 10 then acc' else decimalAux f (n / 10) acc'
  end.

Definition decimal (n : Z) : list Z := decimalAux (Z.to_nat (Z.log2_up (n + 2))) n [].

(** [Array.prototype.slice] / [TypedArray.prototype.slice] with
    non-negative integer bounds: clamped to the length. *)
Definition jsSlice {A} (l : list A) (s e : Z) : list A :=
  firstn (Z.to_nat e - Z.to_nat s) (skipn (Z.to_nat s) l).

Record ChunkOffsets := mkChunks { INFO : Z; SDTA : Z; PDTA : Z }.

(** [{ offset, size }] of a pdta sub-chunk *)
Record ChunkRef := mkRef { cOffset : Z; cSize : Z }.

(** The [Record<string, ...>] of [parsePDTA]: a later sub-chunk of the same
    id overwrites an earlier one. *)
Fixpoint rec_get (k : list Z) (r : list (list Z * ChunkRef)) : option ChunkRef :=
  match r with
  | [] => None
  | (k', v) :: rest => if codes_eqb k k' then Some v else rec_get k rest
  end.

Fixpoint rec_set (k : list Z) (v : ChunkRef) (r : list (list Z * ChunkRef))
    : list (list Z * ChunkRef) :=
  match r with
  | [] => [(k, v)]
  | (k', v') :: rest => if codes_eqb k k' then (k', v) :: rest else (k', v') :: rec_set k v rest
  end.

(** [SampleHeader & { name }] as read by [parseSampleHeaders]. *)
Record RawHeader := mkRaw {
  hName : list Z; hStart : Z; hEnd : Z; hStartLoop : Z; hEndLoop : Z;
  hSampleRate : Z; hOriginalPitch : Z; hPitchCorrection : Z;
  hSampleLink : Z; hSampleType : Z
}.

Record Bag := mkBag { genIndex : Z; modIndex : Z }.

Inductive GenAmount :=
  | Num (n : Z)
  | Rng (r : Range).

Record Generator := mkGen { genType : Z; amount : GenAmount }.

(** [buildZone]: the defaults, then one case of the switch per generator. *)
Definition defaultZone : Zone :=
  mkZone (mkRange 0 127) (mkRange 0 127) emptyGens None None.

Definition applyGen (z : Zone) (g : Generator) : Zone :=
  let gm := generators z in
  if genType g =? 43 then
    match amount g with
    | Rng r =>
        mkZone r (velRange z)
          (mkGens (Some r) (gen_velRange gm) (gen_sampleID gm) (gen_pan gm)
             (gen_fineTune gm) (gen_releaseVolEnv gm))
          (sampleId z) (instrumentId z)
    | Num _ => z
    end
  else if genType g =? 44 then
    match amount g with
    | Rng r =>
        mkZone (keyRange z) r
          (mkGens (gen_keyRange gm) (Some r) (gen_sampleID gm) (gen_pan gm)
             (gen_fineTune gm) (gen_releaseVolEnv gm))
          (sampleId z) (instrumentId z)
    | Num _ => z
    end
  else if genType g =? 17 then
    match amount g with
    | Num n =>
        mkZone (keyRange z) (velRange z)
          (mkGens (gen_keyRange gm) (gen_velRange gm) (gen_sampleID gm) (Some n)
             (gen_fineTune gm) (gen_releaseVolEnv gm))
          (sampleId z) (instrumentId z)
    | Rng _ => z
    end
  else if genType g =? 52 then
    match amount g with
    | Num n =>
        mkZone (keyRange z) (velRange z)
          (mkGens (gen_keyRange gm) (gen_velRange gm) (gen_sampleID gm) (gen_pan gm)
             (Some n) (gen_releaseVolEnv gm))
          (sampleId z) (instrumentId z)
    | Rng _ => z
    end
  else if genType g =? 38 then
    match amount g with
    | Num n =>
        mkZone (keyRange z) (velRange z)
          (mkGens (gen_keyRange gm) (gen_velRange gm) (gen_sampleID gm) (gen_pan gm)
             (gen_fineTune gm) (Some n))
          (sampleId z) (instrumentId z)
    | Rng _ => z
    end
  else if genType g =? 53 then
    match amount g with
    | Num n =>
        mkZone (keyRange z) (velRange z)
          (mkGens (gen_keyRange gm) (gen_velRange gm) (Some n) (gen_pan gm)
             (gen_fineTune gm) (gen_releaseVolEnv gm))
          (Some n) (instrumentId z)
    | Rng _ => z
    end
  else if genType g =? 41 then
    match amount g with
    | Num n => mkZone (keyRange z) (velRange z) gm (sampleId z) (Some n)
    | Rng _ => z
    end
  else z.

Definition buildZone (gens : list Generator) : Zone := fold_left applyGen gens defaultZone.

(** The INFO sub-chunks holding a string. *)
Inductive InfoField :=
  | FSoundEngine | FBankName | FRomName | FCreationDate | FEngineers
  | FProduct | FCopyright | FComments | FSoftware.

Definition infoStringField (id : list Z) : option InfoField :=
  if codes_eqb id (codes "isng") then Some FSoundEngine
  else if codes_eqb id (codes "INAM") then Some FBankName
  else if codes_eqb id (codes "irom") then Some FRomName
  else if codes_eqb id (codes "ICRD") then Some FCreationDate
  else if codes_eqb id (codes "IENG") then Some FEngineers
  else if codes_eqb id (codes "IPRD") then Some FProduct
  else if codes_eqb id (codes "ICOP") then Some FCopyright
  else if codes_eqb id (codes "ICMT") then Some FComments
  else if codes_eqb id (codes "ISFT") then Some FSoftware
  else None.

Definition setInfoString (f : InfoField) (s : list Z) (i : SF2Info) : SF2Info :=
  let '(mkInfo v se bn rn rv cd en pr cp cm sw) := i in
  match f with
  | FSoundEngine => mkInfo v s bn rn rv cd en pr cp cm sw
  | FBankName => mkInfo v se s rn rv cd en pr cp cm sw
  | FRomName => mkInfo v se bn (Some s) rv cd en pr cp cm sw
  | FCreationDate => mkInfo v se bn rn rv (Some s) en pr cp cm sw
  | FEngineers => mkInfo v se bn rn rv cd (Some s) pr cp cm sw
  | FProduct => mkInfo v se bn rn rv cd en (Some s) cp cm sw
  | FCopyright => mkInfo v se bn rn rv cd en pr (Some s) cm sw
  | FComments => mkInfo v se bn rn rv cd en pr cp (Some s) sw
  | FSoftware => mkInfo v se bn rn rv cd en pr cp cm (Some s)
  end.

Definition setVersion (v : Version) (i : SF2Info) : SF2Info :=
  let '(mkInfo _ se bn rn rv cd en pr cp cm sw) := i in mkInfo v se bn rn rv cd en pr cp cm sw.

Definition setRomVersion (v : Version) (i : SF2Info) : SF2Info :=
  let '(mkInfo ve se bn rn _ cd en pr cp cm sw) := i in mkInfo ve se bn rn (Some v) cd en pr cp cm sw.

Definition initInfo : SF2Info :=
  mkInfo (mkVersion 0 0) [] [] None None None None None None None None.

Definition requiredChunks : list (list Z) :=
  map codes ["phdr"; "pbag"; "pgen"; "inst"; "ibag"; "igen"; "shdr"]%string.

(** The sample loop of [parsePDTA]: the bounds check, and the placeholder
    of a header that fails it. *)
Definition badIndices (h : RawHeader) (n : Z) : bool :=
  (hStart h <? 0) || (hEnd h <? 0) || (n <=? hStart h) || (n <? hEnd h) || (hEnd h <=? hStart h).

(** [header.name || `Sample ${i}`] *)
Definition sampleName (i : Z) (h : RawHeader) : list Z :=
  match hName h with
  | [] => codes "Sample " ++ decimal i
  | nm => nm
  end.

Definition placeholder (i : Z) (h : RawHeader) : Sample :=
  mkSample (sampleName i h) []
    (mkHeader 0 0 0 0
       (if hSampleRate h =? 0 then 44100 else hSampleRate h)
       (if hOriginalPitch h =? 0 then 60 else hOriginalPitch h) 0).

Definition extracted (i : Z) (h : RawHeader) (smplData : list Z) : Sample :=
  mkSample (sampleName i h) (jsSlice smplData (hStart h) (hEnd h))
    (mkHeader (hStart h) (hEnd h) (hStartLoop h) (hEndLoop h) (hSampleRate h)
       (hOriginalPitch h) (hPitchCorrection h)).

Fixpoint fillSamples (smplData : list Z) (hs : list RawHeader) (i : Z) : M (list Sample) :=
  match hs with
  | [] => ret []
  | h :: rest =>
      let n := Z.of_nat (length smplData) in
      s <- (if badIndices h n
            then _ <- warn (mkWarning i (hName h) (hStart h) (hEnd h) n) ;; ret (placeholder i h)
            else ret (extracted i h smplData)) ;;
      ss <- fillSamples smplData rest (i + 1) ;;
      ret (s :: ss)
  end.

(** The reads of the parser over the bytes [bs] of the buffer (a DataView
    at byte offset 0 over the whole ArrayBuffer). *)
Section View.
Variable bs : list Z.

Definition byteLength : Z := Z.of_nat (length bs).
(** A byte of the buffer (an entry outside 0..255 is read modulo 256). *)
Definition byteAt (i : Z) : Z := nth (Z.to_nat i) bs 0 mod 256.

Definition checkView (off n : Z) : M unit :=
  if (off <? 0) || (byteLength <? off + n)
  then raise (RangeError "Offset is outside the bounds of the DataView")
  else ret tt.

Definition getUint8 (off : Z) : M Z := _ <- checkView off 1 ;; ret (byteAt off).
Definition getInt8 (off : Z) : M Z :=
  _ <- checkView off 1 ;;
  let u := byteAt off in ret (if 128 <=? u then u - 256 else u).
Definition getUint16 (off : Z) : M Z :=
  _ <- checkView off 2 ;; ret (byteAt off + 256 * byteAt (off + 1)).
Definition getUint32 (off : Z) : M Z :=
  _ <- checkView off 4 ;;
  ret (byteAt off + 256 * byteAt (off + 1) + 65536 * byteAt (off + 2)
       + 16777216 * byteAt (off + 3)).

Definition readFourCC (off : Z) : M (list Z) :=
  a <- getUint8 off ;; b <- getUint8 (off + 1) ;; c <- getUint8 (off + 2) ;;
  d <- getUint8 (off + 3) ;; ret [a; b; c; d].

Fixpoint readStringLoop (n : nat) (off : Z) : M (list Z) :=
  match n with
  | O => ret []
  | S n' =>
      c <- getUint8 off ;;
      if c =? 0 then ret [] else rest <- readStringLoop n' (off + 1) ;; ret (c :: rest)
  end.

Definition readString (off maxLength : Z) : M (list Z) := readStringLoop (Z.to_nat maxLength) off.

(** [new Int16Array(buffer, byteOffset, length)] with [length] already
    truncated to an integer (ToIndex); little-endian platform. *)
Definition int16At (o k : Z) : Z :=
  let u := byteAt (o + 2 * k) + 256 * byteAt (o + 2 * k + 1) in
  if 32768 <=? u then u - 65536 else u.

Definition newInt16Array (byteOffset len : Z) : M (list Z) :=
  if negb (byteOffset mod 2 =? 0)
  then raise (RangeError "start offset of Int16Array should be a multiple of 2")
  else if byteLength <? byteOffset + 2 * len
  then raise (RangeError "Invalid typed array length")
  else ret (map (fun k => int16At byteOffset (Z.of_nat k)) (seq 0 (Z.to_nat len))).

(** The chunk walks of [findChunks], [parseINFO] and [parsePDTA]:
    [while (cur < limit) { id = readFourCC(cur); size = getUint32(cur + 4);
    ...; cur += 8 + size }]. A round that reads the size has
    [cur + 8 <= byteLength] and moves [cur] forward by at least 8, so
    [S (length bs)] rounds are never all used. *)
Fixpoint walkChunks {A} (fuel : nat) (limit : Z) (body : Z -> list Z -> Z -> A -> M A)
    (cur : Z) (acc : A) : M A :=
  match fuel with
  | O => ret acc
  | S f =>
      if cur <? limit then
        id <- readFourCC cur ;;
        size <- getUint32 (cur + 4) ;;
        acc' <- body cur id size acc ;;
        walkChunks f limit body (cur + 8 + size) acc'
      else ret acc
  end.

Definition validateRIFF : M unit :=
  riff <- readFourCC 0 ;;
  if negb (codes_eqb riff (codes "RIFF"))
  then raise (Error ("Invalid RIFF header: expected 'RIFF', got '" ++ string_of_codes riff ++ "'")%string)
  else
    fileSize <- getUint32 4 ;;
    sfbk <- readFourCC 8 ;;
    if negb (codes_eqb sfbk (codes "sfbk"))
    then raise (Error ("Invalid sfbk chunk: expected 'sfbk', got '" ++ string_of_codes sfbk ++ "'")%string)
    else ret tt.

Definition findChunksBody (cur : Z) (listID : list Z) (listSize : Z) (ch : ChunkOffsets)
    : M ChunkOffsets :=
  listType <- readFourCC (cur + 8) ;;
  ret (if codes_eqb listID (codes "LIST") then
         if codes_eqb listType (codes "INFO") then mkChunks cur (SDTA ch) (PDTA ch)
         else if codes_eqb listType (codes "sdta") then mkChunks (INFO ch) cur (PDTA ch)
         else if codes_eqb listType (codes "pdta") then mkChunks (INFO ch) (SDTA ch) cur
         else ch
       else ch).

Definition findChunks : M ChunkOffsets :=
  ch <- walkChunks (S (length bs)) (byteLength - 8) findChunksBody 12 (mkChunks (-1) (-1) (-1)) ;;
  if INFO ch =? -1 then raise (Error "INFO chunk not found")
  else if SDTA ch =? -1 then raise (Error "SDTA chunk not found")
  else if PDTA ch =? -1 then raise (Error "PDTA chunk not found")
  else ret ch.

Definition infoBody (cur : Z) (chunkID : list Z) (chunkSize : Z) (info : SF2Info) : M SF2Info :=
  let c := cur + 8 in
  if codes_eqb chunkID (codes "ifil") then
    major <- getUint16 c ;; minor <- getUint16 (c + 2) ;; ret (setVersion (mkVersion major minor) info)
  else if codes_eqb chunkID (codes "iver") then
    major <- getUint16 c ;; minor <- getUint16 (c + 2) ;; ret (setRomVersion (mkVersion major minor) info)
  else
    match infoStringField chunkID with
    | Some f => s <- readString c chunkSize ;; ret (setInfoString f s info)
    | None => ret info
    end.

Definition parseINFO (offset : Z) : M SF2Info :=
  listSize <- getUint32 (offset + 4) ;;
  let endOffset := offset + 8 + listSize in
  walkChunks (S (length bs)) (endOffset - 8) infoBody (offset + 12) initInfo.

Definition parseSDTA (offset : Z) : M (list Sample) :=
  listSize <- getUint32 (offset + 4) ;;
  let cur := offset + 12 in
  smplID <- readFourCC cur ;;
  if negb (codes_eqb smplID (codes "smpl"))
  then raise (Error ("Expected 'smpl' chunk, got '" ++ string_of_codes smplID ++ "'")%string)
  else
    smplSize <- getUint32 (cur + 4) ;;
    sampleData <- newInt16Array (cur + 8) (smplSize / 2) ;;
    ret [].

(** The sub-chunk walk of [parsePDTA]. *)
Definition walkPDTA (offset : Z) : M (list (list Z * ChunkRef)) :=
  listSize <- getUint32 (offset + 4) ;;
  let endOffset := offset + 8 + listSize in
  walkChunks (S (length bs)) (endOffset - 8)
    (fun cur chunkID chunkSize chunks => ret (rec_set chunkID (mkRef (cur + 8) chunkSize) chunks))
    (offset + 12) [].

Fixpoint checkRequired (req : list (list Z)) (chunks : list (list Z * ChunkRef)) : M unit :=
  match req with
  | [] => ret tt
  | c :: rest =>
      match rec_get c chunks with
      | None => raise (Error ("Required PDTA chunk '" ++ string_of_codes c ++ "' not found")%string)
      | Some _ => checkRequired rest chunks
      end
  end.

(** [parseSampleHeaders]: [i < size / 46 - 1], i.e. [46 * (i + 1) < size]. *)
Definition parseSampleHeaders (chunk : ChunkRef) : M (list RawHeader) :=
  forRange (Z.to_nat ((cSize chunk - 1) / 46)) 0 (fun i =>
    let offset := cOffset chunk + i * 46 in
    nm <- readString offset 20 ;;
    st <- getUint32 (offset + 20) ;;
    en <- getUint32 (offset + 24) ;;
    sl <- getUint32 (offset + 28) ;;
    el <- getUint32 (offset + 32) ;;
    sr <- getUint32 (offset + 36) ;;
    op <- getUint8 (offset + 40) ;;
    pc <- getInt8 (offset + 41) ;;
    lk <- getUint16 (offset + 42) ;;
    ty <- getUint16 (offset + 44) ;;
    ret (mkRaw nm st en sl el sr op pc lk ty)).

(** [parseBags]: [i < size / 4], i.e. [i < ceil(size / 4)]. *)
Definition parseBags (chunk : ChunkRef) : M (list Bag) :=
  forRange (Z.to_nat ((cSize chunk + 3) / 4)) 0 (fun i =>
    let offset := cOffset chunk + i * 4 in
    g <- getUint16 offset ;; m <- getUint16 (offset + 2) ;; ret (mkBag g m)).

Definition parseGenerators (chunk : ChunkRef) : M (list Generator) :=
  forRange (Z.to_nat ((cSize chunk + 3) / 4)) 0 (fun i =>
    let offset := cOffset chunk + i * 4 in
    type <- getUint16 offset ;;
    rawAmount <- getUint16 (offset + 2) ;;
    if (type =? 43) || (type =? 44)
    then ret (mkGen type (Rng (mkRange (Z.land rawAmount 255)
                                       (Z.land (Z.shiftr rawAmount 8) 255))))
    else ret (mkGen type (Num (if 32767 <? rawAmount then rawAmount - 65536 else rawAmount)))).

(** The loop over the bags [bagIndex .. nextBagIndex - 1] of an instrument
    or preset: [bags[b]] past the end is [undefined], whose [genIndex]
    throws. *)
Definition zonesOfBags (bags : list Bag) (gens : list Generator) (bagIndex nextBagIndex : Z)
    : M (list Zone) :=
  forRange (Z.to_nat (nextBagIndex - bagIndex)) bagIndex (fun b =>
    match nth_error bags (Z.to_nat b) with
    | None => raise (TypeError "Cannot read properties of undefined (reading 'genIndex')")
    | Some bag =>
        let nextGenIndex :=
          if b <? Z.of_nat (length bags) - 1
          then match nth_error bags (Z.to_nat (b + 1)) with
               | Some nb => genIndex nb
               | None => 0
               end
          else Z.of_nat (length gens) in
        ret (buildZone (jsSlice gens (genIndex bag) nextGenIndex))
    end).

(** [parseInstruments]: [i < size / 22 - 1]; the next bag index is read
    from the next record when [i < size / 22 - 2]. *)
Definition parseInstruments (inst ibag igen : ChunkRef) : M (list Instrument) :=
  bags <- parseBags ibag ;;
  gens <- parseGenerators igen ;;
  forRange (Z.to_nat ((cSize inst - 1) / 22)) 0 (fun i =>
    let offset := cOffset inst + i * 22 in
    nm <- readString offset 20 ;;
    bagIndex <- getUint16 (offset + 20) ;;
    nextBagIndex <- (if 22 * (i + 2) <? cSize inst
                     then getUint16 (cOffset inst + (i + 1) * 22 + 20)
                     else ret (Z.of_nat (length bags))) ;;
    zones <- zonesOfBags bags gens bagIndex nextBagIndex ;;
    ret (mkInstrument nm zones)).

(** A preset zone naming an instrument is replaced by that instrument's
    zones ([instruments[id]] undefined: nothing). *)
Definition expandZone (instruments : list Instrument) (z : Zone) : list Zone :=
  match instrumentId z with
  | Some id =>
      match (if id <? 0 then None else nth_error instruments (Z.to_nat id)) with
      | Some ins => instrumentZones ins
      | None => []
      end
  | None => [z]
  end.

Definition parsePresets (phdr pbag pgen : ChunkRef) (instruments : list Instrument)
    : M (list Preset) :=
  bags <- parseBags pbag ;;
  gens <- parseGenerators pgen ;;
  forRange (Z.to_nat ((cSize phdr - 1) / 38)) 0 (fun i =>
    let offset := cOffset phdr + i * 38 in
    nm <- readString offset 20 ;;
    pr <- getUint16 (offset + 20) ;;
    bk <- getUint16 (offset + 22) ;;
    bagIndex <- getUint16 (offset + 24) ;;
    lib <- getUint32 (offset + 26) ;;
    gen <- getUint32 (offset + 30) ;;
    mor <- getUint32 (offset + 34) ;;
    nextBagIndex <- (if 38 * (i + 2) <? cSize phdr
                     then getUint16 (cOffset phdr + (i + 1) * 38 + 24)
                     else ret (Z.of_nat (length bags))) ;;
    zones <- zonesOfBags bags gens bagIndex nextBagIndex ;;
    ret (mkPreset nm pr bk lib gen mor (concat (map (expandZone instruments) zones)))).

Definition chunkOf (c : string) (chunks : list (list Z * ChunkRef)) : ChunkRef :=
  match rec_get (codes c) chunks with
  | Some r => r
  | None => mkRef 0 0          (* after [checkRequired]: not reached *)
  end.

(** [parsePDTA offset samples]: the samples it pushes onto the [samples]
    array of [parse] are returned appended to it. *)
Definition parsePDTA (offset : Z) (samples : list Sample)
    : M (list Sample * list Preset * list Instrument) :=
  chunks <- walkPDTA offset ;;
  _ <- checkRequired requiredChunks chunks ;;
  sampleHeaders <- parseSampleHeaders (chunkOf "shdr" chunks) ;;
  ch <- findChunks ;;
  let sdtaOffset := SDTA ch in
  let smplDataOffset := sdtaOffset + 20 in
  smplSize <- getUint32 (sdtaOffset + 16) ;;
  let bufferEnd := smplDataOffset + smplSize in
  if byteLength <? bufferEnd
  then raise (Error "Invalid SDTA chunk size: exceeds buffer bounds")
  else
    smplData <- newInt16Array smplDataOffset (smplSize / 2) ;;
    pushed <- fillSamples smplData sampleHeaders 0 ;;
    instruments <- parseInstruments (chunkOf "inst" chunks) (chunkOf "ibag" chunks)
                     (chunkOf "igen" chunks) ;;
    presets <- parsePresets (chunkOf "phdr" chunks) (chunkOf "pbag" chunks)
                 (chunkOf "pgen" chunks) instruments ;;
    ret (samples ++ pushed, presets, instruments).

Definition parseBody : M SF2Data :=
  _ <- validateRIFF ;;
  ch <- findChunks ;;
  info <- parseINFO (INFO ch) ;;
  samples <- parseSDTA (SDTA ch) ;;
  r <- parsePDTA (PDTA ch) samples ;;
  let '(samples', presets, instruments) := r in
  ret (mkSF2 info samples' presets instruments).

End View.

(** [validate]: false for a bank without samples, or with a sample without
    data or with a non-positive sample rate (the first such one stops the
    loop). *)
Definition validate (sf2Data : SF2Data) : bool :=
  match samples sf2Data with
  | [] => false
  | ss => forallb (fun s => negb (Nat.eqb (length (data s)) 0) && (0 <? sampleRate (header s))) ss
  end.

(** [parse]: every error is rethrown as [Error("SF2 Parse Error: " + message)];
    the warnings printed stay printed. *)
Definition parse (bs : list Z) : Result SF2Data * list Warning :=
  match parseBody bs [] with
  | (Throw e, w) => (Throw (Error ("SF2 Parse Error: " ++ message e)%string), w)
  | r => r
  end.

End SF2Parser.

(* ------------------------------------------------------------------ *)
(** ** Small concrete banks used to exercise the model *)

Definition emptyInfo : SF2Info :=
  mkInfo (mkVersion 0 0) [] [] None None None None None None None None.

Definition demoSample (pitch : Z) : Sample :=
  mkSample [] [1; -2; 3; -4] (mkHeader 0 4 0 4 44100 pitch 0).

(** A stereo zone over the whole keyboard: pan -500 (left) or 500 (right). *)
Definition demoZone (pan sid : Z) : Zone :=
  mkZone (mkRange 0 127) (mkRange 0 127)
    (mkGens None None (Some sid) (Some pan) None None) (Some sid) None.

Definition demoBank : SF2Data :=
  mkSF2 emptyInfo [demoSample 60; demoSample 62; demoSample 64]
    [mkPreset [] 0 0 0 0 0 [demoZone (-500) 0; demoZone 500 1]] [].

(** An engine on the demo bank, with the given polyphony limit. *)
Definition demoEngine (maxPoly : Z) : SoundEngine.Engine :=
  SoundEngine.init (SampleManager.init demoBank None) demoBank (Some maxPoly).

(** A clock at time [t] where every gain currently reads 1/2. *)
Definition clockAt (t : Q) : SoundEngine.Clock := SoundEngine.mkClock t (fun _ => 1 # 2)%Q 0.

(** Byte-level banks for the parser: little-endian fields, RIFF chunks. *)
Definition le16 (n : Z) : list Z := [n mod 256; (n / 256) mod 256].
Definition le32 (n : Z) : list Z :=
  [n mod 256; (n / 256) mod 256; (n / 65536) mod 256; (n / 16777216) mod 256].

Definition subChunk (id : string) (payload : list Z) : list Z :=
  SF2Parser.codes id ++ le32 (Z.of_nat (length payload)) ++ payload.
Definition listChunk (type : string) (body : list Z) : list Z :=
  SF2Parser.codes "LIST" ++ le32 (4 + Z.of_nat (length body)) ++ SF2Parser.codes type ++ body.
Definition riffFile (body : list Z) : list Z :=
  SF2Parser.codes "RIFF" ++ le32 (4 + Z.of_nat (length body)) ++ SF2Parser.codes "sfbk" ++ body.

Definition name20 (s : string) : list Z :=
  SF2Parser.codes s ++ repeat 0 (20 - String.length s).

Definition shdrRecord (nm : string) (st en sl el sr pitch : Z) : list Z :=
  name20 nm ++ le32 st ++ le32 en ++ le32 sl ++ le32 el ++ le32 sr ++ [pitch; 0]
  ++ le16 0 ++ le16 1.
Definition phdrRecord (nm : string) (bagIndex : Z) : list Z :=
  name20 nm ++ le16 0 ++ le16 0 ++ le16 bagIndex ++ le32 0 ++ le32 0 ++ le32 0.
Definition instRecord (nm : string) (bagIndex : Z) : list Z := name20 nm ++ le16 bagIndex.
Definition bagRecord (g : Z) : list Z := le16 g ++ le16 0.
Definition genRecord (type amt : Z) : list Z := le16 type ++ le16 (amt mod 65536).

(** Eight PCM frames. *)
Definition pcmBytes : list Z := flat_map le16 [0; 100; 200; 300; 400; 300; 200; 100].

(** Three sample headers over the 8-frame block: one whole, one from frame 4
    (its loop points 5 and 7 are block offsets), one ending past the block;
    then the terminal record. *)
Definition shdrBytes : list Z :=
  shdrRecord "whole" 0 8 2 6 44100 60 ++ shdrRecord "tail" 4 8 5 7 44100 62 ++
  shdrRecord "broken" 6 100 10 20 0 0 ++ shdrRecord "EOS" 0 0 0 0 0 0.

(** One preset whose zone names instrument 0; the instrument's zone has a
    sample and a pan, and no key or velocity range. *)
Definition pdtaBody (withShdr : bool) : list Z :=
  subChunk "phdr" (phdrRecord "Piano" 0 ++ phdrRecord "EOP" 1) ++
  subChunk "pbag" (bagRecord 0 ++ bagRecord 1) ++
  subChunk "pgen" (genRecord 41 0 ++ genRecord 0 0) ++
  subChunk "inst" (instRecord "Grand" 0 ++ instRecord "EOI" 1) ++
  subChunk "ibag" (bagRecord 0 ++ bagRecord 2) ++
  subChunk "igen" (genRecord 17 (-500) ++ genRecord 53 0 ++ genRecord 0 0) ++
  (if withShdr then subChunk "shdr" shdrBytes else []).

Definition sf2Bytes (withShdr : bool) : list Z :=
  riffFile (listChunk "INFO" (subChunk "ifil" (le16 2 ++ le16 1)) ++
            listChunk "sdta" (subChunk "smpl" pcmBytes) ++
            listChunk "pdta" (pdtaBody withShdr)).

(** Every voice registered under [note] has [isReleasing] set (true when
    the note has no entry). *)
Definition voicesReleased (note : Z) (m : list (Z * list SoundEngine.Voice)) : bool :=
  match SampleManager.map_get note m with
  | Some vs => forallb SoundEngine.isReleasing vs
  | None => true
  end.

(** [getStats().sustainedNotes] *)
Definition sustainedCount (st : SoundEngine.Engine) : Z :=
  snd (fst (fst (SoundEngine.getStats st))).

(* ================================================================== *)
(** * Theorems *)

Section PitchTheorems.
Local Open Scope R_scope.
Import PitchCalculator.

Lemma totalCents_IZR (note op pc ft : Z) :
  (IZR note - IZR op) * 100 + IZR pc + IZR ft
  = IZR ((note - op) * 100 + pc + ft)%Z.
Proof. rewrite !plus_IZR, mult_IZR, minus_IZR. reflexivity. Qed.

(** C1: for every note, sample and zone, with a positive output rate, the
    playback rate is [2^(totalCents/1200) * (sampleRate / outputRate)] where
    [totalCents = (note - originalPitch)*100 + pitchCorrection + fineTune]
    (unset fineTune counting as 0); at the sample's own pitch, with no
    correction or fine tune and equal rates, it is exactly 1. *)
Theorem calculatePlaybackRate_formula (outputRate : R) (note : Z)
    (sample : Sample) (zone : Zone) :
  0 < outputRate ->
  calculatePlaybackRate outputRate note sample zone
    = spec_rate outputRate note sample zone
  /\ (note = originalPitch (header sample) ->
      pitchCorrection (header sample) = 0%Z ->
      (gen_fineTune (generators zone) = None \/ gen_fineTune (generators zone) = Some 0%Z) ->
      IZR (sampleRate (header sample)) = outputRate ->
      calculatePlaybackRate outputRate note sample zone = 1).
Proof.
  intros Hpos.
  assert (Heq : calculatePlaybackRate outputRate note sample zone
                = spec_rate outputRate note sample zone).
  { unfold calculatePlaybackRate, spec_rate, adjustForSampleRate.
    destruct (gen_fineTune (generators zone)) as [f|].
    - rewrite totalCents_IZR.
      destruct (Req_EM_T _ _) as [E|E]; [|reflexivity].
      rewrite E. unfold Rdiv. rewrite Rinv_r by lra. ring.
    - replace 0 with (IZR 0) by reflexivity. rewrite totalCents_IZR.
      destruct (Req_EM_T _ _) as [E|E]; [|reflexivity].
      rewrite E. unfold Rdiv. rewrite Rinv_r by lra. ring. }
  split; [exact Heq|].
  intros Hn Hpc Hft Hsr. rewrite Heq. unfold spec_rate.
  rewrite Hn, Hpc, Hsr, Z.sub_diag.
  assert (Hf : match gen_fineTune (generators zone) with Some f => f | None => 0%Z end = 0%Z)
    by (destruct Hft as [-> | ->]; reflexivity).
  rewrite Hf. simpl (IZR _). unfold Rdiv.
  rewrite Rinv_r by lra. rewrite Rmult_0_l, Rpower_O by lra. ring.
Qed.

Lemma calculatePlaybackRate_formula_witness :
  0 < 44100 /\
  (calculatePlaybackRate 44100 60
     (mkSample [] [] (mkHeader 0 10 0 10 44100 60 0))
     (mkZone (mkRange 0 127) (mkRange 0 127) emptyGens None None)
   = spec_rate 44100 60
     (mkSample [] [] (mkHeader 0 10 0 10 44100 60 0))
     (mkZone (mkRange 0 127) (mkRange 0 127) emptyGens None None)).
Proof.
  split; [lra|].
  apply (proj1 (calculatePlaybackRate_formula 44100 60
     (mkSample [] [] (mkHeader 0 10 0 10 44100 60 0))
     (mkZone (mkRange 0 127) (mkRange 0 127) emptyGens None None) ltac:(lra))).
Defined.

End PitchTheorems.

Section EnvelopeTheorems.
Local Open Scope R_scope.
Import EnvelopeCalculator.

Lemma Rpower2_pos (x : R) : 0 < Rpower 2 x.
Proof. unfold Rpower. apply exp_pos. Qed.

Lemma Rpower2_below_hundredth : Rpower 2 (-100000 / 1200) < 0.01.
Proof.
  apply Rlt_trans with (Rpower 2 (- INR 7)).
  - apply Rpower_lt; [lra|]. simpl INR. lra.
  - rewrite Rpower_Ropp, Rpower_pow by lra. simpl. lra.
Qed.

(** C5: for every timecents value the release time is [2^(tc/1200)] seconds
    clamped to [[0.01, 10]]; unset gives 0.2 s; in particular 0 gives 1,
    1200 gives 2, unset gives 0.2 and -100000 gives 0.01. *)
Theorem calculateReleaseTime_spec :
  (forall tc : R,
     calculateReleaseTime (Some tc) = Rmin 10 (Rmax 0.01 (Rpower 2 (tc / 1200))))
  /\ calculateReleaseTime None = 0.2
  /\ calculateReleaseTime (Some 0) = 1
  /\ calculateReleaseTime (Some 1200) = 2
  /\ calculateReleaseTime (Some (-100000)) = 0.01.
Proof.
  assert (Hclamp : forall tc : R,
     calculateReleaseTime (Some tc) = Rmin 10 (Rmax 0.01 (Rpower 2 (tc / 1200)))).
  { intros tc. unfold calculateReleaseTime, timecentsToSeconds.
    destruct (Rlt_dec _ 0.01) as [H1|H1].
    - rewrite Rmax_left by lra. rewrite Rmin_right by lra. reflexivity.
    - destruct (Rlt_dec 10 _) as [H2|H2].
      + rewrite Rmax_right by lra. rewrite Rmin_left by lra. reflexivity.
      + rewrite Rmax_right by lra. rewrite Rmin_right by lra. reflexivity. }
  split; [exact Hclamp|]. split; [reflexivity|].
  split; [|split].
  - rewrite Hclamp. unfold Rdiv. rewrite Rmult_0_l, Rpower_O by lra.
    rewrite Rmax_right by lra. rewrite Rmin_right by lra. reflexivity.
  - rewrite Hclamp. replace (1200 / 1200) with 1 by field.
    rewrite Rpower_1 by lra.
    rewrite Rmax_right by lra. rewrite Rmin_right by lra. reflexivity.
  - rewrite Hclamp. pose proof Rpower2_below_hundredth.
    rewrite Rmax_left by lra. rewrite Rmin_right by lra. reflexivity.
Qed.

End EnvelopeTheorems.

Module CacheTheorems.
Import SampleManager.
Local Open Scope Z_scope.

Lemma findOldest_some (c : list (Z * CacheEntry)) (p : Z * Z) :
  findOldest c (Some p) <> None.
Proof.
  revert p. induction c as [|[k e] r IH]; intros [i t]; simpl; [discriminate|].
  destruct (lastAccessed e <? t); apply IH.
Qed.

Lemma findOldest_nonempty (c : list (Z * CacheEntry)) :
  c <> [] -> findOldest c None <> None.
Proof.
  destruct c as [|[k e] r]; [congruence|]. intros _. simpl. apply findOldest_some.
Qed.

Lemma findOldest_min (c : list (Z * CacheEntry)) (o : option (Z * Z)) (id t : Z) :
  findOldest c o = Some (id, t) ->
  (forall k e, In (k, e) c -> t <= lastAccessed e) /\
  (forall i0 t0, o = Some (i0, t0) -> t <= t0).
Proof.
  revert o. induction c as [|[k e] r IH]; intros o H; simpl in H.
  - subst o. split; [intros ? ? []|]. intros i0 t0 E. inversion E; lia.
  - destruct o as [[i0 t0]|].
    + destruct (lastAccessed e <? t0) eqn:Hlt.
      * apply IH in H as [H1 H2]. apply Z.ltb_lt in Hlt.
        specialize (H2 _ _ eq_refl).
        split.
        -- intros k' e' [E|Hin]; [inversion E; subst; lia|]. now apply H1 in Hin.
        -- intros i1 t1 E. inversion E; subst. lia.
      * apply IH in H as [H1 H2]. apply Z.ltb_ge in Hlt.
        specialize (H2 _ _ eq_refl).
        split.
        -- intros k' e' [E|Hin]; [inversion E; subst; lia|]. now apply H1 in Hin.
        -- intros i1 t1 E. inversion E; subst. lia.
    + apply IH in H as [H1 H2]. specialize (H2 _ _ eq_refl).
      split; [|discriminate].
      intros k' e' [E|Hin]; [inversion E; subst; lia|]. now apply H1 in Hin.
Qed.

Lemma findOldest_in (c : list (Z * CacheEntry)) (o : option (Z * Z)) (id t : Z) :
  findOldest c o = Some (id, t) ->
  o = Some (id, t) \/ exists e, In (id, e) c /\ lastAccessed e = t.
Proof.
  revert o. induction c as [|[k e] r IH]; intros o H; simpl in H; [now left|].
  set (o' := match o with
             | Some (_, oldestTime) =>
                 if lastAccessed e <? oldestTime then Some (k, lastAccessed e) else o
             | None => Some (k, lastAccessed e) end) in H.
  apply IH in H as [H|[e' [Hin He]]].
  - subst o'. destruct o as [[i0 t0]|].
    + destruct (lastAccessed e <? t0).
      * inversion H; subst. right. exists e. split; [now left|reflexivity].
      * now left.
    + inversion H; subst. right. exists e. split; [now left|reflexivity].
  - right. exists e'. split; [now right|exact He].
Qed.

Lemma map_get_in {V} (k : Z) (v : V) (m : list (Z * V)) :
  NoDup (map fst m) -> In (k, v) m -> map_get k m = Some v.
Proof.
  induction m as [|[k' v'] r IH]; simpl; intros Hnd Hin; [contradiction|].
  inversion Hnd as [|? ? Hnotin Hnd']; subst.
  destruct Hin as [E|Hin].
  - inversion E; subst. now rewrite Z.eqb_refl.
  - destruct (Z.eqb_spec k k'); [|now apply IH].
    subst. exfalso. apply Hnotin. apply (in_map fst) in Hin. exact Hin.
Qed.

Lemma map_get_some_in {V} (k : Z) (v : V) (m : list (Z * V)) :
  map_get k m = Some v -> In k (map fst m).
Proof.
  induction m as [|[k' v'] r IH]; simpl; [discriminate|].
  destruct (Z.eqb_spec k k'); [subst; now left|]. intros H; right; auto.
Qed.

Lemma map_get_none {V} (k : Z) (m : list (Z * V)) :
  map_get k m = None -> ~ In k (map fst m).
Proof.
  induction m as [|[k' v'] r IH]; simpl; [auto|].
  destruct (Z.eqb_spec k k'); [discriminate|]. intros H [E|Hin]; [congruence|].
  now apply IH.
Qed.

Lemma map_delete_keys {V} (k : Z) (m : list (Z * V)) :
  map fst (map_delete k m) = filter (fun x => negb (Z.eqb k x)) (map fst m).
Proof.
  unfold map_delete. induction m as [|[k' v'] r IH]; simpl; [reflexivity|].
  destruct (negb (k =? k')); simpl; now rewrite IH.
Qed.

Lemma filter_NoDup {A} (f : A -> bool) (l : list A) : NoDup l -> NoDup (filter f l).
Proof.
  induction l as [|a r IH]; simpl; intros H; [constructor|].
  inversion H; subst. destruct (f a); [|auto].
  constructor; [|auto]. rewrite filter_In. tauto.
Qed.

Lemma filter_neq_length (k : Z) (l : list Z) :
  NoDup l -> In k l -> length (filter (fun x => negb (Z.eqb k x)) l) = pred (length l).
Proof.
  induction l as [|a r IH]; simpl; intros Hnd Hin; [contradiction|].
  inversion Hnd as [|? ? Hnotin Hnd']; subst.
  destruct (Z.eqb_spec k a) as [E|E]; simpl.
  - subst. assert (Hall : forall x, In x r -> negb (a =? x) = true).
    { intros x Hx. destruct (Z.eqb_spec a x); [subst; contradiction|reflexivity]. }
    clear - Hall. induction r as [|b r IH]; simpl; [reflexivity|].
    rewrite Hall by (now left). simpl. f_equal. apply IH. intros; apply Hall; now right.
  - destruct Hin as [Hin|Hin]; [congruence|].
    rewrite IH by assumption. destruct r; [contradiction|reflexivity].
Qed.

Lemma map_set_keys {V} (k : Z) (v : V) (m : list (Z * V)) :
  (In k (map fst m) /\ map fst (map_set k v m) = map fst m) \/
  (~ In k (map fst m) /\ map fst (map_set k v m) = map fst m ++ [k]).
Proof.
  induction m as [|[k' v'] r IH]; simpl.
  - right. split; [auto|reflexivity].
  - destruct (Z.eqb_spec k k').
    + left. subst. split; [now left|reflexivity].
    + destruct IH as [[H1 H2]|[H1 H2]].
      * left. split; [now right|simpl; now rewrite H2].
      * right. split; [intros [E|E]; [congruence|contradiction]|simpl; now rewrite H2].
Qed.

Lemma map_set_inv {V} (k : Z) (v : V) (m : list (Z * V)) :
  NoDup (map fst m) ->
  NoDup (map fst (map_set k v m)) /\ (length (map_set k v m) <= S (length m))%nat
  /\ (In k (map fst m) -> length (map_set k v m) = length m).
Proof.
  intros Hnd.
  assert (L1 : length (map_set k v m) = length (map fst (map_set k v m)))
    by (now rewrite length_map).
  assert (L2 : length m = length (map fst m)) by (now rewrite length_map).
  destruct (map_set_keys k v m) as [[H1 H2]|[H1 H2]].
  - rewrite L1, L2, H2. split; [exact Hnd|]. split; [lia|auto].
  - rewrite L1, L2, H2, length_app. simpl. split; [|split; [lia|tauto]].
    apply NoDup_app; auto.
    + constructor; [auto|constructor].
    + intros x Hx [E|[]]. subst. contradiction.
Qed.

(** One round of [evictLRU] on a non-empty cache with distinct keys removes
    exactly the entry found by the scan, which has the oldest [lastAccessed]. *)
Lemma evictLRU_spec (st : State) :
  NoDup (keys (cache st)) -> cache st <> [] ->
  exists id e,
    In (id, e) (cache st) /\
    (forall k e', In (k, e') (cache st) -> lastAccessed e <= lastAccessed e') /\
    cache (evictLRU st) = map_delete id (cache st) /\
    length (cache (evictLRU st)) = pred (length (cache st)) /\
    NoDup (keys (cache (evictLRU st))).
Proof.
  intros Hnd Hne. unfold evictLRU.
  destruct (findOldest (cache st) None) as [[id t]|] eqn:Hf;
    [|exfalso; now apply (findOldest_nonempty (cache st))].
  pose proof (findOldest_min _ _ _ _ Hf) as [Hmin _].
  destruct (findOldest_in _ _ _ _ Hf) as [E|[e [Hin He]]]; [discriminate|].
  rewrite (map_get_in id e (cache st) Hnd Hin).
  exists id, e. subst t. split; [exact Hin|]. split; [exact Hmin|].
  simpl. split; [reflexivity|].
  split.
  - rewrite <- (length_map fst (map_delete id (cache st))), map_delete_keys.
    rewrite filter_neq_length; [now rewrite length_map|exact Hnd|].
    apply (in_map fst) in Hin. exact Hin.
  - unfold keys. rewrite map_delete_keys. now apply filter_NoDup.
Qed.

Lemma evictLRU_keys (st : State) :
  NoDup (keys (cache st)) ->
  NoDup (keys (cache (evictLRU st))) /\
  (length (cache (evictLRU st)) <= length (cache st))%nat /\
  maxCacheSize (evictLRU st) = maxCacheSize st.
Proof.
  intros Hnd.
  assert (Hmax : maxCacheSize (evictLRU st) = maxCacheSize st).
  { unfold evictLRU. destruct (findOldest _ _) as [[? ?]|]; [|reflexivity].
    destruct (map_get _ _); reflexivity. }
  destruct (cache st) as [|p l] eqn:Ec.
  - unfold evictLRU. rewrite Ec. simpl. rewrite Ec. auto.
  - rewrite <- Ec in Hnd.
    destruct (evictLRU_spec st) as (id & e & _ & _ & _ & Hlen & Hnd');
      [exact Hnd|congruence|].
    rewrite Hlen, Ec. simpl. split; [exact Hnd'|]. split; [lia|exact Hmax].
Qed.

(** The eviction loop of [addToCache] stops with room for one more entry:
    eviction happens before insertion. *)
Lemma evictLoop_below (fuel : nat) (st : State) :
  1 <= maxCacheSize st -> NoDup (keys (cache st)) ->
  Z.of_nat (length (cache st)) < Z.of_nat fuel + maxCacheSize st ->
  Z.of_nat (length (cache (evictLoop fuel st))) < maxCacheSize st /\
  NoDup (keys (cache (evictLoop fuel st))) /\
  maxCacheSize (evictLoop fuel st) = maxCacheSize st.
Proof.
  revert st. induction fuel as [|f IH]; intros st Hm Hnd Hlt; simpl.
  - split; [lia|auto].
  - destruct (Z.of_nat (length (cache st)) >=? maxCacheSize st) eqn:Hge.
    + apply Z.geb_le in Hge.
      assert (Hne : cache st <> []) by (intros E; rewrite E in Hge; simpl in Hge; lia).
      destruct (evictLRU_spec st Hnd Hne) as (id & e & _ & _ & _ & Hlen & Hnd').
      destruct (evictLRU_keys st Hnd) as (_ & _ & Hmax).
      rewrite <- Hmax. apply IH; rewrite ?Hmax; auto.
      rewrite Hlen. destruct (cache st) as [|p l]; [congruence|].
      cbn [pred length] in *. rewrite !Nat2Z.inj_succ in Hlt. lia.
    + rewrite Z.geb_leb, Z.leb_gt in Hge. split; [lia|auto].
Qed.

Lemma addToCache_inv (id : Z) (buf : list Q) (now : Z) (st : State) :
  1 <= maxCacheSize st -> NoDup (keys (cache st)) -> CacheInv (addToCache id buf now st).
Proof.
  intros Hm Hnd. unfold addToCache.
  destruct (evictLoop_below (S (length (cache st))) st Hm Hnd ltac:(lia))
    as (Hlt & Hnd1 & Hmax).
  set (st1 := evictLoop (S (length (cache st))) st) in *.
  destruct (map_set_inv id (mkEntry buf now (Z.of_nat (length buf) * 1 * 4)) (cache st1) Hnd1)
    as (Hnd2 & Hlen2 & _).
  unfold CacheInv, cacheSize, withCache. simpl. rewrite Hmax.
  split; [exact Hm|]. split; [exact Hnd2|]. lia.
Qed.

Lemma cacheStep_inv (op : CacheOp) (st : State) : CacheInv st -> CacheInv (cacheStep op st).
Proof.
  intros (Hm & Hnd & Hle). destruct op as [id now|id now|id now|]; simpl.
  - unfold loadSample, loadBegin.
    destruct (map_get id (cache st)) as [cached|] eqn:Hg.
    + simpl. apply map_get_some_in in Hg.
      destruct (map_set_inv id (mkEntry (buffer cached) now (size cached)) (cache st) Hnd)
        as (Hnd2 & _ & Hsame).
      unfold CacheInv, cacheSize, withCache in *. simpl. rewrite Hsame by exact Hg. auto.
    + destruct (getSampleData id st) as [s|]; [|repeat split; auto].
      destruct (createAudioBuffer s) as [buf|]; [|repeat split; auto].
      simpl. now apply addToCache_inv.
  - unfold getSample. destruct (map_get id (cache st)) as [cached|] eqn:Hg; simpl;
      [|repeat split; auto].
    apply map_get_some_in in Hg.
    destruct (map_set_inv id (mkEntry (buffer cached) now (size cached)) (cache st) Hnd)
      as (Hnd2 & _ & Hsame).
    unfold CacheInv, cacheSize, withCache in *. simpl. rewrite Hsame by exact Hg. auto.
  - destruct (getSampleData id st) as [s|]; [|repeat split; auto].
    destruct (createAudioBuffer s) as [buf|]; [|repeat split; auto].
    now apply addToCache_inv.
  - unfold CacheInv, clearCache, withCache, cacheSize, keys. simpl.
    split; [exact Hm|]. split; [constructor|lia].
Qed.

Lemma runCache_inv (ops : list CacheOp) (st : State) : CacheInv st -> CacheInv (runCache ops st).
Proof.
  revert st. induction ops as [|op rest IH]; intros st H; simpl; [exact H|].
  apply IH. now apply cacheStep_inv.
Qed.

Lemma init_inv (sf2 : SF2Data) (cfg : option Z) :
  (forall m, cfg = Some m -> 0 <= m) -> CacheInv (init sf2 cfg).
Proof.
  intros Hcfg. unfold CacheInv, init, cacheSize, keys. simpl.
  destruct cfg as [m|].
  - specialize (Hcfg m eq_refl). destruct (Z.eqb_spec m 0); split; try lia.
    + split; [constructor|lia].
    + split; [constructor|lia].
  - split; [lia|]. split; [constructor|lia].
Qed.

Lemma evictLRU_max (st : State) : maxCacheSize (evictLRU st) = maxCacheSize st.
Proof.
  unfold evictLRU. destruct (findOldest _ _) as [[? ?]|]; [|reflexivity].
  destruct (map_get _ _); reflexivity.
Qed.

Lemma evictLoop_max (fuel : nat) (st : State) :
  maxCacheSize (evictLoop fuel st) = maxCacheSize st.
Proof.
  revert st. induction fuel as [|f IH]; intros st; simpl; [reflexivity|].
  destruct (_ >=? _); [|reflexivity]. rewrite IH. apply evictLRU_max.
Qed.

Lemma cacheStep_max (op : CacheOp) (st : State) :
  maxCacheSize (cacheStep op st) = maxCacheSize st.
Proof.
  destruct op as [id now|id now|id now|]; simpl.
  - unfold loadSample, loadBegin. destruct (map_get id (cache st)); [reflexivity|].
    destruct (getSampleData id st) as [s|]; [|reflexivity].
    destruct (createAudioBuffer s); [|reflexivity]. cbn [loadEnd snd].
    unfold addToCache, withCache. cbn [maxCacheSize]. apply evictLoop_max.
  - unfold getSample. destruct (map_get id (cache st)); reflexivity.
  - destruct (getSampleData id st) as [s|]; [|reflexivity].
    destruct (createAudioBuffer s); [|reflexivity].
    unfold addToCache, withCache. cbn [maxCacheSize]. apply evictLoop_max.
  - reflexivity.
Qed.

Lemma runCache_max (ops : list CacheOp) (st : State) :
  maxCacheSize (runCache ops st) = maxCacheSize st.
Proof.
  revert st. induction ops as [|op rest IH]; intros st; simpl; [reflexivity|].
  rewrite IH. apply cacheStep_max.
Qed.

(** C4: from the constructor (capacity [config.maxCacheSize || 150], a
    non-negative integer), every sequence of loads, synchronous gets,
    interleaved resumptions and clears keeps the number of resident entries
    within the capacity; whenever [evictLRU] runs on a reachable non-empty
    cache it removes one entry with the oldest [lastAccessed]; and the
    eviction loop of [addToCache] ends strictly below capacity before the new
    entry is inserted, so no intermediate state is over capacity. *)
Theorem cache_never_exceeds_capacity (sf2 : SF2Data) (cfg : option Z) (ops : list CacheOp) :
  (forall m, cfg = Some m -> 0 <= m) ->
  let st := runCache ops (init sf2 cfg) in
  cacheSize st <= maxCacheSize st /\
  maxCacheSize st = match cfg with Some m => if m =? 0 then 150 else m | None => 150 end /\
  (cache st <> [] ->
   exists id e,
     In (id, e) (cache st) /\
     (forall k e', In (k, e') (cache st) -> lastAccessed e <= lastAccessed e') /\
     cache (evictLRU st) = map_delete id (cache st) /\
     cacheSize (evictLRU st) = cacheSize st - 1) /\
  (forall id buf now,
     let st1 := evictLoop (S (length (cache st))) st in
     cacheSize st1 < maxCacheSize st /\
     addToCache id buf now st
       = withCache st1 (map_set id (mkEntry buf now (Z.of_nat (length buf) * 1 * 4)) (cache st1))
           (totalMemoryUsage st1 + Z.of_nat (length buf) * 1 * 4) /\
     cacheSize (addToCache id buf now st) <= maxCacheSize st).
Proof.
  intros Hcfg st.
  assert (Hinv : CacheInv st) by (apply runCache_inv, init_inv, Hcfg).
  destruct Hinv as (Hm & Hnd & Hle).
  assert (Hmax : maxCacheSize st
                 = match cfg with Some m => if m =? 0 then 150 else m | None => 150 end).
  { subst st. rewrite runCache_max. reflexivity. }
  split; [exact Hle|]. split; [exact Hmax|]. split.
  - intros Hne. destruct (evictLRU_spec st Hnd Hne) as (id & e & H1 & H2 & H3 & H4 & _).
    exists id, e. repeat split; auto.
    unfold cacheSize. rewrite H4. destruct (cache st); [congruence|].
    cbn [length pred]. rewrite Nat2Z.inj_succ. lia.
  - intros id buf now st1.
    destruct (evictLoop_below (S (length (cache st))) st Hm Hnd ltac:(lia)) as (Hlt & _ & _).
    split; [exact Hlt|]. split; [reflexivity|].
    destruct (addToCache_inv id buf now st Hm Hnd) as (_ & _ & H).
    assert (E : maxCacheSize (addToCache id buf now st) = maxCacheSize st)
      by (unfold addToCache, withCache; cbn [maxCacheSize]; apply evictLoop_max).
    rewrite E in H. exact H.
Qed.

Lemma cache_never_exceeds_capacity_witness :
  (forall m, Some 2 = Some m -> 0 <= m) /\
  cacheSize (runCache [Load 0 1; Load 1 2; Load 2 3; Get 0 4; Load 0 5; Clear; Load 1 6]
               (init demoBank (Some 2)))
  <= maxCacheSize (runCache [Load 0 1; Load 1 2; Load 2 3; Get 0 4; Load 0 5; Clear; Load 1 6]
               (init demoBank (Some 2))).
Proof.
  assert (H : forall m, Some 2 = Some m -> 0 <= m) by (intros m E; inversion E; lia).
  split; [exact H|].
  exact (proj1 (cache_never_exceeds_capacity demoBank (Some 2)
           [Load 0 1; Load 1 2; Load 2 3; Get 0 4; Load 0 5; Clear; Load 1 6] H)).
Defined.

(** The LRU order on a concrete run: after loading samples 0, 1, touching 0
    and loading 2 into a two-entry cache, sample 1 is the one evicted. *)
Example cache_lru_run :
  map fst (cache (runCache [Load 0 1; Load 1 2; Get 0 3; Load 2 4] (init demoBank (Some 2))))
  = [0; 2].
Proof. vm_compute. reflexivity. Qed.

End CacheTheorems.


Module EngineTheorems.
Import SoundEngine.

Lemma allVoices_cons (k : Z) (vs : list Voice) (m : list (Z * list Voice)) :
  allVoices ((k, vs) :: m) = vs ++ allVoices m.
Proof. reflexivity. Qed.

Lemma map_set_allVoices_present (k : Z) (vs vs' : list Voice) (m : list (Z * list Voice)) :
  SampleManager.map_get k m = Some vs ->
  (length (allVoices (SampleManager.map_set k vs' m)) + length vs
   = length (allVoices m) + length vs')%nat.
Proof.
  induction m as [|[k' w] r IH]; cbn [SampleManager.map_get SampleManager.map_set];
    [discriminate|].
  destruct (Z.eqb k k'); intros H.
  - inversion H; subst. rewrite !allVoices_cons, !length_app. lia.
  - rewrite !allVoices_cons, !length_app. specialize (IH H). lia.
Qed.

Lemma map_set_allVoices_absent (k : Z) (vs' : list Voice) (m : list (Z * list Voice)) :
  SampleManager.map_get k m = None ->
  length (allVoices (SampleManager.map_set k vs' m)) = (length (allVoices m) + length vs')%nat.
Proof.
  induction m as [|[k' w] r IH]; cbn [SampleManager.map_get SampleManager.map_set].
  - intros _. unfold allVoices. simpl. rewrite app_nil_r. reflexivity.
  - destruct (Z.eqb k k'); [discriminate|]. intros H.
    rewrite !allVoices_cons, !length_app. rewrite IH by exact H. lia.
Qed.

Lemma pushVoice_total (note : Z) (v : Voice) (m : list (Z * list Voice)) :
  length (allVoices (pushVoice note v m)) = S (length (allVoices m)).
Proof.
  unfold pushVoice. destruct (SampleManager.map_get note m) as [vs|] eqn:E.
  - pose proof (map_set_allVoices_present note vs (vs ++ [v]) m E) as H.
    rewrite length_app in H. simpl in H. lia.
  - rewrite (map_set_allVoices_absent note [v] m E). simpl. lia.
Qed.

Lemma releaseVoices_length (now : Q) (gv : nat -> Q) (vs : list Voice) :
  length (fst (releaseVoices now gv vs)) = length vs.
Proof.
  induction vs as [|v rest IH]; simpl; [reflexivity|].
  destruct (releaseVoice now gv v). destruct (releaseVoices now gv rest). simpl in *. lia.
Qed.

Lemma releaseNote_frame (clk : Clock) (note : Z) (st : Engine) :
  totalVoices (voices (releaseNote clk note st)) = totalVoices (voices st) /\
  maxPolyphony (releaseNote clk note st) = maxPolyphony st /\
  sustainedNotes (releaseNote clk note st) = sustainedNotes st /\
  sustainPedal (releaseNote clk note st) = sustainPedal st.
Proof.
  unfold releaseNote. destruct (SampleManager.map_get note (voices st)) as [[|v vs]|] eqn:E;
    try (repeat split; reflexivity).
  pose proof (releaseVoices_length (currentTime clk) (gainValue clk) (v :: vs)) as HL.
  destruct (releaseVoices (currentTime clk) (gainValue clk) (v :: vs)) as [vs' eff] eqn:Er.
  simpl in HL. simpl. repeat split; try reflexivity.
  unfold totalVoices. f_equal.
  pose proof (map_set_allVoices_present note (v :: vs) vs' (voices st) E) as H.
  simpl in H. lia.
Qed.

Lemma fold_releaseNote_frame (clk : Clock) (notes : list Z) (st : Engine) :
  let st' := fold_left (fun acc note => releaseNote clk note acc) notes st in
  totalVoices (voices st') = totalVoices (voices st) /\
  maxPolyphony st' = maxPolyphony st.
Proof.
  revert st. induction notes as [|n rest IH]; intros st; simpl; [auto|].
  destruct (IH (releaseNote clk n st)) as [H1 H2].
  destruct (releaseNote_frame clk n st) as (H3 & H4 & _).
  split; congruence.
Qed.

Lemma removeFirst_length (r : nat) (vs vs' : list Voice) :
  removeFirst r vs = Some vs' -> length vs = S (length vs').
Proof.
  revert vs'. induction vs as [|v rest IH]; simpl; intros vs'; [discriminate|].
  destruct (Nat.eqb (vref v) r); intros H.
  - inversion H; reflexivity.
  - destruct (removeFirst r rest) as [w|] eqn:E; simpl in H; [|discriminate].
    inversion H; subst. simpl. f_equal. now apply IH.
Qed.

Lemma removeFirst_found (r : nat) (vs : list Voice) :
  In r (map vref vs) -> removeFirst r vs <> None.
Proof.
  induction vs as [|v rest IH]; simpl; [tauto|].
  destruct (Nat.eqb_spec (vref v) r); [discriminate|].
  intros [E|Hin]; [congruence|]. destruct (removeFirst r rest); [discriminate|].
  now destruct (IH Hin).
Qed.

Lemma removeVoiceFrom_total (r : nat) (m : list (Z * list Voice)) :
  (length (allVoices (fst (removeVoiceFrom r m))) <= length (allVoices m))%nat /\
  (In r (map vref (allVoices m)) ->
   S (length (allVoices (fst (removeVoiceFrom r m)))) = length (allVoices m)).
Proof.
  induction m as [|[note vs] rest IH].
  - simpl. split; [lia|tauto].
  - cbn [removeVoiceFrom]. rewrite allVoices_cons, length_app, map_app.
    destruct (removeFirst r vs) as [[|w ws]|] eqn:E.
    + apply removeFirst_length in E. cbn [fst]. cbn [length] in E. split; [lia|intros; lia].
    + apply removeFirst_length in E. cbn [fst]. rewrite allVoices_cons, length_app.
      cbn [length] in *. split; [lia|intros; lia].
    + destruct (removeVoiceFrom r rest) as [rest' d] eqn:E2. cbn [fst] in *.
      rewrite allVoices_cons, length_app. destruct IH as [IH1 IH2].
      split; [lia|].
      intros Hin. apply in_app_or in Hin as [Hin|Hin].
      * exfalso. now apply (removeFirst_found r vs Hin).
      * specialize (IH2 Hin). lia.
Qed.

Lemma removeVoice_frame (r : nat) (st : Engine) :
  (totalVoices (voices (removeVoice r st)) <= totalVoices (voices st)) /\
  (In r (map vref (allVoices (voices st))) ->
   totalVoices (voices (removeVoice r st)) = totalVoices (voices st) - 1) /\
  maxPolyphony (removeVoice r st) = maxPolyphony st.
Proof.
  unfold removeVoice. destruct (removeVoiceFrom_total r (voices st)) as [H1 H2].
  simpl. destruct (removeVoiceFrom r (voices st)) as [m' d] eqn:E. simpl in *.
  unfold totalVoices.
  destruct d; simpl; (split; [lia|split; [intros Hin; specialize (H2 Hin); lia|reflexivity]]).
Qed.

Lemma scanVoices_some (now : Q) (vs : list Voice) (x : Q * Voice) :
  scanVoices now vs (Some x) <> None.
Proof.
  revert x. induction vs as [|v rest IH]; intros [lp lv]; simpl; [discriminate|].
  destruct (negb (Qle_bool lp (priority now v))); apply IH.
Qed.

Lemma scanRegistry_some (now : Q) (m : list (Z * list Voice)) (x : Q * Voice) :
  scanRegistry now m (Some x) <> None.
Proof.
  revert x. induction m as [|[k vs] rest IH]; intros x; simpl; [discriminate|].
  destruct (scanVoices now vs (Some x)) as [y|] eqn:E; [apply IH|].
  now apply scanVoices_some in E.
Qed.

Lemma scanRegistry_nonempty (now : Q) (m : list (Z * list Voice)) :
  allVoices m <> [] -> scanRegistry now m None <> None.
Proof.
  induction m as [|[k vs] rest IH]; simpl; [tauto|].
  rewrite allVoices_cons. destruct vs as [|v vs]; simpl.
  - intros H. now apply IH.
  - intros _. destruct (scanVoices now vs (Some (priority now v, v))) as [y|] eqn:E.
    + apply scanRegistry_some.
    + now apply scanVoices_some in E.
Qed.

Lemma scanVoices_in (now : Q) (vs : list Voice) (best : option (Q * Voice)) (p : Q) (v : Voice) :
  scanVoices now vs best = Some (p, v) -> best = Some (p, v) \/ In v vs.
Proof.
  revert best. induction vs as [|w rest IH]; intros best H; simpl in H; [now left|].
  apply IH in H as [H|H]; [|right; now right].
  destruct best as [[lp lv]|].
  - destruct (negb (Qle_bool lp (priority now w))).
    + inversion H; subst. right; now left.
    + now left.
  - inversion H; subst. right; now left.
Qed.

Lemma scanRegistry_in (now : Q) (m : list (Z * list Voice)) (best : option (Q * Voice))
    (p : Q) (v : Voice) :
  scanRegistry now m best = Some (p, v) -> best = Some (p, v) \/ In v (allVoices m).
Proof.
  revert best. induction m as [|[k vs] rest IH]; intros best H; simpl in H; [now left|].
  rewrite allVoices_cons.
  apply IH in H as [H|H]; [|right; apply in_or_app; now right].
  apply scanVoices_in in H as [H|H]; [now left|right; apply in_or_app; now left].
Qed.

(** [stealOldestVoice] on a non-empty registry removes exactly one voice. *)
Lemma stealOldestVoice_one (now : Q) (st : Engine) :
  1 <= totalVoices (voices st) ->
  totalVoices (voices (stealOldestVoice now st)) = totalVoices (voices st) - 1 /\
  maxPolyphony (stealOldestVoice now st) = maxPolyphony st.
Proof.
  intros Hpos. unfold stealOldestVoice.
  destruct (scanRegistry now (voices st) None) as [[p v]|] eqn:E.
  - apply scanRegistry_in in E as [E|Hin]; [discriminate|].
    destruct (removeVoice_frame (vref v) (emit st [StopLeft (vref v) None; StopRight (vref v) None]))
      as (_ & H2 & H3).
    simpl in *. split; [|exact H3]. apply H2. now apply in_map.
  - exfalso. apply (scanRegistry_nonempty now (voices st)); [|exact E].
    intros Hn. unfold totalVoices in Hpos. rewrite Hn in Hpos. simpl in Hpos. lia.
Qed.

Lemma checkPolyphonyLimit_spec (now : Q) (st : Engine) :
  1 <= maxPolyphony st ->
  maxPolyphony (checkPolyphonyLimit now st) = maxPolyphony st /\
  totalVoices (voices (checkPolyphonyLimit now st))
  = if totalVoices (voices st) >=? maxPolyphony st
    then totalVoices (voices st) - 1 else totalVoices (voices st).
Proof.
  intros Hm. unfold checkPolyphonyLimit.
  destruct (totalVoices (voices st) >=? maxPolyphony st) eqn:Hge; [|auto].
  apply Z.geb_le in Hge. destruct (stealOldestVoice_one now st) as [H1 H2]; [lia|].
  auto.
Qed.

Lemma totalVoices_nonneg (m : list (Z * list Voice)) : 0 <= totalVoices m.
Proof. unfold totalVoices. lia. Qed.

Lemma noteOn_inv (clk : Clock) (note vel : Z) (st : Engine) : PolyInv st -> PolyInv (noteOn clk note vel st).
Proof.
  intros [Hm Hle]. unfold noteOn.
  destruct ((note <? 21) || (108 <? note)); [split; auto|].
  destruct ((vel <? 0) || (127 <? vel)); [split; auto|].
  destruct (selectZones (sf2Data st) note vel) as [|z zs]; [split; auto|].
  set (st1 := match SampleManager.map_get note (voices st) with
              | Some existing => emit st (concat (map (fadeOut (currentTime clk) (gainValue clk)) existing))
              | None => st end).
  assert (E1 : voices st1 = voices st /\ maxPolyphony st1 = maxPolyphony st)
    by (subst st1; destruct (SampleManager.map_get note (voices st)); auto).
  destruct E1 as [Ev Em].
  destruct (checkPolyphonyLimit_spec (currentTime clk) st1 ltac:(lia)) as [Hm2 Ht2].
  set (st2 := checkPolyphonyLimit (currentTime clk) st1) in *.
  destruct (playStereoPair clk (nextRef st2) note vel (z :: zs) (sampleManager st2))
    as [[res sm'] eff].
  rewrite Ev, Em in Ht2.
  destruct res as [voice|]; unfold PolyInv; simpl; rewrite Hm2, Em; split; auto.
  - unfold totalVoices in *. rewrite pushVoice_total. rewrite Nat2Z.inj_succ.
    destruct (Z.of_nat (length (allVoices (voices st))) >=? maxPolyphony st) eqn:Hge.
    + apply Z.geb_le in Hge. lia.
    + rewrite Z.geb_leb, Z.leb_gt in Hge. lia.
  - rewrite Ht2. destruct (_ >=? _); lia.
Qed.

Lemma engineStep_inv (op : EngineOp) (st : Engine) : PolyInv st -> PolyInv (engineStep op st).
Proof.
  intros Hinv. pose proof Hinv as [Hm Hle].
  destruct op as [clk n v|clk n|clk b|r|clk|]; simpl.
  - now apply noteOn_inv.
  - unfold noteOff. destruct (SampleManager.map_get n (voices st)) as [[|w ws]|];
      try exact Hinv.
    destruct (sustainPedal st); [exact Hinv|].
    destruct (releaseNote_frame clk n st) as (H1 & H2 & _). split; congruence.
  - unfold setSustainPedal. destruct b; [exact Hinv|].
    destruct (fold_releaseNote_frame clk (sustainedNotes (setPedal st false)) (setPedal st false))
      as [H1 H2].
    split; simpl in *; congruence.
  - destruct (removeVoice_frame r st) as (H1 & _ & H3). split; lia.
  - unfold allNotesOff.
    destruct (fold_releaseNote_frame clk (map fst (voices st)) st) as [H1 H2].
    split; simpl in *; congruence.
  - split; simpl; [exact Hm|]. unfold totalVoices. simpl. lia.
Qed.

(** C3: from the constructor (limit [config.maxPolyphony || 64], a
    non-negative integer), after every sequence of engine events (note-ons
    run one after the other, note-offs, pedal changes, voice endings,
    all-notes-off, panic) the registry holds at most [maxPolyphony] voices;
    and before a new voice is added, a registry at or above the limit loses
    exactly one voice. *)
Theorem polyphony_never_exceeded (sm : SampleManager.State) (sf2 : SF2Data)
    (cfg : option Z) (ops : list EngineOp) :
  (forall m, cfg = Some m -> 0 <= m) ->
  let st := runEngine ops (init sm sf2 cfg) in
  totalVoices (voices st) <= maxPolyphony st /\
  maxPolyphony st = match cfg with Some m => if m =? 0 then 64 else m | None => 64 end /\
  (forall now, totalVoices (voices (checkPolyphonyLimit now st))
               = if totalVoices (voices st) >=? maxPolyphony st
                 then totalVoices (voices st) - 1 else totalVoices (voices st)).
Proof.
  intros Hcfg st.
  assert (H0 : PolyInv (init sm sf2 cfg)).
  { unfold PolyInv, init, totalVoices, allVoices. simpl.
    destruct cfg as [m|]; [specialize (Hcfg m eq_refl); destruct (Z.eqb_spec m 0)|]; lia. }
  assert (Hrun : forall ops st0, PolyInv st0 -> PolyInv (runEngine ops st0) /\
                   maxPolyphony (runEngine ops st0) = maxPolyphony st0).
  { clear. induction ops as [|op rest IH]; intros st0 H; simpl; [auto|].
    assert (Hs : maxPolyphony (engineStep op st0) = maxPolyphony st0).
    { destruct op as [clk n v|clk n|clk b|r|clk|]; simpl.
      - unfold noteOn.
        destruct ((n <? 21) || (108 <? n)); [reflexivity|].
        destruct ((v <? 0) || (127 <? v)); [reflexivity|].
        destruct (selectZones (sf2Data st0) n v) as [|z zs]; [reflexivity|].
        destruct H as [Hm _].
        set (st1 := match SampleManager.map_get n (voices st0) with
              | Some existing => emit st0 (concat (map (fadeOut (currentTime clk) (gainValue clk)) existing))
              | None => st0 end).
        assert (Em : maxPolyphony st1 = maxPolyphony st0)
          by (subst st1; destruct (SampleManager.map_get n (voices st0)); auto).
        destruct (checkPolyphonyLimit_spec (currentTime clk) st1 ltac:(lia)) as [Hm2 _].
        destruct (playStereoPair _ _ _ _ _ _) as [[[voice|] sm'] eff]; simpl; congruence.
      - unfold noteOff. destruct (SampleManager.map_get n (voices st0)) as [[|w ws]|]; auto.
        destruct (sustainPedal st0); [reflexivity|]. apply releaseNote_frame.
      - unfold setSustainPedal. destruct b; [reflexivity|].
        simpl. apply (fold_releaseNote_frame clk _ (setPedal st0 false)).
      - apply removeVoice_frame.
      - unfold allNotesOff. simpl. apply fold_releaseNote_frame.
      - reflexivity. }
    destruct (IH (engineStep op st0) (engineStep_inv op st0 H)) as [H1 H2].
    split; congruence. }
  destruct (Hrun ops (init sm sf2 cfg) H0) as [[Hm Hle] Hmax].
  split; [exact Hle|]. split.
  - subst st. rewrite Hmax. reflexivity.
  - intros now. apply (checkPolyphonyLimit_spec now st Hm).
Qed.

Lemma polyphony_never_exceeded_witness :
  (forall m, Some 2 = Some m -> 0 <= m) /\
  totalVoices (voices (runEngine [NoteOn (clockAt 0) 60 100; NoteOn (clockAt 1) 62 100;
                                  NoteOn (clockAt 2) 64 100] (init (SampleManager.init demoBank None) demoBank (Some 2))))
  <= 2.
Proof.
  assert (H : forall m, Some 2 = Some m -> 0 <= m) by (intros m E; inversion E; lia).
  split; [exact H|].
  destruct (polyphony_never_exceeded (SampleManager.init demoBank None) demoBank (Some 2)
             [NoteOn (clockAt 0) 60 100; NoteOn (clockAt 1) 62 100; NoteOn (clockAt 2) 64 100] H)
    as [H1 [H2 _]].
  rewrite H2 in H1. exact H1.
Defined.

(** C2: the scan of [stealOldestVoice] removes the single voice of lowest
    priority, releasing voices and low velocities first; but the age term is
    added, so of two voices equal in release state and velocity the NEWER
    one has the lower priority and is stolen. With a limit of 2, notes 60,
    62, 64 struck at t = 0, 1, 2 leave 60 and 64: the voice started at t = 1
    is stolen, the one started at t = 0 is kept. *)
Theorem steal_prefers_newer_voice (now : Q) (older newer : Voice) :
  isReleasing older = isReleasing newer -> velocity older = velocity newer ->
  (startTime older < startTime newer)%Q ->
  (priority now newer < priority now older)%Q /\
  (let st := runEngine [NoteOn (clockAt 0) 60 100; NoteOn (clockAt 1) 62 100] (demoEngine 2) in
   option_map (fun pv => (midiNote (snd pv), startTime (snd pv)))
     (scanRegistry 2 (voices st) None) = Some (62, 1%Q) /\
   map (fun v => (midiNote v, startTime v)) (allVoices (voices st)) = [(60, 0%Q); (62, 1%Q)] /\
   map (fun v => (midiNote v, startTime v))
     (allVoices (voices (noteOn (clockAt 2) 64 100 st))) = [(60, 0%Q); (64, 2%Q)]).
Proof.
  intros Hr Hv Ht. split.
  - unfold priority. rewrite Hr, Hv.
    destruct (isReleasing newer); apply Qplus_lt_r;
      apply Qmult_lt_r; [reflexivity| |reflexivity|];
      apply Qplus_lt_r; apply Qopp_lt_compat; exact Ht.
  - vm_compute. repeat split; reflexivity.
Qed.

Lemma steal_prefers_newer_voice_witness :
  let v0 := mkVoice 0 60 100 0 None false [] in
  let v1 := mkVoice 1 62 100 1 None false [] in
  isReleasing v0 = isReleasing v1 /\ velocity v0 = velocity v1 /\
  (startTime v0 < startTime v1)%Q /\ (priority 2 v1 < priority 2 v0)%Q.
Proof.
  intros v0 v1.
  assert (H1 : isReleasing v0 = isReleasing v1) by reflexivity.
  assert (H2 : velocity v0 = velocity v1) by reflexivity.
  assert (H3 : (startTime v0 < startTime v1)%Q) by reflexivity.
  split; [exact H1|]. split; [exact H2|]. split; [exact H3|].
  exact (proj1 (steal_prefers_newer_voice 2 v0 v1 H1 H2 H3)).
Defined.

Lemma map_get_set_eq {V} (k : Z) (v : V) (m : list (Z * V)) :
  SampleManager.map_get k (SampleManager.map_set k v m) = Some v.
Proof.
  induction m as [|[k' w] r IH]; cbn [SampleManager.map_set SampleManager.map_get].
  - now rewrite Z.eqb_refl.
  - destruct (Z.eqb_spec k k'); cbn [SampleManager.map_get].
    + subst. now rewrite Z.eqb_refl.
    + apply Z.eqb_neq in n. now rewrite n.
Qed.

Lemma map_get_set_neq {V} (k k' : Z) (v : V) (m : list (Z * V)) :
  k' <> k -> SampleManager.map_get k' (SampleManager.map_set k v m) = SampleManager.map_get k' m.
Proof.
  intros Hne. induction m as [|[k'' w] r IH]; cbn [SampleManager.map_set SampleManager.map_get].
  - apply Z.eqb_neq in Hne. now rewrite Hne.
  - destruct (Z.eqb_spec k k''); cbn [SampleManager.map_get].
    + subst. apply Z.eqb_neq in Hne. now rewrite Hne.
    + destruct (k' =? k''); [reflexivity|exact IH].
Qed.

Lemma map_set_get {V} (k : Z) (v : V) (m : list (Z * V)) :
  SampleManager.map_get k m = Some v -> SampleManager.map_set k v m = m.
Proof.
  induction m as [|[k' w] r IH]; cbn [SampleManager.map_set SampleManager.map_get];
    [discriminate|].
  destruct (Z.eqb_spec k k'); intros H.
  - inversion H; subst. reflexivity.
  - now rewrite IH.
Qed.

Lemma releaseVoice_released (now : Q) (gv : nat -> Q) (v : Voice) :
  isReleasing (fst (releaseVoice now gv v)) = true.
Proof.
  unfold releaseVoice. destruct (isReleasing v) eqn:E; [exact E|]. reflexivity.
Qed.

Lemma releaseVoices_all (now : Q) (gv : nat -> Q) (vs : list Voice) :
  forallb isReleasing (fst (releaseVoices now gv vs)) = true.
Proof.
  induction vs as [|v rest IH]; [reflexivity|]. cbn [releaseVoices].
  pose proof (releaseVoice_released now gv v) as Hv.
  destruct (releaseVoice now gv v) as [v' e]. destruct (releaseVoices now gv rest) as [r' e'].
  cbn [fst forallb] in *. now rewrite Hv, IH.
Qed.

Lemma releaseVoices_noop (now : Q) (gv : nat -> Q) (vs : list Voice) :
  forallb isReleasing vs = true -> releaseVoices now gv vs = (vs, []).
Proof.
  induction vs as [|v rest IH]; [reflexivity|]. cbn [releaseVoices forallb].
  intros H. apply andb_true_iff in H as [H1 H2].
  unfold releaseVoice at 1. rewrite H1. rewrite (IH H2). reflexivity.
Qed.

Lemma emit_nil (st : Engine) : emit st [] = st.
Proof. destruct st; unfold emit; simpl. now rewrite app_nil_r. Qed.

Lemma setVoices_same (st : Engine) : setVoices st (voices st) = st.
Proof. now destruct st. Qed.

Lemma releaseNote_releases (clk : Clock) (note : Z) (st : Engine) :
  voicesReleased note (voices (releaseNote clk note st)) = true.
Proof.
  unfold releaseNote, voicesReleased.
  destruct (SampleManager.map_get note (voices st)) as [[|v vs]|] eqn:E.
  - now rewrite E.
  - pose proof (releaseVoices_all (currentTime clk) (gainValue clk) (v :: vs)) as H.
    destruct (releaseVoices (currentTime clk) (gainValue clk) (v :: vs)) as [vs' eff].
    cbn [voices emit setVoices]. now rewrite map_get_set_eq.
  - now rewrite E.
Qed.

Lemma releaseNote_keeps (clk : Clock) (n note : Z) (st : Engine) :
  voicesReleased n (voices st) = true -> voicesReleased n (voices (releaseNote clk note st)) = true.
Proof.
  intros H. destruct (Z.eq_dec n note) as [->|Hne]; [apply releaseNote_releases|].
  unfold releaseNote.
  destruct (SampleManager.map_get note (voices st)) as [[|v vs]|]; try exact H.
  destruct (releaseVoices (currentTime clk) (gainValue clk) (v :: vs)) as [vs' eff].
  unfold voicesReleased in *. cbn [voices emit setVoices]. now rewrite map_get_set_neq.
Qed.

Lemma fold_releaseNote_releases (clk : Clock) (notes : list Z) (st : Engine) (n : Z) :
  (In n notes \/ voicesReleased n (voices st) = true) ->
  voicesReleased n (voices (fold_left (fun acc note => releaseNote clk note acc) notes st)) = true.
Proof.
  revert st. induction notes as [|m rest IH]; intros st H; cbn [fold_left].
  - destruct H as [[]|H]; exact H.
  - apply IH. destruct H as [[->|Hin]|H].
    + right. apply releaseNote_releases.
    + now left.
    + right. now apply releaseNote_keeps.
Qed.

Lemma fold_releaseNote_pedal (clk : Clock) (notes : list Z) (st : Engine) :
  sustainPedal (fold_left (fun acc note => releaseNote clk note acc) notes st) = sustainPedal st.
Proof.
  revert st. induction notes as [|n rest IH]; intros st; cbn [fold_left]; [reflexivity|].
  rewrite IH. apply releaseNote_frame.
Qed.

Lemma set_add_length (x : Z) (s : list Z) :
  Z.of_nat (length (set_add x s)) =
  Z.of_nat (length s) + (if existsb (Z.eqb x) s then 0 else 1).
Proof.
  unfold set_add. destruct (existsb (Z.eqb x) s); [lia|].
  rewrite length_app. simpl. lia.
Qed.

(** C8 (as the code has it): for a note with live voices, a noteOff with
    the pedal down leaves the voices and the audio graph untouched and adds
    the note to the sustain set, so the sustained count grows by one when
    the note was not in the set yet and stays the same when it was; a
    noteOff with the pedal up is [releaseNote], after which every voice of
    the note is releasing; and releasing the pedal releases every note of
    the set and empties it, the sustained count becoming 0. *)
Theorem noteOff_sustain_amended (clk : Clock) (note : Z) (v : Voice) (vs : list Voice)
    (st : Engine) :
  SampleManager.map_get note (voices st) = Some (v :: vs) ->
  (sustainPedal st = true ->
     voices (noteOff clk note st) = voices st /\ log (noteOff clk note st) = log st /\
     sustainedNotes (noteOff clk note st) = set_add note (sustainedNotes st) /\
     sustainedCount (noteOff clk note st) =
       sustainedCount st + (if existsb (Z.eqb note) (sustainedNotes st) then 0 else 1)) /\
  (sustainPedal st = false ->
     noteOff clk note st = releaseNote clk note st /\
     voicesReleased note (voices (noteOff clk note st)) = true) /\
  (forall clk' : Clock,
     let st' := setSustainPedal clk' false st in
     sustainPedal st' = false /\ sustainedNotes st' = [] /\ sustainedCount st' = 0 /\
     forall n, In n (sustainedNotes st) -> voicesReleased n (voices st') = true).
Proof.
  intros Hget. split; [|split].
  - intros Hp. unfold noteOff. rewrite Hget, Hp.
    unfold sustainedCount, getStats. cbn. repeat split; try reflexivity.
    apply set_add_length.
  - intros Hp. unfold noteOff. rewrite Hget, Hp. split; [reflexivity|].
    apply releaseNote_releases.
  - intros clk' st'. subst st'. unfold setSustainPedal, sustainedCount, getStats.
    cbn [sustainPedal sustainedNotes setSustained fst snd length].
    repeat split; try reflexivity.
    + now rewrite fold_releaseNote_pedal.
    + intros n Hin. cbn [voices setSustained]. apply fold_releaseNote_releases.
      left. exact Hin.
Qed.

Lemma noteOff_sustain_amended_witness :
  let st := runEngine [NoteOn (clockAt 0) 64 100; Pedal (clockAt 1) true] (demoEngine 4) in
  sustainedCount (noteOff (clockAt 2) 64 st) = sustainedCount st + 1.
Proof.
  intros st.
  assert (Hget : exists v vs, SampleManager.map_get 64 (voices st) = Some (v :: vs)).
  { vm_compute. eexists. eexists. reflexivity. }
  destruct Hget as [v [vs Hget]].
  assert (Hp : sustainPedal st = true) by (vm_compute; reflexivity).
  destruct (noteOff_sustain_amended (clockAt 2) 64 v vs st Hget) as [H _].
  destruct (H Hp) as (_ & _ & _ & Hc). rewrite Hc. vm_compute. reflexivity.
Defined.

(** C8 counterexample: with the pedal down, a second noteOff of a note
    already in the sustain set does not raise the sustained count
    ([Set.add] of a present element), although the note still has a live
    voice. *)
Lemma noteOff_repeat_keeps_count :
  let st1 := runEngine [NoteOn (clockAt 0) 64 100; Pedal (clockAt 1) true;
                        NoteOff (clockAt 2) 64] (demoEngine 4) in
  let st2 := noteOff (clockAt 3) 64 st1 in
  sustainedCount st1 = 1 /\ sustainedCount st2 = 1 /\
  map fst (voices st2) = [64] /\ voicesReleased 64 (voices st2) = false.
Proof. vm_compute. repeat split; reflexivity. Qed.

(** C9: releasing is idempotent: a voice already releasing is left as it is
    with no call on the audio graph, a released voice has [isReleasing]
    set, and a second [releaseNote] of a note, at any later time and gain
    reading, changes nothing (voices, sustain state and effect log). *)
Theorem releaseNote_idempotent (clk1 clk2 : Clock) (note : Z) (st : Engine) :
  (forall now gv v, isReleasing v = true -> releaseVoice now gv v = (v, [])) /\
  (forall now gv v, isReleasing (fst (releaseVoice now gv v)) = true) /\
  releaseNote clk2 note (releaseNote clk1 note st) = releaseNote clk1 note st.
Proof.
  split; [|split].
  - intros now gv v H. unfold releaseVoice. now rewrite H.
  - apply releaseVoice_released.
  - destruct (SampleManager.map_get note (voices st)) as [[|v vs]|] eqn:E.
    + assert (H1 : releaseNote clk1 note st = st) by (unfold releaseNote; now rewrite E).
      rewrite H1. unfold releaseNote. now rewrite E.
    + pose proof (releaseVoices_all (currentTime clk1) (gainValue clk1) (v :: vs)) as Hall.
      pose proof (releaseVoices_length (currentTime clk1) (gainValue clk1) (v :: vs)) as Hlen.
      destruct (releaseVoices (currentTime clk1) (gainValue clk1) (v :: vs)) as [vs' eff] eqn:Er.
      cbn [fst] in Hall, Hlen.
      assert (H1 : releaseNote clk1 note st =
                   emit (setVoices st (SampleManager.map_set note vs' (voices st))) eff)
        by (unfold releaseNote; now rewrite E, Er).
      rewrite H1. set (s1 := emit (setVoices st (SampleManager.map_set note vs' (voices st))) eff).
      assert (Hv : voices s1 = SampleManager.map_set note vs' (voices st)) by reflexivity.
      unfold releaseNote. rewrite Hv, map_get_set_eq.
      destruct vs' as [|w ws]; [discriminate|].
      rewrite (releaseVoices_noop _ _ _ Hall).
      rewrite (map_set_get note (w :: ws) (SampleManager.map_set note (w :: ws) (voices st)))
        by apply map_get_set_eq.
      rewrite <- Hv, setVoices_same. apply emit_nil.
    + assert (H1 : releaseNote clk1 note st = st) by (unfold releaseNote; now rewrite E).
      rewrite H1. unfold releaseNote. now rewrite E.
Qed.

End EngineTheorems.

Module ParserTheorems.
Import SF2Parser.

Lemma bind_inv {A B} (m : M A) (k : A -> M B) (w : list Warning) (b : B) (w' : list Warning) :
  bind m k w = (Ok b, w') -> exists a w1, m w = (Ok a, w1) /\ k a w1 = (Ok b, w').
Proof. unfold bind. destruct (m w) as [[a|e] w1]; intros H; [eauto|discriminate]. Qed.

Ltac inv_bind H a w Ha :=
  apply bind_inv in H; destruct H as (a & w & Ha & H); cbv beta in H.

Lemma raise_not_ok {A} (e : Exn) (w : list Warning) (a : A) (w' : list Warning) :
  raise e w <> (Ok a, w').
Proof. discriminate. Qed.

Lemma ret_inv {A} (x a : A) (w w' : list Warning) : ret x w = (Ok a, w') -> x = a /\ w' = w.
Proof. intros H. inversion H. auto. Qed.

Lemma codes_eqb_true (l1 l2 : list Z) : codes_eqb l1 l2 = true -> l1 = l2.
Proof. unfold codes_eqb. destruct (list_eq_dec Z.eq_dec l1 l2); [auto|discriminate]. Qed.

Lemma byteAt_range (bs : list Z) (i : Z) : 0 <= byteAt bs i < 256.
Proof. unfold byteAt. apply Z.mod_pos_bound. lia. Qed.

Lemma checkView_inv (bs : list Z) (off n : Z) (w : list Warning) (u : unit) (w' : list Warning) :
  checkView bs off n w = (Ok u, w') -> 0 <= off /\ off + n <= byteLength bs /\ w' = w.
Proof.
  unfold checkView. destruct (off <? 0) eqn:E1; [discriminate|].
  destruct (byteLength bs <? off + n) eqn:E2; [discriminate|].
  intros H. inversion H. apply Z.ltb_ge in E1. apply Z.ltb_ge in E2. auto.
Qed.

Lemma getUint8_inv (bs : list Z) (off : Z) (w : list Warning) (x : Z) (w' : list Warning) :
  getUint8 bs off w = (Ok x, w') ->
  0 <= off /\ off + 1 <= byteLength bs /\ x = byteAt bs off /\ w' = w.
Proof.
  unfold getUint8. intros H. inv_bind H u w1 Hc.
  apply checkView_inv in Hc as (H1 & H2 & ->). apply ret_inv in H as [-> ->]. auto.
Qed.

Lemma getUint32_inv (bs : list Z) (off : Z) (w : list Warning) (x : Z) (w' : list Warning) :
  getUint32 bs off w = (Ok x, w') -> 0 <= off /\ off + 4 <= byteLength bs /\ 0 <= x /\ w' = w.
Proof.
  unfold getUint32. intros H. inv_bind H u w1 Hc.
  apply checkView_inv in Hc as (H1 & H2 & ->). apply ret_inv in H as [<- ->].
  pose proof (byteAt_range bs off). pose proof (byteAt_range bs (off + 1)).
  pose proof (byteAt_range bs (off + 2)). pose proof (byteAt_range bs (off + 3)).
  repeat split; auto; lia.
Qed.

Lemma readFourCC_inv (bs : list Z) (off : Z) (w : list Warning) (c : list Z) (w' : list Warning) :
  readFourCC bs off w = (Ok c, w') ->
  0 <= off /\ off + 4 <= byteLength bs /\
  c = map (byteAt bs) [off; off + 1; off + 2; off + 3] /\ w' = w.
Proof.
  unfold readFourCC. intros H.
  inv_bind H a w1 Ha. inv_bind H b w2 Hb. inv_bind H c' w3 Hc. inv_bind H d w4 Hd.
  apply getUint8_inv in Ha as (A1 & A2 & -> & ->).
  apply getUint8_inv in Hb as (B1 & B2 & -> & ->).
  apply getUint8_inv in Hc as (C1 & C2 & -> & ->).
  apply getUint8_inv in Hd as (D1 & D2 & -> & ->).
  apply ret_inv in H as [<- ->]. repeat split; auto; lia.
Qed.

Lemma walkChunks_S {A} (bs : list Z) (f : nat) (limit : Z)
    (body : Z -> list Z -> Z -> A -> M A) (cur : Z) (acc : A) (w : list Warning) :
  walkChunks bs (S f) limit body cur acc w =
  if cur <? limit then
    match readFourCC bs cur w with
    | (Ok id, w1) =>
        match getUint32 bs (cur + 4) w1 with
        | (Ok size, w2) =>
            match body cur id size acc w2 with
            | (Ok acc', w3) => walkChunks bs f limit body (cur + 8 + size) acc' w3
            | (Throw e, w3) => (Throw e, w3)
            end
        | (Throw e, w2) => (Throw e, w2)
        end
    | (Throw e, w1) => (Throw e, w1)
    end
  else (Ok acc, w).
Proof. cbn [walkChunks]. destruct (cur <? limit); reflexivity. Qed.

(** The walks use enough fuel: more rounds change nothing. *)
Lemma walkChunks_step {A} (bs : list Z) (f : nat) (limit : Z)
    (body : Z -> list Z -> Z -> A -> M A) (cur : Z) (acc : A) (w : list Warning) :
  0 <= cur -> byteLength bs - cur < 8 * Z.of_nat (S f) ->
  walkChunks bs (S (S f)) limit body cur acc w = walkChunks bs (S f) limit body cur acc w.
Proof.
  revert cur acc w. induction f as [|f IH]; intros cur acc w Hcur Hlen;
    rewrite walkChunks_S; rewrite walkChunks_S;
    destruct (cur <? limit); try reflexivity;
    destruct (readFourCC bs cur w) as [[id|e] w1]; try reflexivity;
    destruct (getUint32 bs (cur + 4) w1) as [[size|e] w2] eqn:Eg; try reflexivity;
    apply getUint32_inv in Eg as (G1 & G2 & G3 & _).
  - rewrite Nat2Z.inj_succ in Hlen. lia.
  - destruct (body cur id size acc w2) as [[acc'|e] w3]; [|reflexivity].
    apply IH; rewrite ?Nat2Z.inj_succ in *; lia.
Qed.

Lemma walkChunks_enough_fuel {A} (bs : list Z) (k : nat) (limit : Z)
    (body : Z -> list Z -> Z -> A -> M A) (cur : Z) (acc : A) (w : list Warning) :
  0 <= cur ->
  walkChunks bs (S (length bs) + k) limit body cur acc w
  = walkChunks bs (S (length bs)) limit body cur acc w.
Proof.
  intros Hcur. induction k as [|k IH]; [now rewrite Nat.add_0_r|].
  rewrite Nat.add_succ_r. rewrite <- IH. cbn [Nat.add].
  apply walkChunks_step; [exact Hcur|]. unfold byteLength. rewrite Nat2Z.inj_succ, Nat2Z.inj_add. lia.
Qed.

Lemma validateRIFF_inv (bs : list Z) (w : list Warning) (u : unit) (w' : list Warning) :
  validateRIFF bs w = (Ok u, w') ->
  map (byteAt bs) [0; 1; 2; 3] = codes "RIFF" /\ map (byteAt bs) [8; 9; 10; 11] = codes "sfbk".
Proof.
  unfold validateRIFF. intros H. inv_bind H riff w1 Hr.
  destruct (codes_eqb riff (codes "RIFF")) eqn:E1; cbn [negb] in H; [|discriminate].
  inv_bind H fs w2 Hfs. inv_bind H sfbk w3 Hs.
  destruct (codes_eqb sfbk (codes "sfbk")) eqn:E2; cbn [negb] in H; [|discriminate].
  apply codes_eqb_true in E1, E2.
  apply readFourCC_inv in Hr as (_ & _ & Hr & _). apply readFourCC_inv in Hs as (_ & _ & Hs & _).
  split; [rewrite <- E1, Hr | rewrite <- E2, Hs]; reflexivity.
Qed.

Lemma checkRequired_inv (req : list (list Z)) (chunks : list (list Z * ChunkRef))
    (w : list Warning) (u : unit) (w' : list Warning) :
  checkRequired req chunks w = (Ok u, w') -> forall c, In c req -> rec_get c chunks <> None.
Proof.
  induction req as [|c0 rest IH]; cbn [checkRequired]; intros H c Hin; [destruct Hin|].
  destruct (rec_get c0 chunks) eqn:E; [|discriminate].
  destruct Hin as [<-|Hin]; [now rewrite E|]. now apply (IH H).
Qed.

Lemma parseSDTA_inv (bs : list Z) (off : Z) (w : list Warning) (s : list Sample) (w' : list Warning) :
  parseSDTA bs off w = (Ok s, w') -> s = [].
Proof.
  unfold parseSDTA. intros H. inv_bind H ls w1 H1. inv_bind H sid w2 H2.
  destruct (negb (codes_eqb sid (codes "smpl"))); [discriminate|].
  inv_bind H sz w3 H3. inv_bind H sd w4 H4. apply ret_inv in H as [<- _]. reflexivity.
Qed.

Lemma parsePDTA_inv (bs : list Z) (off : Z) (samples : list Sample) (w : list Warning)
    (r : list Sample * list Preset * list Instrument) (w' : list Warning) :
  parsePDTA bs off samples w = (Ok r, w') ->
  (exists chunks w1, walkPDTA bs off w = (Ok chunks, w1) /\
     forall c, In c requiredChunks -> rec_get c chunks <> None) /\
  (exists smplData hs w2 w3 pushed,
     fillSamples smplData hs 0 w2 = (Ok pushed, w3) /\ fst (fst r) = samples ++ pushed).
Proof.
  unfold parsePDTA. intros H.
  inv_bind H chunks w1 Hw. inv_bind H u w2 Hc. inv_bind H hs w3 Hh. inv_bind H ch w4 Hf.
  inv_bind H smplSize w5 Hs.
  destruct (byteLength bs <? SDTA ch + 20 + smplSize); [discriminate|].
  inv_bind H smplData w6 Hd. inv_bind H pushed w7 Hp. inv_bind H ins w8 Hi.
  inv_bind H prs w9 Hpr. apply ret_inv in H as [<- _].
  split.
  - exists chunks, w1. split; [exact Hw|]. exact (checkRequired_inv _ _ _ _ _ Hc).
  - exists smplData, hs, w6, w7, pushed. split; [exact Hp|reflexivity].
Qed.

Lemma parse_ok_inv (bs : list Z) (d : SF2Data) :
  fst (parse bs) = Ok d -> exists w, parseBody bs [] = (Ok d, w).
Proof.
  unfold parse. destruct (parseBody bs []) as [[d'|e] w]; cbn [fst]; intros H;
    [inversion H; subst; eauto|discriminate].
Qed.

Lemma applyGen_keyRange (z : Zone) (g : Generator) :
  (genType g =? 43) = false -> keyRange (applyGen z g) = keyRange z.
Proof.
  intros H. unfold applyGen. rewrite H.
  repeat match goal with |- context [if ?c then _ else _] => destruct c end;
    destruct (amount g); reflexivity.
Qed.

Lemma applyGen_velRange (z : Zone) (g : Generator) :
  (genType g =? 44) = false -> velRange (applyGen z g) = velRange z.
Proof.
  intros H. unfold applyGen.
  destruct (genType g =? 43); [destruct (amount g); reflexivity|]. rewrite H.
  repeat match goal with |- context [if ?c then _ else _] => destruct c end;
    destruct (amount g); reflexivity.
Qed.

Lemma fold_applyGen_keyRange (gens : list Generator) (z : Zone) :
  forallb (fun g => negb (genType g =? 43)) gens = true ->
  keyRange (fold_left applyGen gens z) = keyRange z.
Proof.
  revert z. induction gens as [|g rest IH]; intros z H; [reflexivity|].
  cbn [forallb fold_left] in *. apply andb_true_iff in H as [H1 H2].
  rewrite IH by exact H2. apply applyGen_keyRange. now apply negb_true_iff.
Qed.

Lemma fold_applyGen_velRange (gens : list Generator) (z : Zone) :
  forallb (fun g => negb (genType g =? 44)) gens = true ->
  velRange (fold_left applyGen gens z) = velRange z.
Proof.
  revert z. induction gens as [|g rest IH]; intros z H; [reflexivity|].
  cbn [forallb fold_left] in *. apply andb_true_iff in H as [H1 H2].
  rewrite IH by exact H2. apply applyGen_velRange. now apply negb_true_iff.
Qed.

Lemma forRange_forall {A} (P : A -> Prop) (body : Z -> M A) :
  (forall i w a w', body i w = (Ok a, w') -> P a) ->
  forall n i w xs w', forRange n i body w = (Ok xs, w') -> Forall P xs.
Proof.
  intros Hb n. induction n as [|n IH]; intros i w xs w' H.
  - cbn [forRange] in H. apply ret_inv in H as [<- _]. constructor.
  - cbn [forRange] in H. inv_bind H x w1 Hx. inv_bind H rest w2 Hr.
    apply ret_inv in H as [<- _]. constructor; [eapply Hb; eauto|eapply IH; eauto].
Qed.

Lemma zonesOfBags_build (bags : list Bag) (gens : list Generator) (bi nbi : Z)
    (w : list Warning) (zs : list Zone) (w' : list Warning) :
  zonesOfBags bags gens bi nbi w = (Ok zs, w') ->
  Forall (fun z => exists lo hi, z = buildZone (jsSlice gens lo hi)) zs.
Proof.
  unfold zonesOfBags. apply forRange_forall.
  intros b w0 z w1 H. destruct (nth_error bags (Z.to_nat b)) as [bag|].
  - apply ret_inv in H as [<- _]. eauto.
  - discriminate.
Qed.

Lemma fillSamples_spec_aux (smplData : list Z) (hs : list RawHeader) (i0 : Z) (w : list Warning) :
  exists ss extra,
    fillSamples smplData hs i0 w = (Ok ss, w ++ extra) /\ length ss = length hs /\
    forall k h, nth_error hs k = Some h ->
      let i := i0 + Z.of_nat k in
      let n := Z.of_nat (length smplData) in
      exists s, nth_error ss k = Some s /\
        if badIndices h n then
          data s = [] /\
          header s = mkHeader 0 0 0 0 (if hSampleRate h =? 0 then 44100 else hSampleRate h)
                       (if hOriginalPitch h =? 0 then 60 else hOriginalPitch h) 0 /\
          In (mkWarning i (hName h) (hStart h) (hEnd h) n) (w ++ extra)
        else
          data s = firstn (Z.to_nat (hEnd h - hStart h)) (skipn (Z.to_nat (hStart h)) smplData) /\
          Z.of_nat (length (data s)) = hEnd h - hStart h /\
          header s = mkHeader (hStart h) (hEnd h) (hStartLoop h) (hEndLoop h)
                       (hSampleRate h) (hOriginalPitch h) (hPitchCorrection h).
Proof.
  revert i0 w. induction hs as [|h rest IH]; intros i0 w.
  - exists [], []. rewrite app_nil_r. split; [reflexivity|]. split; [reflexivity|].
    intros k h Hk. destruct k; discriminate.
  - set (n := Z.of_nat (length smplData)).
    set (x := mkWarning i0 (hName h) (hStart h) (hEnd h) n).
    assert (Hfirst : forall s0 w' extra',
      (if badIndices h n then s0 = placeholder i0 h /\ In x w' else s0 = extracted i0 h smplData) ->
      exists s, nth_error (s0 :: nil) 0 = Some s /\
        if badIndices h n then
          data s = [] /\
          header s = mkHeader 0 0 0 0 (if hSampleRate h =? 0 then 44100 else hSampleRate h)
                       (if hOriginalPitch h =? 0 then 60 else hOriginalPitch h) 0 /\
          In (mkWarning (i0 + Z.of_nat 0) (hName h) (hStart h) (hEnd h) n) (w' ++ extra')
        else
          data s = firstn (Z.to_nat (hEnd h - hStart h)) (skipn (Z.to_nat (hStart h)) smplData) /\
          Z.of_nat (length (data s)) = hEnd h - hStart h /\
          header s = mkHeader (hStart h) (hEnd h) (hStartLoop h) (hEndLoop h)
                       (hSampleRate h) (hOriginalPitch h) (hPitchCorrection h)).
    { intros s0 w' extra' Hs0. exists s0. split; [reflexivity|].
      rewrite Nat2Z.inj_0, Z.add_0_r.
      destruct (badIndices h n) eqn:Hb.
      - destruct Hs0 as [-> Hin]. split; [reflexivity|]. split; [reflexivity|].
        apply in_or_app. now left.
      - subst s0. unfold badIndices in Hb.
        repeat rewrite orb_false_iff in Hb.
        destruct Hb as [[[[B1 B2] B3] B4] B5].
        apply Z.ltb_ge in B1, B2, B4. apply Z.leb_gt in B3, B5.
        unfold extracted, jsSlice. cbn [data header].
        rewrite Z2Nat.inj_sub by lia. split; [reflexivity|]. split; [|reflexivity].
        rewrite length_firstn, length_skipn. subst n.
        rewrite <- Z2Nat.inj_sub by lia.
        assert (Z.to_nat (hEnd h) <= length smplData)%nat by lia. lia. }
    set (w0 := if badIndices h n then w ++ [x] else w).
    set (s0 := if badIndices h n then placeholder i0 h else extracted i0 h smplData).
    destruct (IH (i0 + 1) w0) as (ss & extra & Hf & Hlen & Hspec).
    exists (s0 :: ss), ((if badIndices h n then [x] else []) ++ extra).
    assert (Hw : w0 ++ extra = w ++ (if badIndices h n then [x] else []) ++ extra).
    { subst w0. destruct (badIndices h n); [now rewrite <- app_assoc|reflexivity]. }
    split; [|split].
    + cbn [fillSamples]. fold n. rewrite <- Hw.
      unfold w0, s0 in *. destruct (badIndices h n); unfold bind, warn, ret;
        cbv beta iota in Hf |- *; fold x; rewrite Hf; reflexivity.
    + cbn [length]. now rewrite Hlen.
    + intros k h' Hk. cbv zeta. destruct k as [|k].
      * cbn [nth_error] in Hk. inversion Hk; subst h'.
        rewrite <- Hw.
        destruct (Hfirst s0 w0 extra) as (s & Hs & Hp).
        { unfold s0, w0. destruct (badIndices h n); [|reflexivity].
          split; [reflexivity|]. apply in_or_app. right. now left. }
        exists s. split; [cbn [nth_error] in *; exact Hs|]. exact Hp.
      * cbn [nth_error] in Hk. destruct (Hspec k h' Hk) as (s & Hs & Hprop).
        exists s. split; [exact Hs|]. fold n.
        replace (i0 + Z.of_nat (S k)) with (i0 + 1 + Z.of_nat k) by lia.
        rewrite <- Hw. exact Hprop.
Qed.

(** C6: a parse that returns a bank found the 'RIFF' and 'sfbk' signatures
    and, in the pdta list, all seven sub-chunks phdr, pbag, pgen, inst,
    ibag, igen and shdr; so a wrong signature or a missing sub-chunk makes
    [parse] throw (a thrown error carries no bank). The bank of the
    examples without its shdr sub-chunk fails with the parser's message. *)
Theorem parse_requires_signature_and_chunks :
  (forall (bs : list Z) (d : SF2Data),
     fst (parse bs) = Ok d ->
     map (byteAt bs) [0; 1; 2; 3] = codes "RIFF" /\
     map (byteAt bs) [8; 9; 10; 11] = codes "sfbk" /\
     exists ch chunks w0 w1 w2 w3,
       findChunks bs w0 = (Ok ch, w1) /\
       walkPDTA bs (PDTA ch) w2 = (Ok chunks, w3) /\
       forall c, In c requiredChunks -> rec_get c chunks <> None) /\
  fst (parse (sf2Bytes false))
  = Throw (Error "SF2 Parse Error: Required PDTA chunk 'shdr' not found").
Proof.
  split.
  - intros bs d H. apply parse_ok_inv in H as [w H]. unfold parseBody in H.
    inv_bind H u w1 Hv. inv_bind H ch w2 Hf. inv_bind H inf w3 Hi.
    inv_bind H smps w4 Hs. inv_bind H r w5 Hp.
    destruct (validateRIFF_inv _ _ _ _ Hv) as [R1 R2].
    split; [exact R1|]. split; [exact R2|].
    destruct (parsePDTA_inv _ _ _ _ _ _ Hp) as [(chunks & w6 & Hw & Hreq) _].
    exists ch, chunks, w1, w2, w4, w6. auto.
  - vm_compute. reflexivity.
Qed.

Lemma parse_requires_signature_and_chunks_witness :
  exists d, fst (parse (sf2Bytes true)) = Ok d /\
  map (byteAt (sf2Bytes true)) [0; 1; 2; 3] = codes "RIFF".
Proof.
  destruct (fst (parse (sf2Bytes true))) as [d|e] eqn:E.
  - exists d. split; [reflexivity|].
    exact (proj1 (proj1 parse_requires_signature_and_chunks _ _ E)).
  - exfalso. vm_compute in E. discriminate.
Defined.

Lemma pure_ret {A} (a : A) : Pure (ret a).
Proof. intros w. reflexivity. Qed.

Lemma pure_raise {A} (e : Exn) : Pure (@raise A e).
Proof. intros w. reflexivity. Qed.

Lemma pure_bind {A B} (m : M A) (k : A -> M B) :
  Pure m -> (forall a, Pure (k a)) -> Pure (bind m k).
Proof.
  intros Hm Hk w. unfold bind. rewrite (Hm w).
  destruct (m []) as [[a|e] w0]; cbn [fst]; [|reflexivity].
  rewrite (Hk a w), (Hk a w0). reflexivity.
Qed.

Lemma pure_inv {A} (m : M A) (w : list Warning) (r : Result A) (w' : list Warning) :
  Pure m -> m w = (r, w') -> fst (m []) = r /\ w' = w.
Proof. intros Hm H. rewrite (Hm w) in H. inversion H. auto. Qed.

Lemma pure_forRange {A} (n : nat) (i : Z) (body : Z -> M A) :
  (forall j, Pure (body j)) -> Pure (forRange n i body).
Proof.
  intros Hb. revert i. induction n as [|n IH]; intros i; cbn [forRange].
  - apply pure_ret.
  - apply pure_bind; [apply Hb|intros x]. apply pure_bind; [apply IH|intros xs]. apply pure_ret.
Qed.

Lemma pure_walkChunks {A} (bs : list Z) (fuel : nat) (limit : Z)
    (body : Z -> list Z -> Z -> A -> M A) :
  (forall cur cid size acc, Pure (body cur cid size acc)) ->
  forall cur acc, Pure (walkChunks bs fuel limit body cur acc).
Proof.
  intros Hb. induction fuel as [|f IH]; intros cur acc; cbn [walkChunks]; [apply pure_ret|].
  destruct (cur <? limit); [|apply pure_ret].
  apply pure_bind; [|intros cid]; [|apply pure_bind; [|intros size]].
  - unfold readFourCC, getUint8, checkView.
    repeat (apply pure_bind; [|intros ?]);
      try match goal with |- Pure (if ?c then _ else _) => destruct c end;
      first [apply pure_ret|apply pure_raise].
  - unfold getUint32, checkView. apply pure_bind; [|intros ?; apply pure_ret].
    destruct (_ || _); [apply pure_raise|apply pure_ret].
  - apply pure_bind; [apply Hb|intros acc']. apply IH.
Qed.

(** Everything the parser reads apart from [fillSamples] prints nothing. *)
Ltac pure_auto :=
  repeat match goal with
  | |- forall _, _ => intro
  | |- Pure (ret _) => apply pure_ret
  | |- Pure (raise _) => apply pure_raise
  | |- Pure (bind _ _) => apply pure_bind
  | |- Pure (forRange _ _ _) => apply pure_forRange
  | |- Pure (walkChunks _ _ _ _ _ _) => apply pure_walkChunks
  | |- Pure (if ?c then _ else _) => destruct c
  | |- Pure (let _ := _ in _) => cbv zeta
  | |- Pure (checkView _ _ _) => unfold checkView
  | |- Pure (getUint8 _ _) => unfold getUint8
  | |- Pure (getInt8 _ _) => unfold getInt8
  | |- Pure (getUint16 _ _) => unfold getUint16
  | |- Pure (getUint32 _ _) => unfold getUint32
  | |- Pure (readFourCC _ _) => unfold readFourCC
  end.

Lemma pure_readStringLoop (bs : list Z) (n : nat) (off : Z) : Pure (readStringLoop bs n off).
Proof.
  revert off. induction n as [|n IH]; intros off; cbn [readStringLoop]; pure_auto. apply IH.
Qed.

Lemma pure_readString (bs : list Z) (off len : Z) : Pure (readString bs off len).
Proof. apply pure_readStringLoop. Qed.

Lemma pure_getUint32 (bs : list Z) (o : Z) : Pure (getUint32 bs o).
Proof. pure_auto. Qed.

Lemma pure_newInt16Array (bs : list Z) (o n : Z) : Pure (newInt16Array bs o n).
Proof. unfold newInt16Array. pure_auto. Qed.

Lemma pure_findChunks (bs : list Z) : Pure (findChunks bs).
Proof. unfold findChunks, findChunksBody. pure_auto. Qed.

Lemma pure_walkPDTA (bs : list Z) (off : Z) : Pure (walkPDTA bs off).
Proof. unfold walkPDTA. pure_auto. Qed.

Lemma pure_parseSampleHeaders (bs : list Z) (c : ChunkRef) : Pure (parseSampleHeaders bs c).
Proof. unfold parseSampleHeaders. pure_auto; apply pure_readString. Qed.

Lemma pure_parseBags (bs : list Z) (c : ChunkRef) : Pure (parseBags bs c).
Proof. unfold parseBags. pure_auto. Qed.

Lemma pure_parseGenerators (bs : list Z) (c : ChunkRef) : Pure (parseGenerators bs c).
Proof. unfold parseGenerators. pure_auto. Qed.

Lemma pure_zonesOfBags (bags : list Bag) (gens : list Generator) (bi nbi : Z) :
  Pure (zonesOfBags bags gens bi nbi).
Proof.
  unfold zonesOfBags. apply pure_forRange. intros b.
  destruct (nth_error bags (Z.to_nat b)); [apply pure_ret|apply pure_raise].
Qed.

Lemma pure_parseInstruments (bs : list Z) (a b c : ChunkRef) : Pure (parseInstruments bs a b c).
Proof.
  unfold parseInstruments. apply pure_bind; [apply pure_parseBags|intros bags].
  apply pure_bind; [apply pure_parseGenerators|intros gens].
  pure_auto; solve [apply pure_readString|apply pure_zonesOfBags].
Qed.

Lemma pure_parsePresets (bs : list Z) (a b c : ChunkRef) (ins : list Instrument) :
  Pure (parsePresets bs a b c ins).
Proof.
  unfold parsePresets. apply pure_bind; [apply pure_parseBags|intros bags].
  apply pure_bind; [apply pure_parseGenerators|intros gens].
  pure_auto; solve [apply pure_readString|apply pure_zonesOfBags].
Qed.

(** C7 (as the code has it): the sample loop of [parsePDTA] never throws and
    yields one record per header: a header failing
    [0 <= start < end <= block length] gives an empty placeholder with all
    offsets and loop points 0, pitch correction 0, rate [|| 44100], pitch
    [|| 60], and a warning; any other header gives the PCM [block[start, end)]
    (of length [end - start]) with its start, end and loop points copied
    unchanged (offsets into the whole block; no loop check). For a
    successful [parse], the samples of the bank are these records for the
    headers read from the bank's shdr sub-chunk and the PCM block read from
    its smpl chunk (the Int16Array at [SDTA + 20] of [smplSize / 2]
    entries), and the warnings are among those [parse] printed. *)
Theorem sample_records_amended :
  (forall (smplData : list Z) (hs : list RawHeader) (i0 : Z) (w : list Warning),
     exists ss w',
       fillSamples smplData hs i0 w = (Ok ss, w') /\ length ss = length hs /\
       forall k h, nth_error hs k = Some h ->
         let i := i0 + Z.of_nat k in
         let n := Z.of_nat (length smplData) in
         exists s, nth_error ss k = Some s /\
           if badIndices h n then
             data s = [] /\
             header s = mkHeader 0 0 0 0 (if hSampleRate h =? 0 then 44100 else hSampleRate h)
                          (if hOriginalPitch h =? 0 then 60 else hOriginalPitch h) 0 /\
             In (mkWarning i (hName h) (hStart h) (hEnd h) n) w'
           else
             data s = firstn (Z.to_nat (hEnd h - hStart h)) (skipn (Z.to_nat (hStart h)) smplData) /\
             Z.of_nat (length (data s)) = hEnd h - hStart h /\
             header s = mkHeader (hStart h) (hEnd h) (hStartLoop h) (hEndLoop h)
                          (hSampleRate h) (hOriginalPitch h) (hPitchCorrection h)) /\
  (forall (bs : list Z) (d : SF2Data) (w : list Warning),
     parse bs = (Ok d, w) ->
     exists ch chunks hs smplSize smplData,
       fst (findChunks bs []) = Ok ch /\
       fst (walkPDTA bs (PDTA ch) []) = Ok chunks /\
       fst (parseSampleHeaders bs (chunkOf "shdr" chunks) []) = Ok hs /\
       fst (getUint32 bs (SDTA ch + 16) []) = Ok smplSize /\
       fst (newInt16Array bs (SDTA ch + 20) (smplSize / 2) []) = Ok smplData /\
       length (samples d) = length hs /\
       forall k h, nth_error hs k = Some h ->
         let n := Z.of_nat (length smplData) in
         exists s, nth_error (samples d) k = Some s /\
           if badIndices h n then
             data s = [] /\
             header s = mkHeader 0 0 0 0 (if hSampleRate h =? 0 then 44100 else hSampleRate h)
                          (if hOriginalPitch h =? 0 then 60 else hOriginalPitch h) 0 /\
             In (mkWarning (Z.of_nat k) (hName h) (hStart h) (hEnd h) n) w
           else
             data s = firstn (Z.to_nat (hEnd h - hStart h)) (skipn (Z.to_nat (hStart h)) smplData) /\
             Z.of_nat (length (data s)) = hEnd h - hStart h /\
             header s = mkHeader (hStart h) (hEnd h) (hStartLoop h) (hEndLoop h)
                          (hSampleRate h) (hOriginalPitch h) (hPitchCorrection h)).
Proof.
  split.
  - intros smplData hs i0 w.
    destruct (fillSamples_spec_aux smplData hs i0 w) as (ss & extra & Hf & Hlen & Hspec).
    exists ss, (w ++ extra). split; [exact Hf|]. split; [exact Hlen|]. exact Hspec.
  - intros bs d w H.
    assert (Hb : parseBody bs [] = (Ok d, w)).
    { unfold parse in H. destruct (parseBody bs []) as [[d'|e] w0]; [exact H|discriminate]. }
    clear H. unfold parseBody in Hb.
    inv_bind Hb u w1 Hv. inv_bind Hb ch w2 Hf. inv_bind Hb inf w3 Hi.
    inv_bind Hb smps w4 Hs. inv_bind Hb r w5 Hp.
    apply parseSDTA_inv in Hs. subst smps.
    unfold parsePDTA in Hp.
    inv_bind Hp chunks w6 Hw. inv_bind Hp u' w7 Hc. inv_bind Hp hs w8 Hh.
    inv_bind Hp ch' w9 Hf'. inv_bind Hp smplSize w10 Hz.
    destruct (byteLength bs <? SDTA ch' + 20 + smplSize); [discriminate|].
    inv_bind Hp smplData w11 Hd. inv_bind Hp pushed w12 Hfill.
    inv_bind Hp ins w13 Hins. inv_bind Hp prs w14 Hprs.
    apply ret_inv in Hp as [<- ->].
    apply ret_inv in Hb as [Hd0 ->]. subst d. cbn [samples fst].
    apply (pure_inv _ _ _ _ (pure_findChunks bs)) in Hf as [Hf _].
    apply (pure_inv _ _ _ _ (pure_findChunks bs)) in Hf' as [Hf' _].
    rewrite Hf in Hf'. injection Hf' as <-.
    apply (pure_inv _ _ _ _ (pure_walkPDTA bs _)) in Hw as [Hw _].
    apply (pure_inv _ _ _ _ (pure_parseSampleHeaders bs _)) in Hh as [Hh _].
    apply (pure_inv _ _ _ _ (pure_getUint32 bs _)) in Hz as [Hz' _].
    apply (pure_inv _ _ _ _ (pure_newInt16Array bs _ _)) in Hd as [Hd _].
    apply (pure_inv _ _ _ _ (pure_parseInstruments bs _ _ _)) in Hins as [_ ->].
    apply (pure_inv _ _ _ _ (pure_parsePresets bs _ _ _ _)) in Hprs as [_ ->].
    destruct (fillSamples_spec_aux smplData hs 0 w11) as (ss & extra & Hf2 & Hlen & Hspec).
    rewrite Hf2 in Hfill. injection Hfill as <- <-.
    exists ch, chunks, hs, smplSize, smplData.
    split; [exact Hf|]. split; [exact Hw|]. split; [exact Hh|]. split; [exact Hz'|].
    split; [exact Hd|]. split; [exact Hlen|].
    intros k h Hk. specialize (Hspec k h Hk). cbv zeta in Hspec |- *.
    rewrite Z.add_0_l in Hspec. exact Hspec.
Qed.

Lemma sample_records_amended_witness :
  match parse (sf2Bytes true) with
  | (Ok d, w) => exists hs : list RawHeader, length (samples d) = length hs
  | (Throw _, _) => False
  end.
Proof.
  destruct (parse (sf2Bytes true)) as [[d|e] w] eqn:E.
  - destruct (proj2 sample_records_amended _ _ _ E)
      as (ch & chunks & hs & sz & sd & _ & _ & _ & _ & _ & Hl & _).
    exists hs. exact Hl.
  - vm_compute in E. discriminate.
Defined.

(** C7 (counterexample): in the bank of the examples the second header
    ("tail", offsets 4..8, loop 5..7) keeps its loop points as offsets into
    the whole block, so its record has loopEnd 7 above its PCM length 4; the
    third ("broken", end 100 past the 8-frame block) becomes a placeholder
    with loopStart = loopEnd = 0 and a warning. The parse succeeds, so these
    records are part of the returned bank. *)
Lemma parse_loop_points_not_within_pcm :
  match fst (parse (sf2Bytes true)) with
  | Ok d =>
      map (fun s => (startLoop (header s), endLoop (header s), Z.of_nat (length (data s))))
        (samples d) = [(2, 6, 8); (5, 7, 4); (0, 0, 0)]
  | Throw _ => False
  end /\
  snd (parse (sf2Bytes true)) = [mkWarning 2 (codes "broken") 6 100 8].
Proof. split; vm_compute; reflexivity. Qed.

(** C10: a zone built from a generator list without a keyRange generator
    (43) has key range [0, 127], one without a velRange generator (44) has
    velocity range [0, 127], and one with neither matches every note and
    velocity in 0..127. Every zone the parser makes from a bag is such a
    built zone of a slice of the generator list, and [selectZones] keeps
    every matching zone of the first preset. *)
Theorem zone_default_ranges :
  (forall gl : list Generator,
     forallb (fun g => negb (genType g =? 43)) gl = true ->
     keyRange (buildZone gl) = mkRange 0 127) /\
  (forall gl : list Generator,
     forallb (fun g => negb (genType g =? 44)) gl = true ->
     velRange (buildZone gl) = mkRange 0 127) /\
  (forall (gl : list Generator) (note vel : Z),
     forallb (fun g => negb (genType g =? 43)) gl = true ->
     forallb (fun g => negb (genType g =? 44)) gl = true ->
     0 <= note <= 127 -> 0 <= vel <= 127 ->
     SoundEngine.zoneMatches note vel (buildZone gl) = true) /\
  (forall bags gens bi nbi w zs w' z,
     zonesOfBags bags gens bi nbi w = (Ok zs, w') -> In z zs ->
     exists lo hi, z = buildZone (jsSlice gens lo hi)) /\
  (forall (sf2 : SF2Data) p ps note vel z,
     presets sf2 = p :: ps -> In z (presetZones p) ->
     SoundEngine.zoneMatches note vel z = true ->
     In z (SoundEngine.selectZones sf2 note vel)).
Proof.
  assert (K : forall gl, forallb (fun g => negb (genType g =? 43)) gl = true ->
            keyRange (buildZone gl) = mkRange 0 127).
  { intros gl H. unfold buildZone. now rewrite fold_applyGen_keyRange. }
  assert (V : forall gl, forallb (fun g => negb (genType g =? 44)) gl = true ->
            velRange (buildZone gl) = mkRange 0 127).
  { intros gl H. unfold buildZone. now rewrite fold_applyGen_velRange. }
  split; [exact K|]. split; [exact V|]. split; [|split].
  - intros gl note vel H43 H44 Hn Hv. unfold SoundEngine.zoneMatches.
    rewrite (K gl H43), (V gl H44). cbn [low high].
    repeat rewrite andb_true_iff. repeat rewrite Z.leb_le. lia.
  - intros bags gens bi nbi w zs w' z H Hin.
    apply zonesOfBags_build in H. rewrite Forall_forall in H. auto.
  - intros sf2 p ps note vel z Hp Hin Hm. unfold SoundEngine.selectZones.
    rewrite Hp. apply filter_In. auto.
Qed.

End ParserTheorems.

(* ------------------------------------------------------------------ *)
(** ** Further properties of the envelope times *)

Module EnvelopeExtras.
Import EnvelopeCalculator.
Local Open Scope R_scope.

Lemma timecents_pos (tc : R) : 0 < timecentsToSeconds tc.
Proof. unfold timecentsToSeconds, Rpower. apply exp_pos. Qed.

Lemma timecents_mono (tc1 tc2 : R) :
  tc1 <= tc2 -> timecentsToSeconds tc1 <= timecentsToSeconds tc2.
Proof.
  intros H. unfold timecentsToSeconds. destruct (Rle_lt_or_eq_dec _ _ H) as [Hl|He].
  - left. apply Rpower_lt; [lra|]. unfold Rdiv. apply Rmult_lt_compat_r; [|exact Hl].
    apply Rinv_0_lt_compat. lra.
  - subst. lra.
Qed.

Ltac clamp_cases :=
  repeat match goal with
  | |- context [Rlt_dec ?a ?b] => destruct (Rlt_dec a b)
  end.

(** The attack time lies in [0.001, 5] for every input, and a converted
    time already in that range is returned unchanged. *)
Theorem attack_time_clamped :
  (forall o : option R, 0.001 <= calculateAttackTime o <= 5) /\
  (forall tc : R, 0.001 <= timecentsToSeconds tc <= 5 ->
     calculateAttackTime (Some tc) = timecentsToSeconds tc).
Proof.
  split.
  - intros [tc|]; cbn [calculateAttackTime]; [|lra]. clamp_cases; lra.
  - intros tc H. cbn [calculateAttackTime]. clamp_cases; lra.
Qed.

(** The decay time lies in [0.001, 10] for every input (default 0.1), and a
    converted time already in that range is returned unchanged. *)
Theorem decay_time_clamped :
  (forall o : option R, 0.001 <= calculateDecayTime o <= 10) /\
  calculateDecayTime None = 0.1 /\
  (forall tc : R, 0.001 <= timecentsToSeconds tc <= 10 ->
     calculateDecayTime (Some tc) = timecentsToSeconds tc).
Proof.
  split; [|split; [reflexivity|]].
  - intros [tc|]; cbn [calculateDecayTime]; [|lra]. clamp_cases; lra.
  - intros tc H. cbn [calculateDecayTime]. clamp_cases; lra.
Qed.

(** A defined hold generator never gives the clamp to 0: the hold time is
    [min(2^(tc/1200), 5)], strictly positive; only an undefined one gives 0. *)
Theorem hold_time_positive :
  calculateHoldTime None = 0 /\
  forall tc : R,
    calculateHoldTime (Some tc) = Rmin (timecentsToSeconds tc) 5 /\
    0 < calculateHoldTime (Some tc) <= 5.
Proof.
  split; [reflexivity|]. intros tc. pose proof (timecents_pos tc) as P.
  cbn [calculateHoldTime]. unfold Rmin.
  clamp_cases; destruct (Rle_dec (timecentsToSeconds tc) 5); split; lra.
Qed.

(** A longer envelope stage in timecents never gives a shorter time: the
    attack, hold, decay and release times are monotone in their generator. *)
Theorem envelope_times_monotone (tc1 tc2 : R) :
  tc1 <= tc2 ->
  calculateAttackTime (Some tc1) <= calculateAttackTime (Some tc2) /\
  calculateHoldTime (Some tc1) <= calculateHoldTime (Some tc2) /\
  calculateDecayTime (Some tc1) <= calculateDecayTime (Some tc2) /\
  calculateReleaseTime (Some tc1) <= calculateReleaseTime (Some tc2).
Proof.
  intros H. pose proof (timecents_mono _ _ H) as M.
  cbn [calculateAttackTime calculateHoldTime calculateDecayTime calculateReleaseTime].
  repeat split; clamp_cases; lra.
Qed.

Lemma envelope_times_monotone_witness :
  -1200 <= 1200 /\
  calculateReleaseTime (Some (-1200)) <= calculateReleaseTime (Some 1200).
Proof.
  split; [lra|]. exact (proj2 (proj2 (proj2 (envelope_times_monotone (-1200) 1200 ltac:(lra))))).
Defined.

End EnvelopeExtras.

(* ------------------------------------------------------------------ *)
(** ** Further properties of the engine and of the stereo player *)

Module EngineExtras.
Import SoundEngine.
Import EngineTheorems.
Local Open Scope Z_scope.

Lemma find_none_existsb {A} (f : A -> bool) (l : list A) :
  find f l = None <-> existsb f l = false.
Proof.
  induction l as [|x l IH]; cbn; [tauto|].
  destruct (f x); [split; discriminate|exact IH].
Qed.

Lemma find_some_existsb {A} (f : A -> bool) (l : list A) :
  (exists x, find f l = Some x) <-> existsb f l = true.
Proof.
  destruct (find f l) eqn:E.
  - split; [|eauto]. intros _. destruct (existsb f l) eqn:E2; [reflexivity|].
    apply find_none_existsb in E2. congruence.
  - apply find_none_existsb in E. rewrite E. split; [intros [x H]; discriminate|discriminate].
Qed.

(** [playStereoPair] finds its pair exactly when [hasStereoPair] holds: a
    zone panned hard left (-500) and one panned hard right (500). Without
    such a pair it throws before loading anything: the sample cache is
    untouched and nothing is played. *)
Theorem playStereoPair_needs_pair (zones : list Zone) :
  (hasStereoPair zones = true <->
   (exists l, findPan (-500) zones = Some l) /\ (exists rz, findPan 500 zones = Some rz)) /\
  (forall clk r note vel sm,
     hasStereoPair zones = false -> playStereoPair clk r note vel zones sm = (None, sm, [])).
Proof.
  unfold hasStereoPair. cbv zeta. split.
  - unfold findPan. rewrite andb_true_iff, !find_some_existsb. reflexivity.
  - intros clk r note vel sm H. unfold playStereoPair.
    destruct (findPan (-500) zones) as [l|] eqn:El; [|reflexivity].
    destruct (findPan 500 zones) as [rz|] eqn:Er; [|reflexivity].
    exfalso. unfold findPan in El, Er.
    assert (A1 : exists x, find (fun z => match gen_pan (generators z) with
                                          | Some q => q =? -500 | None => false end) zones = Some x)
      by eauto.
    assert (A2 : exists x, find (fun z => match gen_pan (generators z) with
                                          | Some q => q =? 500 | None => false end) zones = Some x)
      by eauto.
    apply find_some_existsb in A1, A2. rewrite A1, A2 in H. discriminate.
Qed.

Lemma gain_unit (v : Z) : 0 <= v <= 127 -> (0 <= (inject_Z v / 127) ^ 2 <= 1)%Q.
Proof.
  intros Hv. set (x := (inject_Z v / 127)%Q).
  assert (H0 : (0 <= x)%Q).
  { unfold x. apply Qle_shift_div_l; [reflexivity|]. unfold Qle; cbn. lia. }
  assert (H1 : (x <= 1)%Q).
  { unfold x. apply Qle_shift_div_r; [reflexivity|]. unfold Qle; cbn. lia. }
  cbn [Qpower Qpower_positive pow_pos]. split.
  - now apply Qmult_le_0_compat.
  - apply Qle_trans with (1 * x)%Q.
    + apply Qmult_le_compat_r; assumption.
    + rewrite Qmult_1_l. exact H1.
Qed.

(** A voice that [playStereoPair] starts for a velocity in 0..127 is
    started with one call at the current time, with gain
    [(velocity / 127)^2] in [0, 1]; the voice is fresh: not releasing,
    started now, with the given note and velocity. *)
Theorem playStereoPair_gain (clk : Clock) (r : nat) (note vel : Z) (zones : list Zone)
    (sm sm' : SampleManager.State) (voice : Voice) (eff : list Effect) :
  0 <= vel <= 127 ->
  playStereoPair clk r note vel zones sm = (Some voice, sm', eff) ->
  eff = [StartPair r ((inject_Z vel / 127) ^ 2) (currentTime clk)] /\
  (0 <= (inject_Z vel / 127) ^ 2 <= 1)%Q /\
  vref voice = r /\ midiNote voice = note /\ velocity voice = vel /\
  isReleasing voice = false /\ startTime voice = currentTime clk.
Proof.
  intros Hv H. unfold playStereoPair in H.
  destruct (findPan (-500) zones) as [lz|]; [|discriminate].
  destruct (findPan 500 zones) as [rz|]; [|discriminate].
  destruct (sampleId lz) as [l|]; [|discriminate].
  destruct (sampleId rz) as [rr|]; [|discriminate].
  destruct (SampleManager.loadBegin l (dateNow clk) sm) as [stepL sm1].
  destruct (SampleManager.loadBegin rr (dateNow clk) sm1) as [stepR sm2].
  destruct (SampleManager.loadEnd l stepL (dateNow clk) sm2) as [bufL sm3].
  destruct (SampleManager.loadEnd rr stepR (dateNow clk) sm3) as [bufR sm4].
  destruct bufL; [|discriminate]. destruct bufR; [|discriminate].
  destruct (SampleManager.getSampleData l sm4); [|discriminate].
  inversion H; subst. cbn. repeat split; try reflexivity; apply gain_unit; exact Hv.
Qed.

Lemma playStereoPair_gain_witness :
  match playStereoPair (clockAt 0) 0 60 100 (presetZones (hd (mkPreset [] 0 0 0 0 0 []) (presets demoBank)))
          (SampleManager.init demoBank None) with
  | (Some voice, _, eff) =>
      eff = [StartPair 0 ((inject_Z 100 / 127) ^ 2) (currentTime (clockAt 0))] /\
      (0 <= (inject_Z 100 / 127) ^ 2 <= 1)%Q
  | _ => False
  end.
Proof.
  destruct (playStereoPair (clockAt 0) 0 60 100
              (presetZones (hd (mkPreset [] 0 0 0 0 0 []) (presets demoBank)))
              (SampleManager.init demoBank None)) as [[[voice|] sm'] eff] eqn:E.
  - destruct (playStereoPair_gain (clockAt 0) 0 60 100 _ _ _ _ _ ltac:(lia) E) as (H1 & H2 & _).
    split; [exact H1|exact H2].
  - vm_compute in E. discriminate.
Defined.

(** [setVolume] gives the master gain a value in [0, 1]: the volume
    clamped to 0..100, over 100. *)
Theorem setVolume_range :
  forall volume : R,
    (0 <= setVolume volume <= 1)%R /\
    ((0 <= volume <= 100)%R -> setVolume volume = (volume / 100)%R).
Proof.
  intros v. unfold setVolume, Rmax, Rmin.
  destruct (Rle_dec 100 v), (Rle_dec v 100); try lra;
    destruct (Rle_dec 0 _); split; intros; try lra.
Qed.

(** [noteOn] does nothing at all (no voice, no call on the audio graph,
    no change to the sample cache) for a note outside 21..108, a velocity
    outside 0..127, or when no zone of the first preset matches. *)
Theorem noteOn_ignored (clk : Clock) (note vel : Z) (st : Engine) :
  note < 21 \/ 108 < note \/ vel < 0 \/ 127 < vel \/ selectZones (sf2Data st) note vel = [] ->
  noteOn clk note vel st = st.
Proof.
  intros H. unfold noteOn.
  destruct ((note <? 21) || (108 <? note)) eqn:E1; [reflexivity|].
  destruct ((vel <? 0) || (127 <? vel)) eqn:E2; [reflexivity|].
  apply orb_false_iff in E1 as [E1 E1']. apply orb_false_iff in E2 as [E2 E2'].
  apply Z.ltb_ge in E1, E1', E2, E2'.
  destruct H as [H|[H|[H|[H|H]]]]; try lia. rewrite H. reflexivity.
Qed.

Lemma noteOn_ignored_witness :
  (20 < 21 \/ 108 < 20 \/ 100 < 0 \/ 127 < 100 \/ selectZones (sf2Data (demoEngine 2)) 20 100 = []) /\
  noteOn (clockAt 0) 20 100 (demoEngine 2) = demoEngine 2.
Proof.
  assert (H : 20 < 21 \/ 108 < 20 \/ 100 < 0 \/ 127 < 100 \/
              selectZones (sf2Data (demoEngine 2)) 20 100 = []) by (left; lia).
  split; [exact H|]. exact (noteOn_ignored (clockAt 0) 20 100 (demoEngine 2) H).
Defined.

(** Releasing the pedal empties the sustained set and puts every voice of
    every note that was sustained into its release; the pedal reads up and
    no voice is added or removed. *)
Theorem pedal_up_releases (clk : Clock) (st : Engine) :
  let st' := setSustainPedal clk false st in
  sustainedNotes st' = [] /\ sustainPedal st' = false /\
  totalVoices (voices st') = totalVoices (voices st) /\
  (forall n, In n (sustainedNotes st) -> voicesReleased n (voices st') = true).
Proof.
  cbv zeta. unfold setSustainPedal.
  set (st1 := setPedal st false).
  set (st2 := fold_left (fun acc note => releaseNote clk note acc) (sustainedNotes st1) st1).
  split; [reflexivity|]. split.
  - cbn. unfold st2. rewrite fold_releaseNote_pedal. reflexivity.
  - split.
    + cbn [voices setSustained]. unfold st2. now rewrite (proj1 (fold_releaseNote_frame clk _ st1)).
    + intros n Hn. cbn [voices setSustained]. apply fold_releaseNote_releases. now left.
Qed.

Lemma removeFirst_absent (r : nat) (vs : list Voice) :
  ~ In r (map vref vs) -> removeFirst r vs = None.
Proof.
  induction vs as [|v vs IH]; intros H; [reflexivity|]. cbn.
  destruct (Nat.eqb_spec (vref v) r) as [E|E].
  - exfalso. apply H. left. exact E.
  - rewrite IH; [reflexivity|]. intros Hi. apply H. now right.
Qed.

Lemma removeVoiceFrom_absent (r : nat) (m : list (Z * list Voice)) :
  ~ In r (map vref (allVoices m)) -> removeVoiceFrom r m = (m, None).
Proof.
  induction m as [|[k vs] m IH]; intros H; [reflexivity|]. cbn.
  unfold allVoices in H. cbn in H. rewrite map_app in H.
  rewrite removeFirst_absent by (intros Hi; apply H, in_or_app; now left).
  rewrite IH; [reflexivity|]. intros Hi; apply H, in_or_app; now right.
Qed.

(** [removeVoice] of a voice no longer registered (its [onended] after a
    steal or a panic) only disconnects it: the voice map and the sustained
    set are unchanged. A registered voice is removed exactly once. *)
Theorem removeVoice_unknown_or_one :
  (forall (r : nat) (st : Engine),
     ~ In r (map vref (allVoices (voices st))) ->
     voices (removeVoice r st) = voices st /\
     sustainedNotes (removeVoice r st) = sustainedNotes st /\
     log (removeVoice r st) = log st ++ [Disconnect r]) /\
  (forall (r : nat) (st : Engine),
     In r (map vref (allVoices (voices st))) ->
     totalVoices (voices (removeVoice r st)) = totalVoices (voices st) - 1).
Proof.
  split.
  - intros r st H. unfold removeVoice. cbn [voices emit].
    rewrite removeVoiceFrom_absent by exact H. cbn. auto.
  - intros r st H. exact (proj1 (proj2 (removeVoice_frame r st)) H).
Qed.

(** After [panic] the statistics read no active voice and no sustained
    note (pedal and limit unchanged), and two stop calls were made per
    voice that was sounding. *)
Theorem panic_stats (st : Engine) :
  getStats (panic st) = (0, 0, sustainPedal st, maxPolyphony st) /\
  length (log (panic st)) = (length (log st) + 2 * length (allVoices (voices st)))%nat.
Proof.
  split; [reflexivity|]. unfold panic. cbn [log setSustained setVoices emit].
  rewrite length_app. f_equal. generalize (allVoices (voices st)) as vs.
  induction vs as [|v vs IH]; [reflexivity|]. cbn [map concat]. rewrite length_app, IH. cbn. lia.
Qed.

(** The invariant [SustInv] through every engine event. *)
Lemma map_set_in {V} (k0 : Z) (v0 : V) (m : list (Z * V)) (k : Z) (v : V) :
  In (k, v) (SampleManager.map_set k0 v0 m) -> (k = k0 /\ v = v0) \/ In (k, v) m.
Proof.
  induction m as [|[k' v'] m IH]; cbn.
  - intros [H|[]]. inversion H. auto.
  - destruct (Z.eqb_spec k0 k') as [E|E]; intros [H|H].
    + inversion H; subst. auto.
    + auto.
    + inversion H; subst. auto.
    + destruct (IH H); auto.
Qed.

Lemma map_set_ok (k : Z) (vs : list Voice) (m : list (Z * list Voice)) :
  VoiceMapOK m -> vs <> [] ->
  VoiceMapOK (SampleManager.map_set k vs m) /\
  incl (map fst m) (map fst (SampleManager.map_set k vs m)).
Proof.
  intros [Hnd Hne] Hvs. split; [split|].
  - exact (proj1 (CacheTheorems.map_set_inv k vs m Hnd)).
  - intros k' vs' Hin. destruct (map_set_in _ _ _ _ _ Hin) as [[_ ->]|H]; [exact Hvs|exact (Hne _ _ H)].
  - destruct (CacheTheorems.map_set_keys k vs m) as [[_ ->]|[_ ->]]; intros x Hx; [exact Hx|].
    apply in_or_app. now left.
Qed.

Lemma releaseNote_ok (clk : Clock) (note : Z) (st : Engine) :
  SustInv st -> SustInv (releaseNote clk note st) /\
  map fst (voices (releaseNote clk note st)) = map fst (voices st).
Proof.
  intros Hi. unfold releaseNote.
  destruct (SampleManager.map_get note (voices st)) as [[|v vs]|] eqn:Eg;
    try (split; [exact Hi|reflexivity]).
  destruct (releaseVoices (currentTime clk) (gainValue clk) (v :: vs)) as [vs' eff] eqn:Er.
  assert (Hl : length vs' = S (length vs)).
  { pose proof (releaseVoices_length (currentTime clk) (gainValue clk) (v :: vs)) as L.
    rewrite Er in L. exact L. }
  assert (Hne : vs' <> []) by (intros ->; discriminate).
  assert (Hk : map fst (SampleManager.map_set note vs' (voices st)) = map fst (voices st)).
  { destruct (CacheTheorems.map_set_keys note vs' (voices st)) as [[_ H]|[Hn _]]; [exact H|].
    exfalso. apply Hn. eapply CacheTheorems.map_get_some_in. exact Eg. }
  destruct Hi as (Hm & Hnd & Hincl).
  cbn [voices sustainedNotes emit setVoices]. split; [|exact Hk].
  unfold SustInv. cbn [voices sustainedNotes emit setVoices].
  split; [|split; [exact Hnd|rewrite Hk; exact Hincl]].
  exact (proj1 (map_set_ok note vs' _ Hm Hne)).
Qed.

Lemma fold_releaseNote_ok (clk : Clock) (notes : list Z) (st : Engine) :
  SustInv st ->
  let st' := fold_left (fun acc note => releaseNote clk note acc) notes st in
  SustInv st' /\ map fst (voices st') = map fst (voices st).
Proof.
  revert st. induction notes as [|n notes IH]; intros st Hi; cbn [fold_left]; [auto|].
  destruct (releaseNote_ok clk n st Hi) as [Hi1 Hk1].
  destruct (IH _ Hi1) as [Hi2 Hk2]. split; [exact Hi2|]. rewrite Hk2. exact Hk1.
Qed.

Lemma removeVoiceFrom_ok (r : nat) (m : list (Z * list Voice)) :
  VoiceMapOK m ->
  VoiceMapOK (fst (removeVoiceFrom r m)) /\
  incl (map fst (fst (removeVoiceFrom r m))) (map fst m) /\
  (forall k, In k (map fst m) -> In k (map fst (fst (removeVoiceFrom r m))) \/
                                 snd (removeVoiceFrom r m) = Some k).
Proof.
  induction m as [|[note vs] rest IH]; intros [Hnd Hne].
  - cbn. split; [split; [constructor|intros _ _ []]|]. split; [intros x []|intros k []].
  - cbn in Hnd. inversion Hnd as [|? ? Hnin Hnd']; subst.
    assert (Hrest : VoiceMapOK rest) by (split; [exact Hnd'|intros k v H; apply (Hne k v); now right]).
    cbn [removeVoiceFrom].
    destruct (removeFirst r vs) as [[|v vs']|] eqn:Er.
    + cbn [fst snd]. split; [exact Hrest|]. split.
      * intros x Hx. now right.
      * intros k [Hk|Hk]; [right; cbn in Hk; now subst|left; exact Hk].
    + cbn [fst snd map]. split; [split|].
      * constructor; assumption.
      * intros k v' [H|H]; [inversion H; discriminate|exact (Hne k v' (or_intror H))].
      * split; [intros x Hx; exact Hx|intros k Hk; now left].
    + destruct (removeVoiceFrom r rest) as [rest' d] eqn:Erv.
      destruct (IH Hrest) as ((Hnd2 & Hne2) & Hsub & Hkeys). cbn [fst snd map] in *.
      split; [split|split].
      * constructor; [intros Hin; apply Hnin, Hsub, Hin|exact Hnd2].
      * intros k v' [H|H]; [inversion H; subst; exact (Hne k v' (or_introl eq_refl))|exact (Hne2 k v' H)].
      * intros x [Hx|Hx]; [now left|right; exact (Hsub x Hx)].
      * intros k [Hk|Hk]; [left; now left|]. destruct (Hkeys k Hk) as [H|H]; [left; now right|now right].
Qed.

Lemma set_delete_ok (x : Z) (s l : list Z) :
  NoDup s -> incl s l -> NoDup (set_delete x s) /\ incl (set_delete x s) l.
Proof.
  intros Hnd Hi. unfold set_delete. split; [now apply CacheTheorems.filter_NoDup|].
  intros y Hy. apply filter_In in Hy as [Hy _]. exact (Hi y Hy).
Qed.

Lemma removeVoice_ok (r : nat) (st : Engine) : SustInv st -> SustInv (removeVoice r st).
Proof.
  intros (Hm & Hnd & Hincl). unfold removeVoice. cbn [voices emit].
  destruct (removeVoiceFrom_ok r (voices st) Hm) as (Hm' & _ & Hkeys).
  destruct (removeVoiceFrom r (voices st)) as [m' d] eqn:E. cbn [fst snd] in *.
  destruct d as [note|].
  - cbn. split; [exact Hm'|]. unfold set_delete. split; [now apply CacheTheorems.filter_NoDup|].
    intros y Hy. apply filter_In in Hy as [Hy Hneq].
    destruct (Hkeys y (Hincl y Hy)) as [H|H]; [exact H|].
    inversion H; subst. rewrite Z.eqb_refl in Hneq. discriminate.
  - cbn. split; [exact Hm'|]. split; [exact Hnd|].
    intros y Hy. destruct (Hkeys y (Hincl y Hy)) as [H|H]; [exact H|discriminate].
Qed.

Lemma emit_ok (st : Engine) (e : list Effect) : SustInv st -> SustInv (emit st e).
Proof. auto. Qed.

Lemma checkPolyphonyLimit_ok (now : Q) (st : Engine) :
  SustInv st -> SustInv (checkPolyphonyLimit now st).
Proof.
  intros Hi. unfold checkPolyphonyLimit, stealOldestVoice.
  destruct (totalVoices (voices st) >=? maxPolyphony st); [|exact Hi].
  destruct (scanRegistry now (voices st) None) as [[p v]|]; [|exact Hi].
  apply removeVoice_ok, emit_ok, Hi.
Qed.

Lemma pushVoice_ok (note : Z) (v : Voice) (m : list (Z * list Voice)) :
  VoiceMapOK m -> VoiceMapOK (pushVoice note v m) /\ incl (map fst m) (map fst (pushVoice note v m)).
Proof.
  intros Hm. unfold pushVoice.
  destruct (SampleManager.map_get note m); apply map_set_ok; try exact Hm.
  - intros H. apply app_eq_nil in H as [_ H]. discriminate.
  - discriminate.
Qed.

Lemma noteOn_ok (clk : Clock) (note vel : Z) (st : Engine) : SustInv st -> SustInv (noteOn clk note vel st).
Proof.
  intros Hi. unfold noteOn.
  destruct ((note <? 21) || (108 <? note)); [exact Hi|].
  destruct ((vel <? 0) || (127 <? vel)); [exact Hi|].
  destruct (selectZones (sf2Data st) note vel) as [|z zs]; [exact Hi|].
  set (st1 := match SampleManager.map_get note (voices st) with
              | Some existing => emit st (concat (map (fadeOut (currentTime clk) (gainValue clk)) existing))
              | None => st end).
  assert (Hi1 : SustInv st1) by (unfold st1; destruct (SampleManager.map_get note (voices st)); auto).
  pose proof (checkPolyphonyLimit_ok (currentTime clk) st1 Hi1) as Hi2.
  set (st2 := checkPolyphonyLimit (currentTime clk) st1) in *.
  destruct (playStereoPair clk (nextRef st2) note vel (z :: zs) (sampleManager st2))
    as [[[voice|] sm'] eff].
  - destruct Hi2 as (Hm & Hnd & Hincl). destruct (pushVoice_ok note voice _ Hm) as [Hm' Hsub].
    destruct (set_delete_ok note _ _ Hnd Hincl) as [Hnd' Hincl'].
    split; [exact Hm'|]. split; [exact Hnd'|]. cbn [sustainedNotes voices].
    intros y Hy. apply Hsub, Hincl', Hy.
  - exact Hi2.
Qed.

Lemma set_add_ok (x : Z) (s : list Z) : NoDup s -> NoDup (set_add x s).
Proof.
  intros H. unfold set_add. destruct (existsb (Z.eqb x) s) eqn:E; [exact H|].
  apply NoDup_app; [exact H|repeat constructor; intros []|].
  intros y Hy [Ey|[]]. subst y.
  assert (existsb (Z.eqb x) s = true) by (apply existsb_exists; exists x; split; [exact Hy|apply Z.eqb_refl]).
  congruence.
Qed.

Lemma engineStep_ok (op : EngineOp) (st : Engine) : SustInv st -> SustInv (engineStep op st).
Proof.
  intros Hi. destruct op as [clk n v|clk n|clk b|r|clk|]; cbn [engineStep].
  - now apply noteOn_ok.
  - unfold noteOff. destruct (SampleManager.map_get n (voices st)) as [[|v0 vs]|] eqn:Eg; try exact Hi.
    destruct (sustainPedal st); [|exact (proj1 (releaseNote_ok clk n st Hi))].
    destruct Hi as (Hm & Hnd & Hincl). split; [exact Hm|]. split; [exact (set_add_ok n _ Hnd)|].
    cbn. unfold set_add. destruct (existsb (Z.eqb n) (sustainedNotes st)); [exact Hincl|].
    intros y Hy. apply in_app_or in Hy as [Hy|[<-|[]]]; [exact (Hincl y Hy)|].
    eapply CacheTheorems.map_get_some_in. exact Eg.
  - unfold setSustainPedal. destruct b; [exact Hi|].
    destruct (fold_releaseNote_ok clk (sustainedNotes (setPedal st false)) (setPedal st false) Hi)
      as [(Hm & _) _].
    split; [exact Hm|]. split; [constructor|intros y []].
  - now apply removeVoice_ok.
  - unfold allNotesOff. destruct (fold_releaseNote_ok clk (map fst (voices st)) st Hi) as [(Hm & _) _].
    split; [exact Hm|]. split; [constructor|intros y []].
  - split; [split; [constructor|intros _ _ []]|]. split; [constructor|intros y []].
Qed.

Lemma runEngine_ok (ops : list EngineOp) (st : Engine) : SustInv st -> SustInv (runEngine ops st).
Proof.
  revert st. induction ops as [|op ops IH]; intros st Hi; [exact Hi|]. cbn. apply IH, engineStep_ok, Hi.
Qed.

Lemma init_ok (sm : SampleManager.State) (sf2 : SF2Data) (cfg : option Z) : SustInv (init sm sf2 cfg).
Proof. split; [split; [constructor|intros _ _ []]|]. split; [constructor|intros y []]. Qed.

(** In every state the engine reaches, the sustained notes are distinct
    and each of them still has a non-empty list of voices in the voice
    map, which has no empty list: [getSustainedNotes] never reports a note
    that has stopped sounding. *)
Theorem sustained_notes_have_voices (sm : SampleManager.State) (sf2 : SF2Data) (cfg : option Z)
    (ops : list EngineOp) :
  let st := runEngine ops (init sm sf2 cfg) in
  NoDup (sustainedNotes st) /\
  (forall n, In n (sustainedNotes st) ->
     exists vs, SampleManager.map_get n (voices st) = Some vs /\ vs <> []) /\
  (forall n vs, SampleManager.map_get n (voices st) = Some vs -> vs <> []).
Proof.
  cbv zeta. destruct (runEngine_ok ops _ (init_ok sm sf2 cfg)) as ((Hnd & Hne) & Hsnd & Hincl).
  split; [exact Hsnd|]. split.
  - intros n Hn. apply Hincl, in_map_iff in Hn as [[k vs] [Hk Hin]]. cbn in Hk. subst k.
    exists vs. split; [exact (CacheTheorems.map_get_in n vs _ Hnd Hin)|exact (Hne n vs Hin)].
  - intros n vs Hg. apply (Hne n vs). clear -Hg.
    induction (voices (runEngine ops (init sm sf2 cfg))) as [|[k v] m IH]; [discriminate|].
    cbn in Hg. destruct (Z.eqb_spec n k); [inversion Hg; subst; now left|right; auto].
Qed.

(** In every reachable state, [allNotesOff] puts every sounding voice into
    its release (none is removed) and empties the sustained set. *)
Theorem allNotesOff_releases_all (sm : SampleManager.State) (sf2 : SF2Data) (cfg : option Z)
    (ops : list EngineOp) (clk : Clock) :
  let st := runEngine ops (init sm sf2 cfg) in
  let st' := allNotesOff clk st in
  sustainedNotes st' = [] /\
  totalVoices (voices st') = totalVoices (voices st) /\
  forallb isReleasing (allVoices (voices st')) = true.
Proof.
  cbv zeta. set (st := runEngine ops (init sm sf2 cfg)).
  assert (Hi : SustInv st) by apply runEngine_ok, init_ok.
  unfold allNotesOff. cbn [sustainedNotes voices setSustained].
  split; [reflexivity|]. split; [exact (proj1 (fold_releaseNote_frame clk _ st))|].
  destruct (fold_releaseNote_ok clk (map fst (voices st)) st Hi) as [((Hnd & _) & _) Hk].
  set (m' := voices (fold_left (fun acc note => releaseNote clk note acc) (map fst (voices st)) st)) in *.
  apply forallb_forall. intros v Hv. unfold allVoices in Hv.
  apply in_concat in Hv as [vs [Hvs Hv]]. apply in_map_iff in Hvs as [[k vs0] [E Hin]]. cbn in E. subst vs0.
  assert (Hrel : voicesReleased k m' = true).
  { apply fold_releaseNote_releases. left. rewrite <- Hk. apply (in_map fst) in Hin. exact Hin. }
  unfold voicesReleased in Hrel. rewrite (CacheTheorems.map_get_in k vs m' Hnd Hin) in Hrel.
  rewrite forallb_forall in Hrel. exact (Hrel v Hv).
Qed.

End EngineExtras.

(* ------------------------------------------------------------------ *)
(** ** Further properties of the sample cache *)

Module CacheExtras.
Import SampleManager.
Import CacheTheorems.
Local Open Scope Z_scope.



(** Round trip: after [loadSample] returned a buffer, the cache holds it
    under the id, stamped with the load time. A buffer it has just loaded
    is stored with its size [length * 1 * 4] bytes (one Float32 channel);
    a buffer it found in the cache keeps its entry's size. [getSample] of
    the id then returns that same buffer. *)
Theorem load_then_get (id now now' : Z) (st st' : State) (buf : list Q) :
  loadSample id now st = (Some buf, st') ->
  (map_get id (cache st) = None ->
     map_get id (cache st') = Some (mkEntry buf now (Z.of_nat (length buf) * 4))) /\
  (forall e, map_get id (cache st) = Some e ->
     buf = buffer e /\ map_get id (cache st') = Some (mkEntry buf now (size e))) /\
  fst (getSample id now' st') = Some buf.
Proof.
  intros H.
  assert (He : exists sz, map_get id (cache st') = Some (mkEntry buf now sz)).
  { unfold loadSample, loadBegin in H.
    destruct (map_get id (cache st)) as [cached|] eqn:Hg.
    - cbn in H. inversion H; subst. exists (size cached). cbn.
      apply EngineTheorems.map_get_set_eq.
    - destruct (getSampleData id st) as [s|]; [|discriminate].
      destruct (createAudioBuffer s) as [b|]; [|discriminate].
      cbn in H. inversion H; subst. unfold addToCache. cbn.
      eexists. apply EngineTheorems.map_get_set_eq. }
  split; [|split].
  - intros Hg. unfold loadSample, loadBegin in H. rewrite Hg in H.
    destruct (getSampleData id st) as [s|]; [|discriminate].
    destruct (createAudioBuffer s) as [b|]; [|discriminate].
    cbn in H. inversion H; subst. unfold addToCache. cbn.
    rewrite EngineTheorems.map_get_set_eq. do 2 f_equal. lia.
  - intros e Hg. unfold loadSample, loadBegin in H. rewrite Hg in H.
    cbn in H. inversion H; subst. split; [reflexivity|]. cbn.
    apply EngineTheorems.map_get_set_eq.
  - destruct He as [sz He]. unfold getSample. rewrite He. reflexivity.
Qed.

Lemma load_then_get_witness :
  match loadSample 0 5 (init demoBank None) with
  | (Some buf, st') =>
      map_get 0 (cache st') = Some (mkEntry buf 5 (Z.of_nat (length buf) * 4)) /\
      fst (getSample 0 9 st') = Some buf
  | (None, _) => False
  end.
Proof.
  destruct (loadSample 0 5 (init demoBank None)) as [[buf|] st'] eqn:E.
  - destruct (load_then_get 0 5 9 _ _ _ E) as (H1 & _ & H3).
    split; [apply H1; reflexivity|exact H3].
  - vm_compute in E. discriminate.
Defined.

(** The byte count [totalMemoryUsage] against the entries of the cache. *)
Lemma cachedBytes_set_present (k : Z) (e v : CacheEntry) (m : list (Z * CacheEntry)) :
  map_get k m = Some e -> cachedBytes (map_set k v m) = cachedBytes m - size e + size v.
Proof.
  unfold cachedBytes. induction m as [|[k' w] r IH]; cbn; [discriminate|].
  destruct (Z.eqb k k'); intros H.
  - inversion H; subst. cbn. lia.
  - cbn. rewrite IH by exact H. lia.
Qed.

Lemma cachedBytes_set_absent (k : Z) (v : CacheEntry) (m : list (Z * CacheEntry)) :
  map_get k m = None -> cachedBytes (map_set k v m) = cachedBytes m + size v.
Proof.
  unfold cachedBytes. induction m as [|[k' w] r IH]; cbn; [intros; lia|].
  destruct (Z.eqb k k'); intros H; [discriminate|]. cbn. rewrite IH by exact H. lia.
Qed.

Lemma map_delete_absent (k : Z) (m : list (Z * CacheEntry)) :
  ~ In k (map fst m) -> map_delete k m = m.
Proof.
  unfold map_delete. induction m as [|[k' w] r IH]; cbn; intros H; [reflexivity|].
  destruct (Z.eqb_spec k k'); [exfalso; apply H; now left|]. cbn. rewrite IH; [reflexivity|].
  intros Hi; apply H; now right.
Qed.

Lemma cachedBytes_delete (k : Z) (e : CacheEntry) (m : list (Z * CacheEntry)) :
  NoDup (map fst m) -> map_get k m = Some e ->
  cachedBytes (map_delete k m) = cachedBytes m - size e.
Proof.
  induction m as [|[k' w] r IH]; cbn [map fst]; intros Hnd; [discriminate|].
  inversion Hnd as [|? ? Hnin Hnd']; subst. cbn [map_get].
  destruct (Z.eqb_spec k k'); intros H.
  - inversion H; subst.
    assert (E : map_delete k' ((k', e) :: r) = map_delete k' r)
      by (unfold map_delete; cbn; now rewrite Z.eqb_refl).
    rewrite E, map_delete_absent by exact Hnin. unfold cachedBytes. cbn. lia.
  - assert (E : map_delete k ((k', w) :: r) = (k', w) :: map_delete k r)
      by (unfold map_delete; cbn; destruct (Z.eqb_spec k k'); [congruence|reflexivity]).
    rewrite E. unfold cachedBytes in *. cbn. rewrite IH by assumption. lia.
Qed.

Lemma map_get_delete_none (k x : Z) (m : list (Z * CacheEntry)) :
  map_get k m = None -> map_get k (map_delete x m) = None.
Proof.
  unfold map_delete. induction m as [|[k' w] r IH]; cbn; [auto|].
  destruct (Z.eqb k k') eqn:E; [discriminate|]. intros H.
  destruct (negb (Z.eqb x k')); cbn; [rewrite E|]; auto.
Qed.

Lemma evictLRU_mem (st : State) :
  NoDup (keys (cache st)) -> totalMemoryUsage st = cachedBytes (cache st) ->
  totalMemoryUsage (evictLRU st) = cachedBytes (cache (evictLRU st)) /\
  (forall k, map_get k (cache st) = None -> map_get k (cache (evictLRU st)) = None).
Proof.
  intros Hnd Hm. unfold evictLRU.
  destruct (findOldest (cache st) None) as [[oid t]|]; [|auto].
  destruct (map_get oid (cache st)) as [e|] eqn:Hg; [|auto].
  cbn [withCache cache totalMemoryUsage]. rewrite (cachedBytes_delete oid e _ Hnd Hg). split; [lia|].
  intros k Hk. now apply map_get_delete_none.
Qed.

Lemma evictLoop_mem (fuel : nat) (st : State) :
  NoDup (keys (cache st)) -> totalMemoryUsage st = cachedBytes (cache st) ->
  NoDup (keys (cache (evictLoop fuel st))) /\
  totalMemoryUsage (evictLoop fuel st) = cachedBytes (cache (evictLoop fuel st)) /\
  (forall k, map_get k (cache st) = None -> map_get k (cache (evictLoop fuel st)) = None).
Proof.
  revert st. induction fuel as [|f IH]; intros st Hnd Hm; cbn; [auto|].
  destruct (Z.of_nat (length (cache st)) >=? maxCacheSize st); [|auto].
  destruct (evictLRU_mem st Hnd Hm) as [Hm1 Hk1].
  destruct (IH (evictLRU st) (proj1 (evictLRU_keys st Hnd)) Hm1) as (H1 & H2 & H3).
  split; [exact H1|]. split; [exact H2|]. auto.
Qed.

Lemma addToCache_mem (id : Z) (buf : list Q) (now : Z) (st : State) :
  NoDup (keys (cache st)) -> totalMemoryUsage st = cachedBytes (cache st) ->
  map_get id (cache st) = None ->
  totalMemoryUsage (addToCache id buf now st) = cachedBytes (cache (addToCache id buf now st)).
Proof.
  intros Hnd Hm Hg. unfold addToCache.
  destruct (evictLoop_mem (S (length (cache st))) st Hnd Hm) as (_ & Hm1 & Hk1).
  cbn [withCache cache totalMemoryUsage]. rewrite cachedBytes_set_absent by (now apply Hk1).
  cbn [size]. lia.
Qed.

Lemma touch_mem (id : Z) (cached : CacheEntry) (now : Z) (st : State) :
  map_get id (cache st) = Some cached ->
  cachedBytes (map_set id (mkEntry (buffer cached) now (size cached)) (cache st)) =
  cachedBytes (cache st).
Proof. intros Hg. rewrite (cachedBytes_set_present _ _ _ _ Hg). cbn. lia. Qed.

(** Without [Resume] steps (no concurrent loads), [totalMemoryUsage], and
    so [getMemoryUsage], is exactly the sum of the sizes of the cached
    buffers, whatever the loads, lookups, evictions and clears. *)
Theorem memory_accounting_sequential (sf2 : SF2Data) (cfg : option Z) (ops : list CacheOp) :
  (forall m, cfg = Some m -> 0 <= m) ->
  Forall (fun op => match op with Resume _ _ => False | _ => True end) ops ->
  totalMemoryUsage (runCache ops (init sf2 cfg)) = cachedBytes (cache (runCache ops (init sf2 cfg))).
Proof.
  intros Hcfg Hops.
  assert (Hinv : CacheInv (init sf2 cfg)) by (now apply init_inv).
  assert (Hm : totalMemoryUsage (init sf2 cfg) = cachedBytes (cache (init sf2 cfg))) by reflexivity.
  revert Hinv Hm. generalize (init sf2 cfg) as st.
  induction Hops as [|op ops Hop Hops IH]; intros st Hinv Hm; cbn [runCache]; [exact Hm|].
  apply IH; [now apply cacheStep_inv|].
  destruct Hinv as (_ & Hnd & _).
  destruct op as [id now|id now|id now|]; cbn [cacheStep]; [| |contradiction|reflexivity].
  - unfold loadSample, loadBegin.
    destruct (map_get id (cache st)) as [cached|] eqn:Hg.
    + cbn [loadEnd snd withCache cache totalMemoryUsage]. rewrite touch_mem by exact Hg. exact Hm.
    + destruct (getSampleData id st) as [s|]; [|exact Hm].
      destruct (createAudioBuffer s) as [buf|]; [|exact Hm].
      cbn [loadEnd snd]. now apply addToCache_mem.
  - unfold getSample. destruct (map_get id (cache st)) as [cached|] eqn:Hg; [|exact Hm].
    cbn [snd withCache cache totalMemoryUsage]. rewrite touch_mem by exact Hg. exact Hm.
Qed.

Lemma memory_accounting_sequential_witness :
  (forall m, Some 2 = Some m -> 0 <= m) /\
  Forall (fun op => match op with Resume _ _ => False | _ => True end)
    [Load 0 1; Load 1 2; Get 0 3; Load 2 4; Clear; Load 1 5] /\
  totalMemoryUsage (runCache [Load 0 1; Load 1 2; Get 0 3; Load 2 4; Clear; Load 1 5]
                      (init demoBank (Some 2))) =
  cachedBytes (cache (runCache [Load 0 1; Load 1 2; Get 0 3; Load 2 4; Clear; Load 1 5]
                        (init demoBank (Some 2)))).
Proof.
  assert (H1 : forall m, Some 2 = Some m -> 0 <= m) by (intros m E; inversion E; lia).
  assert (H2 : Forall (fun op => match op with Resume _ _ => False | _ => True end)
                 [Load 0 1; Load 1 2; Get 0 3; Load 2 4; Clear; Load 1 5])
    by (repeat constructor).
  split; [exact H1|]. split; [exact H2|].
  exact (memory_accounting_sequential demoBank (Some 2) _ H1 H2).
Defined.

(** [preloadSamples] of the same uncached id twice (both calls miss before
    either resumes) inserts the buffer once but adds its size to
    [totalMemoryUsage] twice: the counter drifts above the cached bytes by
    the size of the buffer. *)
Theorem preload_duplicate_overcounts (id now : Z) (st : State) (s : Sample) (buf : list Q) :
  map_get id (cache st) = None ->
  getSampleData id st = Some s -> createAudioBuffer s = Some buf ->
  cacheSize st + 1 < maxCacheSize st ->
  let '(ok, st') := preloadSamples [id; id] now st in
  ok = true /\
  length (cache st') = S (length (cache st)) /\
  cachedBytes (cache st') = cachedBytes (cache st) + Z.of_nat (length buf) * 4 /\
  totalMemoryUsage st' = totalMemoryUsage st + 2 * (Z.of_nat (length buf) * 4).
Proof.
  intros Hg Hd Hb Hsz. unfold cacheSize in Hsz.
  assert (Hb1 : loadBegin id now st = (Miss buf, st))
    by (unfold loadBegin; rewrite Hg, Hd, Hb; reflexivity).
  unfold preloadSamples. cbn [loadBeginAll]. rewrite Hb1. cbn [loadBeginAll].
  rewrite Hb1. cbn [loadEndAll loadEnd].
  set (e := mkEntry buf now (Z.of_nat (length buf) * 1 * 4)).
  set (st1 := withCache st (map_set id e (cache st)) (totalMemoryUsage st + Z.of_nat (length buf) * 1 * 4)).
  assert (Hlen1 : length (cache st1) = S (length (cache st))).
  { cbn. rewrite <- (length_map fst (map_set id e (cache st))), <- (length_map fst (cache st)).
    destruct (map_set_keys id e (cache st)) as [[Hin _]|[_ ->]].
    - exfalso. apply (map_get_none id (cache st) Hg Hin).
    - rewrite length_app. cbn. lia. }
  assert (A1 : addToCache id buf now st = st1).
  { unfold addToCache. cbn [evictLoop].
    destruct (Z.geb_spec (Z.of_nat (length (cache st))) (maxCacheSize st)); [lia|reflexivity]. }
  assert (A2 : addToCache id buf now st1 =
               withCache st1 (map_set id e (cache st1)) (totalMemoryUsage st1 + Z.of_nat (length buf) * 1 * 4)).
  { unfold addToCache. cbn [evictLoop]. rewrite Hlen1.
    destruct (Z.geb_spec (Z.of_nat (S (length (cache st)))) (maxCacheSize st1)); [|reflexivity].
    cbn in *. lia. }
  rewrite A1, A2. cbn [withCache cache totalMemoryUsage st1].
  assert (Hg1 : map_get id (map_set id e (cache st)) = Some e) by apply EngineTheorems.map_get_set_eq.
  split; [reflexivity|]. split.
  - rewrite <- (length_map fst (map_set id e (map_set id e (cache st)))).
    destruct (map_set_keys id e (map_set id e (cache st))) as [[_ ->]|[Hn _]].
    + rewrite length_map. exact Hlen1.
    + exfalso. apply Hn. eapply map_get_some_in. exact Hg1.
  - split.
    + rewrite (cachedBytes_set_present _ _ _ _ Hg1), (cachedBytes_set_absent _ _ _ Hg). unfold e. cbn [size]. lia.
    + lia.
Qed.

Lemma preload_duplicate_overcounts_witness :
  match createAudioBuffer (demoSample 60) with
  | Some buf =>
      let '(ok, st') := preloadSamples [0; 0] 7 (init demoBank None) in
      ok = true /\
      totalMemoryUsage st' = 0 + 2 * (Z.of_nat (length buf) * 4)
  | None => False
  end.
Proof.
  destruct (createAudioBuffer (demoSample 60)) as [buf|] eqn:Eb; [|vm_compute in Eb; discriminate].
  pose proof (preload_duplicate_overcounts 0 7 (init demoBank None) (demoSample 60) buf
                eq_refl eq_refl Eb ltac:(vm_compute; reflexivity)) as H.
  destruct (preloadSamples [0; 0] 7 (init demoBank None)) as [ok st'].
  destruct H as (H1 & _ & _ & H4). split; [exact H1|exact H4].
Defined.

Lemma preloadIds_fold (midiStart midiEnd : Z) (zs : list Zone) (acc : list Z) :
  NoDup acc ->
  let r := fold_left (fun ids zone =>
             let keyRange := keyRange zone in
             if (low keyRange <=? midiEnd) && (midiStart <=? high keyRange)
             then match sampleId zone with
                  | Some id => idSetAdd id ids
                  | None => ids
                  end
             else ids) zs acc in
  NoDup r /\
  (forall x, In x r <-> In x acc \/
     exists z, In z zs /\ low (keyRange z) <= midiEnd /\ midiStart <= high (keyRange z) /\
               sampleId z = Some x).
Proof.
  revert acc. induction zs as [|z zs IH]; intros acc Hnd; cbn [fold_left].
  - split; [exact Hnd|]. intros x. split; [now left|intros [H|(z & [] & _)]; exact H].
  - set (acc' := if (low (keyRange z) <=? midiEnd) && (midiStart <=? high (keyRange z))
                 then match sampleId z with Some id => idSetAdd id acc | None => acc end
                 else acc).
    assert (Hacc : NoDup acc' /\
                   forall x, In x acc' <-> In x acc \/
                     (low (keyRange z) <= midiEnd /\ midiStart <= high (keyRange z) /\
                      sampleId z = Some x)).
    { unfold acc'. destruct (Z.leb_spec (low (keyRange z)) midiEnd) as [L1|L1],
                            (Z.leb_spec midiStart (high (keyRange z))) as [L2|L2]; cbn;
        try (split; [exact Hnd|intros x; split; [now left|intros [H|H]; [exact H|lia]]]).
      destruct (sampleId z) as [id|].
      - unfold idSetAdd. destruct (existsb (Z.eqb id) acc) eqn:E.
        + split; [exact Hnd|]. intros x. split; [now left|].
          intros [H|(_ & _ & Hx)]; [exact H|]. inversion Hx; subst.
          apply existsb_exists in E as (y & Hy & Ey). apply Z.eqb_eq in Ey. now subst.
        + split.
          * apply NoDup_app; [exact Hnd|repeat constructor; intros []|].
            intros y Hy [Ey|[]]. subst y.
            assert (existsb (Z.eqb id) acc = true)
              by (apply existsb_exists; exists id; split; [exact Hy|apply Z.eqb_refl]).
            congruence.
          * intros x. rewrite in_app_iff. cbn. split.
            -- intros [H|[H|[]]]; [now left|right; subst; auto].
            -- intros [H|(_ & _ & Hx)]; [now left|inversion Hx; subst; right; now left].
      - split; [exact Hnd|]. intros x. split; [now left|intros [H|(_ & _ & Hx)]; [exact H|discriminate]]. }
    destruct Hacc as [Hnd' Hiff].
    destruct (IH acc' Hnd') as [Hr Hr']. split; [exact Hr|].
    intros x. rewrite Hr', Hiff. split.
    + intros [[H|H]|(z' & Hz' & H)]; [now left|right; exists z; split; [now left|exact H]|].
      right. exists z'. split; [now right|exact H].
    + intros [H|(z' & [<-|Hz'] & H)]; [now (left; left)|now (left; right)|].
      right. exists z'. auto.
Qed.

(** [preloadForMIDIRange] loads each sample at most once: the ids it
    collects are distinct, and they are exactly the sample ids of the
    zones of the first preset whose key range meets [midiStart, midiEnd]. *)
Theorem preloadIds_spec (sf2 : SF2Data) (midiStart midiEnd : Z) :
  NoDup (preloadIds sf2 midiStart midiEnd) /\
  (forall x, In x (preloadIds sf2 midiStart midiEnd) <->
     exists p ps z, presets sf2 = p :: ps /\ In z (presetZones p) /\
       low (keyRange z) <= midiEnd /\ midiStart <= high (keyRange z) /\ sampleId z = Some x).
Proof.
  unfold preloadIds. destruct (presets sf2) as [|p ps].
  - split; [constructor|]. intros x. split; [intros []|intros (p & ps & _ & E & _); discriminate].
  - destruct (preloadIds_fold midiStart midiEnd (presetZones p) [] (NoDup_nil _)) as [H1 H2].
    split; [exact H1|]. intros x. rewrite H2. split.
    + intros [[]|(z & H)]. exists p, ps, z. split; [reflexivity|exact H].
    + intros (p' & ps' & z & E & H). inversion E; subst. right. exists z. exact H.
Qed.

End CacheExtras.

(* ------------------------------------------------------------------ *)
(** ** Further properties of the parser *)

Module ParserExtras.
Import SF2Parser.
Import ParserTheorems.
Local Open Scope Z_scope.

Lemma byteAt_mid (pre l post : list Z) (i : Z) :
  0 <= i < Z.of_nat (length l) ->
  byteAt (pre ++ l ++ post) (Z.of_nat (length pre) + i) = nth (Z.to_nat i) l 0 mod 256.
Proof.
  intros Hi. unfold byteAt. rewrite Z2Nat.inj_add, Nat2Z.id by lia.
  rewrite app_nth2 by lia. rewrite Nat.add_comm, Nat.add_sub.
  rewrite app_nth1 by lia. reflexivity.
Qed.

Lemma byteAt_at (pre l post : list Z) (i b : Z) :
  0 <= i < Z.of_nat (length l) -> nth (Z.to_nat i) l 0 = b -> 0 <= b < 256 ->
  byteAt (pre ++ l ++ post) (Z.of_nat (length pre) + i) = b.
Proof.
  intros Hi Hn Hb. rewrite byteAt_mid by exact Hi. rewrite Hn. apply Z.mod_small. exact Hb.
Qed.

Lemma byteLength_app (l1 l2 : list Z) :
  byteLength (l1 ++ l2) = byteLength l1 + byteLength l2.
Proof. unfold byteLength. rewrite length_app. lia. Qed.

Lemma checkView_ok (bs : list Z) (off n : Z) (w : list Warning) :
  0 <= off -> off + n <= byteLength bs -> checkView bs off n w = (Ok tt, w).
Proof.
  intros H1 H2. unfold checkView.
  destruct (Z.ltb_spec off 0); [lia|]. destruct (Z.ltb_spec (byteLength bs) (off + n)); [lia|].
  reflexivity.
Qed.

Lemma int16At_le16 (pre post : list Z) (v : Z) :
  -32768 <= v <= 32767 ->
  int16At (pre ++ le16 v ++ post) (Z.of_nat (length pre)) 0 = v.
Proof.
  intros Hv. unfold int16At. rewrite Z.mul_0_r, Z.add_0_r.
  assert (B0 := byteAt_at pre (le16 v) post 0 (v mod 256) ltac:(cbn; lia) eq_refl
                  ltac:(apply Z.mod_pos_bound; lia)).
  assert (B1 := byteAt_at pre (le16 v) post 1 ((v / 256) mod 256) ltac:(cbn; lia) eq_refl
                  ltac:(apply Z.mod_pos_bound; lia)).
  rewrite Z.add_0_r in B0. rewrite B0, B1.
  destruct (Z.leb_spec 32768 (v mod 256 + 256 * ((v / 256) mod 256)));
    Z.div_mod_to_equations; lia.
Qed.

Lemma int16At_shift (bs : list Z) (o : Z) (k : nat) :
  int16At bs o (Z.of_nat (S k)) = int16At bs (o + 2) (Z.of_nat k).
Proof.
  unfold int16At. rewrite Nat2Z.inj_succ.
  replace (o + 2 * Z.succ (Z.of_nat k)) with (o + 2 + 2 * Z.of_nat k) by lia. reflexivity.
Qed.

Lemma int16_seq (post : list Z) (vs : list Z) :
  Forall (fun v => -32768 <= v <= 32767) vs ->
  forall pre,
  map (fun k => int16At (pre ++ concat (map le16 vs) ++ post) (Z.of_nat (length pre)) (Z.of_nat k))
    (seq 0 (length vs)) = vs.
Proof.
  induction 1 as [|v vs Hv Hvs IH]; intros pre; [reflexivity|].
  cbn [length seq map concat]. f_equal.
  - rewrite <- app_assoc. apply int16At_le16. exact Hv.
  - rewrite <- seq_shift, map_map. rewrite <- (IH (pre ++ le16 v)) at 2.
    apply map_ext. intros k. rewrite <- !app_assoc, int16At_shift, length_app.
    f_equal. cbn [length le16]. lia.
Qed.

(** The little-endian readers of the parser decode what the encoder
    wrote, at any offset of the buffer: [getUint16] of two bytes
    [n mod 256; n / 256 mod 256], [getUint32] of four, [getInt8] of the
    two's complement byte of a value in -128..127, and the [Int16Array]
    over the sample data of the two's complement encodings of 16-bit
    values (at an even offset). *)
Theorem little_endian_round_trip :
  (forall (pre post : list Z) (n : Z) (w : list Warning),
     0 <= n < 65536 ->
     getUint16 (pre ++ le16 n ++ post) (Z.of_nat (length pre)) w = (Ok n, w)) /\
  (forall (pre post : list Z) (n : Z) (w : list Warning),
     0 <= n < 4294967296 ->
     getUint32 (pre ++ le32 n ++ post) (Z.of_nat (length pre)) w = (Ok n, w)) /\
  (forall (pre post : list Z) (v : Z) (w : list Warning),
     -128 <= v <= 127 ->
     getInt8 (pre ++ [v mod 256] ++ post) (Z.of_nat (length pre)) w = (Ok v, w)) /\
  (forall (pre post vs : list Z) (w : list Warning),
     Z.of_nat (length pre) mod 2 = 0 ->
     Forall (fun v => -32768 <= v <= 32767) vs ->
     newInt16Array (pre ++ concat (map le16 vs) ++ post) (Z.of_nat (length pre))
       (Z.of_nat (length vs)) w = (Ok vs, w)).
Proof.
  split; [|split; [|split]].
  - intros pre post n w Hn. unfold getUint16, bind.
    rewrite checkView_ok by (rewrite ?byteLength_app; unfold byteLength; cbn [length le16]; lia).
    assert (B0 := byteAt_at pre (le16 n) post 0 (n mod 256) ltac:(cbn; lia) eq_refl
                    ltac:(apply Z.mod_pos_bound; lia)).
    assert (B1 := byteAt_at pre (le16 n) post 1 ((n / 256) mod 256) ltac:(cbn; lia) eq_refl
                    ltac:(apply Z.mod_pos_bound; lia)).
    rewrite Z.add_0_r in B0. rewrite B0, B1. unfold ret. f_equal. f_equal.
    Z.div_mod_to_equations. lia.
  - intros pre post n w Hn. unfold getUint32, bind.
    rewrite checkView_ok by (rewrite ?byteLength_app; unfold byteLength; cbn [length le32]; lia).
    assert (B0 := byteAt_at pre (le32 n) post 0 (n mod 256) ltac:(cbn; lia) eq_refl
                    ltac:(apply Z.mod_pos_bound; lia)).
    assert (B1 := byteAt_at pre (le32 n) post 1 ((n / 256) mod 256) ltac:(cbn; lia) eq_refl
                    ltac:(apply Z.mod_pos_bound; lia)).
    assert (B2 := byteAt_at pre (le32 n) post 2 ((n / 65536) mod 256) ltac:(cbn; lia) eq_refl
                    ltac:(apply Z.mod_pos_bound; lia)).
    assert (B3 := byteAt_at pre (le32 n) post 3 ((n / 16777216) mod 256) ltac:(cbn; lia) eq_refl
                    ltac:(apply Z.mod_pos_bound; lia)).
    rewrite Z.add_0_r in B0. rewrite B0, B1, B2, B3. unfold ret. f_equal. f_equal.
    Z.div_mod_to_equations. lia.
  - intros pre post v w Hv. unfold getInt8, bind.
    rewrite checkView_ok by (rewrite ?byteLength_app; unfold byteLength; cbn [length]; lia).
    assert (B0 := byteAt_at pre [v mod 256] post 0 (v mod 256) ltac:(cbn; lia) eq_refl
                    ltac:(apply Z.mod_pos_bound; lia)).
    rewrite Z.add_0_r in B0. rewrite B0.
    unfold ret. f_equal. f_equal.
    destruct (Z.leb_spec 128 (v mod 256)); Z.div_mod_to_equations; lia.
  - intros pre post vs w Hpre Hvs. unfold newInt16Array.
    rewrite Hpre. cbn [Z.eqb negb].
    assert (Hlen : byteLength (pre ++ concat (map le16 vs) ++ post) =
                   Z.of_nat (length pre) + 2 * Z.of_nat (length vs) + Z.of_nat (length post)).
    { rewrite !byteLength_app. unfold byteLength.
      assert (length (concat (map le16 vs)) = (2 * length vs)%nat).
      { clear. induction vs as [|v vs IH]; [reflexivity|].
        cbn [map concat]. rewrite length_app, IH. cbn. lia. }
      lia. }
    destruct (Z.ltb_spec (byteLength (pre ++ concat (map le16 vs) ++ post))
                         (Z.of_nat (length pre) + 2 * Z.of_nat (length vs))); [lia|].
    rewrite Nat2Z.id. unfold ret. f_equal. f_equal. apply int16_seq. exact Hvs.
Qed.

Lemma readStringLoop_prefix (rest : list Z) (s : list Z) :
  Forall (fun c => 1 <= c <= 255) s ->
  forall pre n w, (n <= length s)%nat ->
  readStringLoop (pre ++ s ++ rest) n (Z.of_nat (length pre)) w = (Ok (firstn n s), w).
Proof.
  induction 1 as [|c s Hc Hs IH]; intros pre n w Hn.
  - replace n with O by (cbn in Hn; lia). reflexivity.
  - destruct n as [|n]; [reflexivity|]. cbn [readStringLoop].
    unfold getUint8, bind.
    rewrite checkView_ok by (rewrite ?byteLength_app; unfold byteLength; cbn [length]; lia).
    assert (B0 := byteAt_at pre (c :: s) rest 0 c ltac:(cbn; lia) eq_refl ltac:(lia)).
    rewrite Z.add_0_r in B0. rewrite B0.
    unfold ret. destruct (Z.eqb_spec c 0); [lia|].
    specialize (IH (pre ++ [c]) n w ltac:(cbn in Hn; lia)).
    rewrite <- !app_assoc, length_app in IH. cbn [length app] in IH.
    replace (Z.of_nat (length pre + 1)) with (Z.of_nat (length pre) + 1) in IH by lia.
    cbn [app]. rewrite IH. reflexivity.
Qed.

Lemma readStringLoop_terminated (post : list Z) (s : list Z) :
  Forall (fun c => 1 <= c <= 255) s ->
  forall pre n w, (length s < n)%nat ->
  readStringLoop (pre ++ s ++ 0 :: post) n (Z.of_nat (length pre)) w = (Ok s, w).
Proof.
  induction 1 as [|c s Hc Hs IH]; intros pre n w Hn.
  - destruct n as [|n]; [cbn in Hn; lia|]. cbn [readStringLoop].
    unfold getUint8, bind.
    rewrite checkView_ok by (rewrite ?byteLength_app; unfold byteLength; cbn [length]; lia).
    assert (B0 := byteAt_at pre (0 :: post) [] 0 0 ltac:(cbn; lia) eq_refl ltac:(lia)).
    rewrite app_nil_r in B0. rewrite Z.add_0_r in B0. cbn [app]. rewrite B0. reflexivity.
  - destruct n as [|n]; [cbn in Hn; lia|]. cbn [readStringLoop].
    unfold getUint8, bind.
    rewrite checkView_ok by (rewrite ?byteLength_app; unfold byteLength; cbn [length]; lia).
    assert (B0 := byteAt_at pre (c :: s) (0 :: post) 0 c ltac:(cbn; lia) eq_refl ltac:(lia)).
    rewrite Z.add_0_r in B0. rewrite B0.
    unfold ret. destruct (Z.eqb_spec c 0); [lia|].
    specialize (IH (pre ++ [c]) n w ltac:(cbn in Hn; lia)).
    rewrite <- !app_assoc, length_app in IH. cbn [length app] in IH.
    replace (Z.of_nat (length pre + 1)) with (Z.of_nat (length pre) + 1) in IH by lia.
    cbn [app]. rewrite IH. reflexivity.
Qed.

(** [readString] of non-NUL characters: it stops at the NUL that ends
    them when [maxLength] leaves room for it, and otherwise returns the
    first [maxLength] characters, reading no further. *)
Theorem readString_round_trip :
  (forall (pre s post : list Z) (maxLength : Z) (w : list Warning),
     Forall (fun c => 1 <= c <= 255) s -> Z.of_nat (length s) < maxLength ->
     readString (pre ++ s ++ 0 :: post) (Z.of_nat (length pre)) maxLength w = (Ok s, w)) /\
  (forall (pre s post : list Z) (maxLength : Z) (w : list Warning),
     Forall (fun c => 1 <= c <= 255) s -> 0 <= maxLength <= Z.of_nat (length s) ->
     readString (pre ++ s ++ post) (Z.of_nat (length pre)) maxLength w =
     (Ok (firstn (Z.to_nat maxLength) s), w)).
Proof.
  split.
  - intros pre s post m w Hs Hm. unfold readString.
    apply readStringLoop_terminated; [exact Hs|lia].
  - intros pre s post m w Hs Hm. unfold readString.
    apply readStringLoop_prefix; [exact Hs|lia].
Qed.

Lemma validateRIFF_len (bs : list Z) (w : list Warning) (u : unit) (w' : list Warning) :
  validateRIFF bs w = (Ok u, w') -> 12 <= byteLength bs.
Proof.
  unfold validateRIFF. intros H. inv_bind H riff w1 Hr.
  destruct (codes_eqb riff (codes "RIFF")); cbn [negb] in H; [|discriminate].
  inv_bind H fs w2 Hfs. inv_bind H sfbk w3 Hs.
  apply readFourCC_inv in Hs. lia.
Qed.

(** A buffer shorter than the 12 bytes of the RIFF header is rejected:
    [parse] throws its "SF2 Parse Error: " error. *)
Theorem parse_short_buffer (bs : list Z) :
  (length bs < 12)%nat ->
  exists msg, fst (parse bs) = Throw (Error ("SF2 Parse Error: " ++ msg)%string).
Proof.
  intros Hlen. unfold parse, parseBody, bind.
  destruct (validateRIFF bs []) as [[u|e] w] eqn:E.
  - apply validateRIFF_len in E. unfold byteLength in E. lia.
  - cbn. eexists. reflexivity.
Qed.

Lemma parse_short_buffer_witness :
  (length [82; 73; 70; 70] < 12)%nat /\
  exists msg, fst (parse [82; 73; 70; 70]) = Throw (Error ("SF2 Parse Error: " ++ msg)%string).
Proof.
  assert (H : (length [82; 73; 70; 70] < 12)%nat) by (cbn; lia).
  split; [exact H|]. exact (parse_short_buffer [82; 73; 70; 70] H).
Defined.

Lemma getUint16_inv (bs : list Z) (off : Z) (w : list Warning) (x : Z) (w' : list Warning) :
  getUint16 bs off w = (Ok x, w') -> 0 <= x <= 65535 /\ w' = w.
Proof.
  unfold getUint16. intros H. inv_bind H u w1 Hc.
  apply checkView_inv in Hc as (_ & _ & ->). apply ret_inv in H as [<- ->].
  pose proof (byteAt_range bs off). pose proof (byteAt_range bs (off + 1)). split; [lia|reflexivity].
Qed.

Lemma land_255 (a : Z) : 0 <= Z.land a 255 <= 255.
Proof.
  assert (E : Z.land a 255 = a mod 256)
    by (change 255 with (Z.ones 8); rewrite Z.land_ones by lia; reflexivity).
  rewrite E. pose proof (Z.mod_pos_bound a 256 ltac:(lia)). lia.
Qed.

(** Every generator that [parseGenerators] reads has a 16-bit type; a
    key-range (43) or velocity-range (44) generator carries a byte pair
    [lo, hi], each in 0..255, and every other generator a signed 16-bit
    amount in -32768..32767. *)
Theorem parseGenerators_ranges (bs : list Z) (chunk : ChunkRef) (w : list Warning)
    (gs : list Generator) (w' : list Warning) :
  parseGenerators bs chunk w = (Ok gs, w') ->
  Forall (fun g => 0 <= genType g <= 65535 /\
    match amount g with
    | Num n => genType g <> 43 /\ genType g <> 44 /\ -32768 <= n <= 32767
    | Rng r => (genType g = 43 \/ genType g = 44) /\ 0 <= low r <= 255 /\ 0 <= high r <= 255
    end) gs.
Proof.
  unfold parseGenerators. intros H. eapply forRange_forall; [|exact H].
  intros i w0 g w1 Hg. inv_bind Hg ty w2 Ht. inv_bind Hg raw w3 Hr.
  apply getUint16_inv in Ht as [Ht _]. apply getUint16_inv in Hr as [Hr _].
  destruct ((ty =? 43) || (ty =? 44)) eqn:E; apply ret_inv in Hg as [<- _]; cbn [genType amount].
  - split; [lia|]. split; [|split; apply land_255].
    apply orb_true_iff in E as [E|E]; apply Z.eqb_eq in E; auto.
  - apply orb_false_iff in E as [E1 E2]. apply Z.eqb_neq in E1, E2.
    split; [lia|]. destruct (Z.ltb_spec 32767 raw); lia.
Qed.

Lemma parseGenerators_ranges_witness :
  match parseGenerators [43; 0; 0; 127; 17; 0; 12; 254] (mkRef 0 8) [] with
  | (Ok gs, _) =>
      Forall (fun g => 0 <= genType g <= 65535 /\
        match amount g with
        | Num n => genType g <> 43 /\ genType g <> 44 /\ -32768 <= n <= 32767
        | Rng r => (genType g = 43 \/ genType g = 44) /\ 0 <= low r <= 255 /\ 0 <= high r <= 255
        end) gs
  | (Throw _, _) => False
  end.
Proof.
  destruct (parseGenerators [43; 0; 0; 127; 17; 0; 12; 254] (mkRef 0 8) []) as [[gs|e] w'] eqn:E.
  - exact (parseGenerators_ranges _ _ _ _ _ E).
  - vm_compute in E. discriminate.
Defined.

Lemma forRange_length {A} (n : nat) (i : Z) (body : Z -> M A) (w : list Warning)
    (xs : list A) (w' : list Warning) :
  forRange n i body w = (Ok xs, w') -> length xs = n.
Proof.
  revert i w xs w'. induction n as [|n IH]; intros i w xs w' H; cbn [forRange] in H.
  - apply ret_inv in H as [<- _]. reflexivity.
  - inv_bind H x w1 Hx. inv_bind H rest w2 Hr. apply ret_inv in H as [<- _].
    cbn. f_equal. eapply IH. exact Hr.
Qed.

Lemma records_of_size (rs k : Z) : 0 < rs -> 1 <= k -> Z.of_nat (Z.to_nat ((rs * k - 1) / rs)) = k - 1.
Proof.
  intros Hrs Hk. rewrite <- (Z.div_unique (rs * k - 1) rs (k - 1) (rs - 1)) by (lia || ring). lia.
Qed.

Lemma quads_of_size (k : Z) : 0 <= k -> Z.of_nat (Z.to_nat ((4 * k + 3) / 4)) = k.
Proof. intros Hk. rewrite <- (Z.div_unique (4 * k + 3) 4 k 3) by lia. lia. Qed.

(** The record counts of the pdta sub-chunks: a sample-header, instrument
    or preset chunk of [k] records (46, 22 and 38 bytes each) gives [k - 1]
    entries, its last record (the terminal "EOS"/"EOI"/"EOP" one) being
    skipped; a bag or generator chunk of [k] 4-byte records gives [k]. *)
Theorem record_counts :
  (forall (bs : list Z) (c : ChunkRef) (k : Z) (w : list Warning) (hs : list RawHeader) (w' : list Warning),
     cSize c = 46 * k -> 1 <= k -> parseSampleHeaders bs c w = (Ok hs, w') ->
     Z.of_nat (length hs) = k - 1) /\
  (forall (bs : list Z) (inst ibag igen : ChunkRef) (k : Z) (w : list Warning)
          (is : list Instrument) (w' : list Warning),
     cSize inst = 22 * k -> 1 <= k -> parseInstruments bs inst ibag igen w = (Ok is, w') ->
     Z.of_nat (length is) = k - 1) /\
  (forall (bs : list Z) (phdr pbag pgen : ChunkRef) (insts : list Instrument) (k : Z)
          (w : list Warning) (ps : list Preset) (w' : list Warning),
     cSize phdr = 38 * k -> 1 <= k -> parsePresets bs phdr pbag pgen insts w = (Ok ps, w') ->
     Z.of_nat (length ps) = k - 1) /\
  (forall (bs : list Z) (c : ChunkRef) (k : Z) (w : list Warning) (bags : list Bag) (w' : list Warning),
     cSize c = 4 * k -> 0 <= k -> parseBags bs c w = (Ok bags, w') -> Z.of_nat (length bags) = k) /\
  (forall (bs : list Z) (c : ChunkRef) (k : Z) (w : list Warning) (gs : list Generator) (w' : list Warning),
     cSize c = 4 * k -> 0 <= k -> parseGenerators bs c w = (Ok gs, w') -> Z.of_nat (length gs) = k).
Proof.
  split; [|split; [|split; [|split]]].
  - intros bs c k w hs w' Hs Hk H. unfold parseSampleHeaders in H. apply forRange_length in H.
    rewrite H, Hs. apply records_of_size; lia.
  - intros bs inst ibag igen k w is w' Hs Hk H. unfold parseInstruments in H.
    inv_bind H bags w1 Hb. inv_bind H gens w2 Hg. apply forRange_length in H.
    rewrite H, Hs. apply records_of_size; lia.
  - intros bs phdr pbag pgen insts k w ps w' Hs Hk H. unfold parsePresets in H.
    inv_bind H bags w1 Hb. inv_bind H gens w2 Hg. apply forRange_length in H.
    rewrite H, Hs. apply records_of_size; lia.
  - intros bs c k w bags w' Hs Hk H. unfold parseBags in H. apply forRange_length in H.
    rewrite H, Hs. apply quads_of_size; lia.
  - intros bs c k w gs w' Hs Hk H. unfold parseGenerators in H. apply forRange_length in H.
    rewrite H, Hs. apply quads_of_size; lia.
Qed.

Lemma applyGen_keep_keyRange (z : Zone) (g : Generator) :
  (genType g = 43 -> forall r, amount g <> Rng r) -> keyRange (applyGen z g) = keyRange z.
Proof.
  intros H. destruct (Z.eqb_spec (genType g) 43) as [E|E].
  - unfold applyGen. rewrite E. cbn. destruct (amount g) eqn:A; [reflexivity|].
    exfalso. exact (H E r eq_refl).
  - apply applyGen_keyRange. now apply Z.eqb_neq.
Qed.

Ltac applyGen_cases :=
  unfold applyGen;
  repeat match goal with
         | |- context [genType ?g =? ?c] => destruct (Z.eqb_spec (genType g) c)
         end;
  destruct amount; cbn; try reflexivity.

Lemma applyGen_keep_pan (z : Zone) (g : Generator) :
  (genType g = 17 -> forall n, amount g <> Num n) ->
  gen_pan (generators (applyGen z g)) = gen_pan (generators z).
Proof.
  intros H. destruct (amount g) as [n|r] eqn:A; applyGen_cases; rewrite ?A in *; cbn;
    try reflexivity; exfalso; eapply H; eauto; congruence.
Qed.

Lemma applyGen_keep_sampleId (z : Zone) (g : Generator) :
  (genType g = 53 -> forall n, amount g <> Num n) -> sampleId (applyGen z g) = sampleId z.
Proof.
  intros H. destruct (amount g) as [n|r] eqn:A; applyGen_cases; rewrite ?A in *; cbn;
    try reflexivity; exfalso; eapply H; eauto; congruence.
Qed.

(** In [buildZone] the last generator of a kind wins: a key-range (43)
    generator with a byte-pair amount sets the zone's key range, a pan
    (17) or sampleID (53) generator with a number sets the pan or the
    sample, and no later generator changes it unless it is one of the same
    kind and shape. *)
Theorem buildZone_last_wins :
  (forall (pre post : list Generator) (r : Range),
     Forall (fun g => genType g = 43 -> forall r', amount g <> Rng r') post ->
     keyRange (buildZone (pre ++ mkGen 43 (Rng r) :: post)) = r) /\
  (forall (pre post : list Generator) (n : Z),
     Forall (fun g => genType g = 17 -> forall n', amount g <> Num n') post ->
     gen_pan (generators (buildZone (pre ++ mkGen 17 (Num n) :: post))) = Some n) /\
  (forall (pre post : list Generator) (n : Z),
     Forall (fun g => genType g = 53 -> forall n', amount g <> Num n') post ->
     sampleId (buildZone (pre ++ mkGen 53 (Num n) :: post)) = Some n).
Proof.
  unfold buildZone. split; [|split].
  - intros pre post r Hp. rewrite fold_left_app. cbn [fold_left].
    assert (Hz : keyRange (applyGen (fold_left applyGen pre defaultZone) (mkGen 43 (Rng r))) = r)
      by reflexivity.
    revert Hz. generalize (applyGen (fold_left applyGen pre defaultZone) (mkGen 43 (Rng r))) as z1.
    induction Hp as [|g post Hg Hp IH]; intros z1 Hz; cbn [fold_left]; [exact Hz|].
    apply IH. rewrite applyGen_keep_keyRange by exact Hg. exact Hz.
  - intros pre post n Hp. rewrite fold_left_app. cbn [fold_left].
    assert (Hz : gen_pan (generators (applyGen (fold_left applyGen pre defaultZone) (mkGen 17 (Num n)))) = Some n)
      by reflexivity.
    revert Hz. generalize (applyGen (fold_left applyGen pre defaultZone) (mkGen 17 (Num n))) as z1.
    induction Hp as [|g post Hg Hp IH]; intros z1 Hz; cbn [fold_left]; [exact Hz|].
    apply IH. rewrite applyGen_keep_pan by exact Hg. exact Hz.
  - intros pre post n Hp. rewrite fold_left_app. cbn [fold_left].
    assert (Hz : sampleId (applyGen (fold_left applyGen pre defaultZone) (mkGen 53 (Num n))) = Some n)
      by reflexivity.
    revert Hz. generalize (applyGen (fold_left applyGen pre defaultZone) (mkGen 53 (Num n))) as z1.
    induction Hp as [|g post Hg Hp IH]; intros z1 Hz; cbn [fold_left]; [exact Hz|].
    apply IH. rewrite applyGen_keep_sampleId by exact Hg. exact Hz.
Qed.

(** A generator [buildZone] has no case for, or whose amount has the
    other shape than its case reads (a number for a range generator, a
    byte pair for the others), is skipped: the zone is built as if it were
    not in the list. *)
Theorem buildZone_skips_unhandled (pre post : list Generator) (g : Generator) :
  match amount g with
  | Rng _ => genType g <> 43 /\ genType g <> 44
  | Num _ => ~ In (genType g) [17; 52; 38; 53; 41]
  end ->
  buildZone (pre ++ g :: post) = buildZone (pre ++ post).
Proof.
  intros H. unfold buildZone. rewrite !fold_left_app. cbn [fold_left]. f_equal.
  generalize (fold_left applyGen pre defaultZone) as z. intros z.
  unfold applyGen. destruct (amount g) as [n|r] eqn:A.
  - cbn [In] in H.
    repeat match goal with
           | |- context [genType g =? ?c] => destruct (Z.eqb_spec (genType g) c)
           end; try reflexivity; exfalso; apply H;
    match goal with E : genType g = _ |- _ => rewrite E end; cbn; auto 10.
  - destruct H as [H1 H2].
    repeat match goal with
           | |- context [genType g =? ?c] => destruct (Z.eqb_spec (genType g) c)
           end; try reflexivity; contradiction.
Qed.

Lemma buildZone_skips_unhandled_witness :
  (match amount (mkGen 43 (Num 5)) with
   | Rng _ => genType (mkGen 43 (Num 5)) <> 43 /\ genType (mkGen 43 (Num 5)) <> 44
   | Num _ => ~ In (genType (mkGen 43 (Num 5))) [17; 52; 38; 53; 41]
   end) /\
  buildZone ([mkGen 17 (Num (-500))] ++ mkGen 43 (Num 5) :: [mkGen 53 (Num 2)]) =
  buildZone ([mkGen 17 (Num (-500))] ++ [mkGen 53 (Num 2)]).
Proof.
  assert (H : match amount (mkGen 43 (Num 5)) with
              | Rng _ => genType (mkGen 43 (Num 5)) <> 43 /\ genType (mkGen 43 (Num 5)) <> 44
              | Num _ => ~ In (genType (mkGen 43 (Num 5))) [17; 52; 38; 53; 41]
              end) by (cbn; intros H; repeat destruct H as [H|H]; discriminate || contradiction).
  split; [exact H|].
  exact (buildZone_skips_unhandled [mkGen 17 (Num (-500))] [mkGen 53 (Num 2)] (mkGen 43 (Num 5)) H).
Defined.

Lemma walkChunks_inv {A} (bs : list Z) (P : A -> Prop) (lo : Z) (limit : Z)
    (body : Z -> list Z -> Z -> A -> M A) :
  (forall cur id size acc acc' w w',
     lo <= cur -> P acc -> id = map (byteAt bs) [cur; cur + 1; cur + 2; cur + 3] ->
     body cur id size acc w = (Ok acc', w') -> P acc') ->
  forall fuel cur acc w r w',
    lo <= cur -> P acc -> walkChunks bs fuel limit body cur acc w = (Ok r, w') -> P r.
Proof.
  intros Hbody fuel. induction fuel as [|f IH]; intros cur acc w r w' Hcur Hacc H;
    cbn [walkChunks] in H.
  - apply ret_inv in H as [<- _]. exact Hacc.
  - destruct (cur <? limit); [|apply ret_inv in H as [<- _]; exact Hacc].
    inv_bind H cid w1 Hid. inv_bind H size w2 Hs. inv_bind H acc' w3 Hb.
    apply readFourCC_inv in Hid as (_ & _ & Hid & _). apply getUint32_inv in Hs as (_ & _ & Hs & _).
    eapply IH; [| |exact H]; [lia|]. eapply Hbody; eauto.
Qed.

(** The offsets [findChunks] returns point at LIST chunks of the right
    type, after the 12-byte RIFF header: "LIST" at the offset and "INFO",
    "sdta" or "pdta" eight bytes further. *)
Theorem findChunks_offsets (bs : list Z) (w : list Warning) (ch : ChunkOffsets) (w' : list Warning) :
  findChunks bs w = (Ok ch, w') ->
  let chunkAt := fun off t =>
    12 <= off /\ map (byteAt bs) [off; off + 1; off + 2; off + 3] = codes "LIST" /\
    map (byteAt bs) [off + 8; off + 8 + 1; off + 8 + 2; off + 8 + 3] = codes t in
  chunkAt (INFO ch) "INFO"%string /\ chunkAt (SDTA ch) "sdta"%string /\ chunkAt (PDTA ch) "pdta"%string.
Proof.
  intros H chunkAt.
  assert (Hw : forall r w0 w1,
    walkChunks bs (S (length bs)) (byteLength bs - 8) (findChunksBody bs) 12 (mkChunks (-1) (-1) (-1)) w0
      = (Ok r, w1) ->
    (INFO r = -1 \/ chunkAt (INFO r) "INFO"%string) /\ (SDTA r = -1 \/ chunkAt (SDTA r) "sdta"%string) /\
    (PDTA r = -1 \/ chunkAt (PDTA r) "pdta"%string)).
  { intros r w0 w1. apply (walkChunks_inv bs (fun acc =>
      (INFO acc = -1 \/ chunkAt (INFO acc) "INFO"%string) /\ (SDTA acc = -1 \/ chunkAt (SDTA acc) "sdta"%string) /\
      (PDTA acc = -1 \/ chunkAt (PDTA acc) "pdta"%string)) 12); [|lia|cbn; auto].
    intros cur id size acc acc' w2 w3 Hcur Hacc Hid Hb. unfold findChunksBody in Hb.
    inv_bind Hb ltype w4 Hlt. apply ret_inv in Hb as [<- _].
    apply readFourCC_inv in Hlt as (_ & _ & Hlt & _).
    destruct (codes_eqb id (codes "LIST")) eqn:E1; [|exact Hacc].
    apply codes_eqb_true in E1.
    destruct (codes_eqb ltype (codes "INFO")) eqn:E2;
      [apply codes_eqb_true in E2; cbn [INFO SDTA PDTA];
       split; [right; unfold chunkAt; split; [lia|split; congruence]|apply Hacc]|].
    destruct (codes_eqb ltype (codes "sdta")) eqn:E3;
      [apply codes_eqb_true in E3; cbn [INFO SDTA PDTA];
       split; [apply Hacc|split; [right; unfold chunkAt; split; [lia|split; congruence]|apply Hacc]]|].
    destruct (codes_eqb ltype (codes "pdta")) eqn:E4; [|exact Hacc].
    apply codes_eqb_true in E4. cbn [INFO SDTA PDTA].
    split; [apply Hacc|split; [apply Hacc|right; unfold chunkAt; split; [lia|split; congruence]]]. }
  unfold findChunks in H. inv_bind H r w1 Hr. apply Hw in Hr as (H1 & H2 & H3).
  destruct (Z.eqb_spec (INFO r) (-1)); [discriminate|].
  destruct (Z.eqb_spec (SDTA r) (-1)); [discriminate|].
  destruct (Z.eqb_spec (PDTA r) (-1)); [discriminate|].
  apply ret_inv in H as [<- _].
  split; [destruct H1; [contradiction|assumption]|].
  split; [destruct H2; [contradiction|assumption]|destruct H3; [contradiction|assumption]].
Qed.

Lemma findChunks_offsets_witness :
  match findChunks (sf2Bytes true) [] with
  | (Ok ch, _) =>
      12 <= INFO ch /\
      map (byteAt (sf2Bytes true)) [INFO ch; INFO ch + 1; INFO ch + 2; INFO ch + 3] = codes "LIST"
  | (Throw _, _) => False
  end.
Proof.
  destruct (findChunks (sf2Bytes true) []) as [[ch|e] w'] eqn:E.
  - destruct (findChunks_offsets _ _ _ _ E) as ((H1 & H2 & _) & _). split; assumption.
  - vm_compute in E. discriminate.
Defined.

Lemma decimalAux_spec (f : nat) :
  forall n acc, 0 <= n -> (1 <= f)%nat -> n < 10 ^ Z.of_nat f ->
  exists ds, decimalAux f n acc = ds ++ acc /\ ds <> [] /\
    (hd 0 ds = 48 -> ds = [48]) /\
    Forall (fun d => 48 <= d <= 57) ds /\
    fold_left (fun a d => 10 * a + (d - 48)) ds 0 = n.
Proof.
  induction f as [|f IH]; intros n acc Hn Hf Hlt; [lia|]. cbn [decimalAux].
  destruct (Z.ltb_spec n 10) as [Hs|Hs].
  - exists [48 + n mod 10]. split; [reflexivity|]. split; [discriminate|].
    rewrite Z.mod_small by lia.
    split; [cbn [hd]; intros E; f_equal; lia|].
    split; [constructor; [cbv beta; lia|constructor]|cbn [fold_left]; lia].
  - destruct f as [|f]; [cbn in Hlt; lia|].
    assert (Hq : n / 10 < 10 ^ Z.of_nat (S f)).
    { rewrite Nat2Z.inj_succ, Z.pow_succ_r in Hlt by lia. apply Z.div_lt_upper_bound; lia. }
    assert (Hq1 : 1 <= n / 10) by (apply (Z.div_le_lower_bound n 10 1); lia).
    destruct (IH (n / 10) ((48 + n mod 10) :: acc) ltac:(apply Z.div_pos; lia) ltac:(lia) Hq)
      as (ds & E & Hne & Hz & Hd & Hv).
    exists (ds ++ [48 + n mod 10]). rewrite <- app_assoc. split; [exact E|].
    split; [intros Hx; apply app_eq_nil in Hx as [_ Hx]; discriminate|].
    pose proof (Z.mod_pos_bound n 10 ltac:(lia)).
    split.
    { destruct ds as [|d ds']; [congruence|]. cbn [hd app]. intros H48.
      specialize (Hz H48). rewrite Hz in Hv. cbn in Hv. lia. }
    split; [apply Forall_app; split; [exact Hd|constructor; [cbv beta; lia|constructor]]|].
    rewrite fold_left_app, Hv. cbn [fold_left]. pose proof (Z.div_mod n 10 ltac:(lia)). lia.
Qed.

(** A sample header without a name gets the name "Sample " followed by
    the decimal digits of its index: digits '0'..'9' whose value is the
    index, with no leading zero (a first digit '0' is the whole numeral
    "0"). These conditions single out the decimal numeral of the index. *)
Theorem sampleName_default (i : Z) (h : RawHeader) :
  hName h = [] -> 0 <= i ->
  exists ds, sampleName i h = codes "Sample " ++ ds /\ ds <> [] /\
    (hd 0 ds = 48 -> ds = [48]) /\
    Forall (fun d => 48 <= d <= 57) ds /\
    fold_left (fun a d => 10 * a + (d - 48)) ds 0 = i.
Proof.
  intros Hn Hi. unfold sampleName. rewrite Hn. unfold decimal.
  set (L := Z.log2_up (i + 2)).
  assert (HL : 0 < L) by (unfold L; apply Z.log2_up_pos; lia).
  assert (Hb : i + 2 <= 2 ^ L) by (unfold L; apply (proj2 (Z.log2_up_spec (i + 2) ltac:(lia)))).
  assert (Hp : 2 ^ L <= 10 ^ L) by (apply Z.pow_le_mono_l; lia).
  destruct (decimalAux_spec (Z.to_nat L) i [] Hi ltac:(lia) ltac:(rewrite Z2Nat.id by lia; lia))
    as (ds & E & H).
  rewrite app_nil_r in E. exists ds. rewrite E. split; [reflexivity|exact H].
Qed.

Lemma sampleName_default_witness :
  hName (mkRaw [] 0 0 0 0 0 0 0 0 0) = [] /\ 0 <= 1207 /\
  exists ds, sampleName 1207 (mkRaw [] 0 0 0 0 0 0 0 0 0) = codes "Sample " ++ ds /\ ds <> [] /\
    (hd 0 ds = 48 -> ds = [48]) /\
    Forall (fun d => 48 <= d <= 57) ds /\
    fold_left (fun a d => 10 * a + (d - 48)) ds 0 = 1207.
Proof.
  assert (H1 : hName (mkRaw [] 0 0 0 0 0 0 0 0 0) = []) by reflexivity.
  assert (H2 : 0 <= 1207) by lia.
  split; [exact H1|]. split; [exact H2|].
  exact (sampleName_default 1207 (mkRaw [] 0 0 0 0 0 0 0 0 0) H1 H2).
Defined.

End ParserExtras.
